(** * Language-data pipeline of the US state map visualisation

    A shallow embedding of the data normalisation and aggregation code of
    [map-visualization.js]: the numeric field parser [parseSpeakers], the
    state-name canonicaliser [canonicalStateName], the population join
    [populationByState], the state-coverage count of the dot chart
    ([statesCount]), the share computation of [renderPieInto], the box-plot
    statistics [calculateQuartiles], the error aggregation
    [englishErrorRMSByState] and [englishProficiencyProportions]; and of
    the data behind the other views: [languageCountByState],
    [buildLanguageTotals], [renderBarChart], the points of the dot chart,
    [displayLanguages], [getStateName], and the sums of the box plot and of
    the histogram.

    Modelling conventions.
    - A JavaScript string is a [list ascii]; the model covers ASCII text
      (white space is tab, line feed, vertical tab, form feed, carriage
      return and space; letters are A-Z and a-z).
    - A JavaScript number is a [number]: NaN, an infinity, or a finite
      binary64 value held as the rational it denotes.  Every arithmetic
      result and every converted literal is rounded to binary64 by [fin]
      (to nearest, ties to even, with gradual underflow, and overflow to
      an infinity), so that [add], [sub], [mul] and [div] are the IEEE 754
      operations; a decimal literal is converted by rounding its exact
      value, as current engines do.  The sign of zero is not modelled: no
      function of the pipeline divides by a zero or prints one.  The
      root-mean-square aggregation, which needs a square root, is written
      over the primitive binary64 floats ([PrimFloat]).
    - A JavaScript [Map] is an insertion-ordered association list; a plain
      object used as a table is an association list together with the
      members it inherits from [Object.prototype] where a lookup can
      reach them.
    - [null] and [undefined] are [None]. *)

From Stdlib Require Import Ascii String.
From Stdlib Require Import List Bool Arith ZArith QArith Qpower Qround Qabs.
From Stdlib Require Import Lia Lqa.
From Stdlib Require Import Permutation Sorted.
From Stdlib Require Qcanon.
From Stdlib Require Import Floats.PrimFloat.
Import ListNotations.

Local Open Scope string_scope.
Local Open Scope char_scope.
Local Open Scope nat_scope.
Local Open Scope list_scope.

(** A string literal as a JavaScript string. *)
Definition js (s : string) : list ascii := list_ascii_of_string s.

(* ================================================================== *)
(** ** Numbers *)
(* ================================================================== *)

Module JsNumber.

Inductive number : Type :=
| NaN
| Fin (q : Q)
| Inf (negative : bool).

Definition of_Z (z : Z) : number := Fin (inject_Z z).

Definition is_zero (q : Q) : bool := Qeq_bool q 0.
Definition is_neg (q : Q) : bool := negb (Qle_bool 0 q).

(** *** Rounding to binary64 *)

(** 2^k, for any integer [k]. *)
Definition two_pow (k : Z) : Q := Qpower 2 k.

(** The integer part of the binary logarithm of a positive rational. *)
Definition ilog2 (a : Q) : Z :=
  let k := (Z.log2 (Qnum a) - Z.log2 (Zpos (Qden a)))%Z in
  if Qle_bool (two_pow k) a then k else (k - 1)%Z.

(** The nearest integer, the even one of two that are equally near. *)
Definition round_half_even (t : Q) : Z :=
  let f := Qfloor t in
  match (t - inject_Z f ?= 1 # 2)%Q with
  | Lt => f
  | Gt => (f + 1)%Z
  | Eq => if Z.even f then f else (f + 1)%Z
  end.

(** The exponent of the unit in the last place of a positive magnitude:
    53 significant bits, and never below the subnormal quantum 2^-1074. *)
Definition quantum (a : Q) : Z := Z.max (ilog2 a - 52) (-1074).

(** A positive magnitude rounded to a multiple of its quantum. *)
Definition round_magnitude (a : Q) : Q :=
  (inject_Z (round_half_even (a / two_pow (quantum a)))
   * two_pow (quantum a))%Q.

(** The number that a real result becomes: the nearest binary64 value,
    an infinity when that rounding reaches 2^1024.  Finite results are
    kept in lowest terms, so that two finite numbers are equal exactly
    when they have the same value. *)
Definition fin (q : Q) : number :=
  let q := Qred q in
  if is_zero q then Fin 0
  else
    let r := round_magnitude (Qabs q) in
    if Qle_bool (two_pow 1024) r then Inf (is_neg q)
    else Fin (Qred (if is_neg q then (- r)%Q else r)).

(** The rationals that are binary64 values: those that rounding leaves
    as they are. *)
Definition binary64 (q : Q) : Prop := fin q = Fin q.

Definition add (a b : number) : number :=
  match a, b with
  | NaN, _ | _, NaN => NaN
  | Fin x, Fin y => fin (x + y)
  | Fin _, Inf s | Inf s, Fin _ => Inf s
  | Inf s, Inf t => if Bool.eqb s t then Inf s else NaN
  end.

(** Negation is exact. *)
Definition opp (a : number) : number :=
  match a with
  | NaN => NaN
  | Fin x => Fin (- x)%Q
  | Inf s => Inf (negb s)
  end.

Definition sub (a b : number) : number := add a (opp b).

Definition mul (a b : number) : number :=
  match a, b with
  | NaN, _ | _, NaN => NaN
  | Fin x, Fin y => fin (x * y)
  | Fin x, Inf s | Inf s, Fin x =>
      if is_zero x then NaN else Inf (xorb s (is_neg x))
  | Inf s, Inf t => Inf (xorb s t)
  end.

Definition div (a b : number) : number :=
  match a, b with
  | NaN, _ | _, NaN => NaN
  | Fin x, Fin y =>
      if is_zero y then (if is_zero x then NaN else Inf (is_neg x))
      else fin (x / y)
  | Fin _, Inf _ => Fin 0
  | Inf s, Fin y => Inf (xorb s (is_neg y))
  | Inf _, Inf _ => NaN
  end.

(** Comparison; [None] when an operand is NaN (every relational operator
    is then false). *)
Definition compare (a b : number) : option comparison :=
  match a, b with
  | NaN, _ | _, NaN => None
  | Fin x, Fin y => Some (x ?= y)%Q
  | Fin _, Inf s => Some (if s then Gt else Lt)
  | Inf s, Fin _ => Some (if s then Lt else Gt)
  | Inf s, Inf t =>
      Some (if s then (if t then Eq else Lt) else (if t then Gt else Eq))
  end.

Definition gt (a b : number) : bool :=
  match compare a b with Some Gt => true | _ => false end.
Definition lt (a b : number) : bool :=
  match compare a b with Some Lt => true | _ => false end.
Definition ge (a b : number) : bool :=
  match compare a b with Some Gt | Some Eq => true | _ => false end.
Definition le (a b : number) : bool :=
  match compare a b with Some Lt | Some Eq => true | _ => false end.

Definition isNaN (a : number) : bool :=
  match a with NaN => true | _ => false end.

(** [ToBoolean] on a number: false for 0 and NaN. *)
Definition truthy (a : number) : bool :=
  match a with
  | NaN => false
  | Fin x => negb (is_zero x)
  | Inf _ => true
  end.

(** [a || b] on numbers. *)
Definition or_else (a b : number) : number := if truthy a then a else b.

(** The rational value of a finite number. *)
Definition value (a : number) : Q :=
  match a with Fin q => q | _ => 0 end.

(** A finite number: a binary64 value. *)
Definition finite (a : number) : Prop := exists q, a = Fin q /\ binary64 q.

(** Zero, a positive value or +Infinity. *)
Definition not_negative (a : number) : Prop :=
  match a with
  | NaN => False
  | Fin q => (0 <= q)%Q
  | Inf s => s = false
  end.

(** Zero, a negative value or -Infinity. *)
Definition not_positive (a : number) : Prop :=
  match a with
  | NaN => False
  | Fin q => (q <= 0)%Q
  | Inf s => s = true
  end.

(** A positive value or +Infinity. *)
Definition above_zero (a : number) : Prop :=
  match a with
  | NaN => False
  | Fin q => (0 < q)%Q
  | Inf s => s = false
  end.

(** A number as the program can hold it: NaN, an infinity or a binary64
    value. *)
Definition representable (a : number) : Prop :=
  match a with
  | Fin q => binary64 q
  | _ => True
  end.

Definition zero : number := Fin 0.
Definition one : number := Fin 1.

End JsNumber.

Import JsNumber.

(* ================================================================== *)
(** ** Strings *)
(* ================================================================== *)

Module JsString.

Definition code (c : ascii) : nat := nat_of_ascii c.

Definition is_digit (c : ascii) : bool := (48 <=? code c) && (code c <=? 57).
Definition is_upper (c : ascii) : bool := (65 <=? code c) && (code c <=? 90).
Definition is_lower (c : ascii) : bool := (97 <=? code c) && (code c <=? 122).

(** [\w]: letters, digits and underscore. *)
Definition is_word (c : ascii) : bool :=
  is_digit c || is_upper c || is_lower c || (code c =? 95).

(** [\s]: tab, line feed, vertical tab, form feed, carriage return, space. *)
Definition is_space (c : ascii) : bool :=
  ((9 <=? code c) && (code c <=? 13)) || (code c =? 32).

(** The characters that [.] does not match. *)
Definition is_line_terminator (c : ascii) : bool :=
  (code c =? 10) || (code c =? 13).

Definition upper_char (c : ascii) : ascii :=
  if is_lower c then ascii_of_nat (code c - 32) else c.
Definition lower_char (c : ascii) : ascii :=
  if is_upper c then ascii_of_nat (code c + 32) else c.

Definition toUpperCase (s : list ascii) : list ascii := map upper_char s.
Definition toLowerCase (s : list ascii) : list ascii := map lower_char s.

Fixpoint eqb (s t : list ascii) : bool :=
  match s, t with
  | [], [] => true
  | c :: s', d :: t' => Ascii.eqb c d && eqb s' t'
  | _, _ => false
  end.

Definition is_empty (s : list ascii) : bool :=
  match s with [] => true | _ => false end.

Fixpoint drop_while (p : ascii -> bool) (s : list ascii) : list ascii :=
  match s with
  | [] => []
  | c :: r => if p c then drop_while p r else s
  end.

(** The longest prefix satisfying [p], and what follows it. *)
Fixpoint span (p : ascii -> bool) (s : list ascii)
  : list ascii * list ascii :=
  match s with
  | [] => ([], [])
  | c :: r =>
      if p c then let (a, b) := span p r in (c :: a, b) else ([], s)
  end.

Definition trimStart (s : list ascii) : list ascii := drop_while is_space s.
Definition trimEnd (s : list ascii) : list ascii :=
  rev (drop_while is_space (rev s)).

(** [s.trim()] *)
Definition trim (s : list ascii) : list ascii := trimEnd (trimStart s).

(** [s.replace(/c/g, "")] for a single character [c]. *)
Definition remove_char (c : ascii) (s : list ascii) : list ascii :=
  filter (fun d => negb (Ascii.eqb d c)) s.

(** [s.includes(c)] and [s.indexOf(c) !== -1] for a single character. *)
Definition includes (c : ascii) (s : list ascii) : bool :=
  existsb (Ascii.eqb c) s.

(** Does [\(.*?\)] match with its opening parenthesis just consumed?  The
    lazy [.*?] stops at the first closing parenthesis and cannot cross a
    line terminator. *)
Fixpoint closes (s : list ascii) : bool :=
  match s with
  | [] => false
  | c :: r =>
      if Ascii.eqb c ")" then true
      else if is_line_terminator c then false
      else closes r
  end.

(** [s.replace(/\(.*?\)/g, "")], scanning left to right; [inside] holds
    while a match is being skipped. *)
Fixpoint strip_parens_from (inside : bool) (s : list ascii) : list ascii :=
  match s with
  | [] => []
  | c :: r =>
      if inside then
        if Ascii.eqb c ")" then strip_parens_from false r
        else strip_parens_from true r
      else if Ascii.eqb c "(" && closes r then strip_parens_from true r
      else c :: strip_parens_from false r
  end.

Definition strip_parens (s : list ascii) : list ascii :=
  strip_parens_from false s.

(** [s.replace(/\s+/g, " ")]: every maximal run of white space becomes one
    space; [in_run] holds after a white-space character. *)
Fixpoint collapse_from (in_run : bool) (s : list ascii) : list ascii :=
  match s with
  | [] => []
  | c :: r =>
      if is_space c then
        if in_run then collapse_from true r
        else " " :: collapse_from true r
      else c :: collapse_from false r
  end.

Definition collapse_spaces (s : list ascii) : list ascii :=
  collapse_from false s.

(** [s.split(/\s+/)] *)
Fixpoint split_from (in_run : bool) (cur : list ascii) (s : list ascii)
  : list (list ascii) :=
  match s with
  | [] => [cur]
  | c :: r =>
      if is_space c then
        if in_run then split_from true [] r
        else cur :: split_from true [] r
      else split_from false (cur ++ [c]) r
  end.

Definition split_spaces (s : list ascii) : list (list ascii) :=
  split_from false [] s.

(** [words.join(" ")] *)
Fixpoint join_spaces (ws : list (list ascii)) : list ascii :=
  match ws with
  | [] => []
  | [w] => w
  | w :: rest => w ++ " " :: join_spaces rest
  end.

(** Case-insensitive prefix test. *)
Fixpoint starts_with_ci (p s : list ascii) : bool :=
  match p, s with
  | [], _ => true
  | _ :: _, [] => false
  | a :: p', c :: s' =>
      Ascii.eqb (lower_char a) (lower_char c) && starts_with_ci p' s'
  end.

(** A word boundary before [s], when the preceding character is a word
    character or not. *)
Definition boundary (prev_word : bool) (s : list ascii) : bool :=
  match s with
  | [] => prev_word
  | c :: _ => xorb prev_word (is_word c)
  end.

(** [s.replace(/\bstate\b/i, "")]: the first occurrence only. *)
Fixpoint remove_state_from (prev_word : bool) (s : list ascii)
  : list ascii :=
  match s with
  | [] => []
  | c :: r =>
      if boundary prev_word s
         && starts_with_ci (js "state") s
         && boundary true (skipn 5 s)
      then skipn 5 s
      else c :: remove_state_from (is_word c) r
  end.

Definition remove_state (s : list ascii) : list ascii :=
  remove_state_from false s.

End JsString.

Import JsString.

(* ================================================================== *)
(** ** Numeric literals *)
(* ================================================================== *)

Module JsLiteral.

Definition digit_value (c : ascii) : Z := Z.of_nat (code c - 48).

(** The value of a run of decimal digits. *)
Definition digits_value (ds : list ascii) : Z :=
  fold_left (fun acc c => 10 * acc + digit_value c)%Z ds 0%Z.

(** The value of [ds.fs]. *)
Definition mantissa (ds fs : list ascii) : Q :=
  inject_Z (digits_value (ds ++ fs))
  / inject_Z (10 ^ Z.of_nat (length fs)).

(** An optional sign: is it a minus, and what follows. *)
Definition sign (s : list ascii) : bool * list ascii :=
  match s with
  | c :: r =>
      if Ascii.eqb c "-" then (true, r)
      else if Ascii.eqb c "+" then (false, r)
      else (false, s)
  | [] => (false, [])
  end.

(** An optional exponent part [e±dd]; without digits there is none. *)
Definition exponent (s : list ascii) : Z * list ascii :=
  match s with
  | c :: r =>
      if Ascii.eqb (lower_char c) "e" then
        let (neg, r1) := sign r in
        let (es, r2) := span is_digit r1 in
        if is_empty es then (0%Z, s)
        else ((if neg then - digits_value es else digits_value es)%Z, r2)
      else (0%Z, s)
  | [] => (0%Z, [])
  end.

(** The longest unsigned decimal literal at the start of [s]
    ([dd], [dd.], [dd.dd] or [.dd], with an optional exponent), its value
    and what follows it; [None] when [s] starts with none. *)
Definition decimal_prefix (s : list ascii) : option (Q * list ascii) :=
  let (ds, r1) := span is_digit s in
  let mant :=
    match r1 with
    | c :: r =>
        if Ascii.eqb c "." then
          let (fs, r2) := span is_digit r in
          if is_empty ds && is_empty fs then None
          else Some (mantissa ds fs, r2)
        else if is_empty ds then None else Some (mantissa ds [], r1)
    | [] => if is_empty ds then None else Some (mantissa ds [], r1)
    end in
  match mant with
  | None => None
  | Some (m, r3) =>
      let (e, r4) := exponent r3 in
      Some ((m * Qpower 10 e)%Q, r4)
  end.

Fixpoint starts_with (p s : list ascii) : bool :=
  match p, s with
  | [], _ => true
  | _ :: _, [] => false
  | a :: p', c :: s' => Ascii.eqb a c && starts_with p' s'
  end.

(** [parseFloat(s)]: leading white space is skipped and the longest
    decimal literal that starts the string is converted. *)
Definition parseFloat (s : list ascii) : number :=
  let (neg, r) := sign (trimStart s) in
  if starts_with (js "Infinity") r then Inf neg
  else
    match decimal_prefix r with
    | None => NaN
    | Some (q, _) => fin (if neg then - q else q)
    end.

Definition radix_digit (radix : Z) (c : ascii) : option Z :=
  let v :=
    if is_digit c then Z.of_nat (code c - 48)
    else if is_lower c then Z.of_nat (code c - 87)
    else if is_upper c then Z.of_nat (code c - 55)
    else 99%Z in
  if (v <? radix)%Z then Some v else None.

Fixpoint radix_value (radix acc : Z) (s : list ascii) : option Z :=
  match s with
  | [] => Some acc
  | c :: r =>
      match radix_digit radix c with
      | Some v => radix_value radix (radix * acc + v)%Z r
      | None => None
      end
  end.

(** [0x], [0o] and [0b] literals. *)
Definition radix_literal (s : list ascii) : option Z :=
  match s with
  | z :: x :: ((_ :: _) as body) =>
      if Ascii.eqb z "0" then
        if Ascii.eqb (lower_char x) "x" then radix_value 16 0 body
        else if Ascii.eqb (lower_char x) "o" then radix_value 8 0 body
        else if Ascii.eqb (lower_char x) "b" then radix_value 2 0 body
        else None
      else None
  | _ => None
  end.

(** [Number(s)] and unary [+s] on a string: the whole trimmed string must
    be a numeric literal; the empty string converts to 0. *)
Definition toNumber (s : list ascii) : number :=
  let t := trim s in
  if is_empty t then zero
  else
    match radix_literal t with
    | Some z => fin (inject_Z z)
    | None =>
        let (neg, r) := sign t in
        if JsString.eqb r (js "Infinity") then Inf neg
        else
          match decimal_prefix r with
          | Some (q, []) => fin (if neg then - q else q)
          | _ => NaN
          end
    end.

End JsLiteral.

Import JsLiteral.

(* ================================================================== *)
(** ** The numeric field parser *)
(* ================================================================== *)

(** The scanner behind [s.match(/[0-9]+(?:\.[0-9]+)?/g)]. *)
Inductive scan_state : Type :=
| Idle
| InInt (tok : list ascii)
| InFrac (tok : list ascii).

Definition head_is_digit (s : list ascii) : bool :=
  match s with c :: _ => is_digit c | [] => false end.

(** All matches of [/[0-9]+(?:\.[0-9]+)?/g] in order: a maximal run of
    digits, extended by a point and a further maximal run of digits when a
    digit follows the point. *)
Fixpoint scan_numbers (st : scan_state) (s : list ascii)
  : list (list ascii) :=
  match s with
  | [] =>
      match st with
      | Idle => []
      | InInt tok | InFrac tok => [tok]
      end
  | c :: r =>
      match st with
      | Idle =>
          if is_digit c then scan_numbers (InInt [c]) r
          else scan_numbers Idle r
      | InInt tok =>
          if is_digit c then scan_numbers (InInt (tok ++ [c])) r
          else if Ascii.eqb c "." && head_is_digit r
               then scan_numbers (InFrac (tok ++ [c])) r
          else tok :: scan_numbers Idle r
      | InFrac tok =>
          if is_digit c then scan_numbers (InFrac (tok ++ [c])) r
          else tok :: scan_numbers Idle r
      end
  end.

Definition match_numbers (s : list ascii) : list (list ascii) :=
  scan_numbers Idle s.

Definition two : number := Fin 2.

(** [parseSpeakers(raw)] *)
Definition parseSpeakers (raw : option (list ascii)) : option number :=
  match raw with
  | None => None
  | Some r =>
      let s := trim r in
      if is_empty s then None
      else
        let s := trim (remove_char "," (strip_parens s)) in
        let nums := match_numbers s in
        match map parseFloat nums with
        | [] => None
        | (first :: _) as parsed =>
            if includes "-" s && (2 <=? length parsed) then
              Some (div (add first (last parsed first)) two)
            else if includes "<" s && (1 <=? length parsed) then
              Some first
            else Some first
        end
  end.

(** The cleaned form of a field: [String(raw).trim()] with parenthetical
    notes and commas removed, trimmed again. *)
Definition cleaned (r : list ascii) : list ascii :=
  trim (remove_char "," (strip_parens (trim r))).

(** The candidate numbers of a field, in left-to-right order. *)
Definition candidates (r : list ascii) : list number :=
  map parseFloat (match_numbers (cleaned r)).

Definition mean (a b : number) : number := div (add a b) two.


(* ================================================================== *)
(** ** The state-name canonicaliser *)
(* ================================================================== *)

(** The code table, in the order the object literal lists its keys. *)
Definition abbrevToName : list (list ascii * list ascii) :=
  map (fun p => (js (fst p), js (snd p)))
    [ ("AL", "Alabama"); ("AK", "Alaska"); ("AZ", "Arizona");
      ("AR", "Arkansas"); ("CA", "California"); ("CO", "Colorado");
      ("CT", "Connecticut"); ("DE", "Delaware"); ("FL", "Florida");
      ("GA", "Georgia"); ("HI", "Hawaii"); ("ID", "Idaho");
      ("IL", "Illinois"); ("IN", "Indiana"); ("IA", "Iowa");
      ("KS", "Kansas"); ("KY", "Kentucky"); ("LA", "Louisiana");
      ("ME", "Maine"); ("MD", "Maryland"); ("MA", "Massachusetts");
      ("MI", "Michigan"); ("MN", "Minnesota"); ("MS", "Mississippi");
      ("MO", "Missouri"); ("MT", "Montana"); ("NE", "Nebraska");
      ("NV", "Nevada"); ("NH", "New Hampshire"); ("NJ", "New Jersey");
      ("NM", "New Mexico"); ("NY", "New York"); ("NC", "North Carolina");
      ("ND", "North Dakota"); ("OH", "Ohio"); ("OK", "Oklahoma");
      ("OR", "Oregon"); ("PA", "Pennsylvania"); ("RI", "Rhode Island");
      ("SC", "South Carolina"); ("SD", "South Dakota"); ("TN", "Tennessee");
      ("TX", "Texas"); ("UT", "Utah"); ("VT", "Vermont");
      ("VA", "Virginia"); ("WA", "Washington"); ("WV", "West Virginia");
      ("WI", "Wisconsin"); ("WY", "Wyoming");
      ("DC", "District of Columbia") ]%string.

(** [abbrevToName[up]] *)
Definition abbrev_lookup (up : list ascii) : option (list ascii) :=
  option_map snd (find (fun p => JsString.eqb (fst p) up) abbrevToName).

(** [Object.values(abbrevToName)] *)
Definition state_names : list (list ascii) := map snd abbrevToName.

(** [w.charAt(0).toUpperCase() + w.slice(1).toLowerCase()] *)
Definition title_word (w : list ascii) : list ascii :=
  toUpperCase (firstn 1 w) ++ toLowerCase (skipn 1 w).

Definition Unknown : list ascii := js "Unknown".

(** [canonicalStateName(raw)] *)
Definition canonicalStateName (raw : option (list ascii)) : list ascii :=
  match raw with
  | None => Unknown
  | Some r =>
      let s := trim r in
      if is_empty s then Unknown
      else
        let s := trim (collapse_spaces (remove_char "." s)) in
        let by_code :=
          if length s =? 2 then abbrev_lookup (toUpperCase s) else None in
        match by_code with
        | Some name => name
        | None =>
            let clean := trim (remove_state (strip_parens s)) in
            match find (fun name =>
                          JsString.eqb (toLowerCase name) (toLowerCase clean))
                       state_names with
            | Some name => name
            | None => join_spaces (map title_word (split_spaces clean))
            end
        end
  end.

(* ================================================================== *)
(** ** Maps *)
(* ================================================================== *)

Module JsMap.

(** A [Map] with string keys: its entries in insertion order. *)
Definition t (V : Type) : Type := list (list ascii * V).

Definition empty {V : Type} : t V := [].

Fixpoint get {V : Type} (m : t V) (k : list ascii) : option V :=
  match m with
  | [] => None
  | (k', v) :: r => if JsString.eqb k' k then Some v else get r k
  end.

(** [m.set(k, v)]: an existing key keeps its place. *)
Fixpoint set {V : Type} (m : t V) (k : list ascii) (v : V) : t V :=
  match m with
  | [] => [(k, v)]
  | (k', v') :: r =>
      if JsString.eqb k' k then (k', v) :: r else (k', v') :: set r k v
  end.

Definition has {V : Type} (m : t V) (k : list ascii) : bool :=
  match get m k with Some _ => true | None => false end.

Definition keys {V : Type} (m : t V) : list (list ascii) := map fst m.

End JsMap.

(* ================================================================== *)
(** ** Records and the joins *)
(* ================================================================== *)

(** A row of the language table after ingestion: [Speakers] has been
    replaced by [parseSpeakers] of its text; the two English-proficiency
    columns keep their text. *)
Record LanguageRecord : Type := {
  State : list ascii;
  Language : list ascii;
  Speakers : option number;
  LessThanVeryWell : option (list ascii);
  MarginOfError : option (list ascii)
}.

Definition stateKey (d : LanguageRecord) : list ascii :=
  canonicalStateName (Some (State d)).

(** [languageByState]: the records of each canonical state, in order. *)
Definition languageByState (languageData : list LanguageRecord)
  : JsMap.t (list LanguageRecord) :=
  fold_left
    (fun (m : JsMap.t (list LanguageRecord)) d =>
       let k := stateKey d in
       let m := if JsMap.has m k then m else JsMap.set m k [] in
       match JsMap.get m k with
       | Some arr => JsMap.set m k (arr ++ [d])%list
       | None => m
       end)
    languageData JsMap.empty.

(** [new Set(xs)]: the distinct elements in order of first occurrence. *)
Definition new_Set (xs : list (list ascii)) : list (list ascii) :=
  fold_left
    (fun s x => if existsb (JsString.eqb x) s then s else (s ++ [x])%list)
    xs [].

(** [(statesCount.get(l) || 0) + 1] *)
Definition bump (statesCount : JsMap.t nat) (l : list ascii) : JsMap.t nat :=
  JsMap.set statesCount l
    (match JsMap.get statesCount l with Some n => n | None => 0 end + 1).

(** [statesCount]: for each language, the number of entries of
    [languageByState] whose records mention it. *)
Definition statesCount (byState : JsMap.t (list LanguageRecord))
  : JsMap.t nat :=
  fold_left
    (fun sc entry => fold_left bump (new_Set (map Language (snd entry))) sc)
    byState JsMap.empty.

(** [statesCount.get(lang) || 0] on the loaded data. *)
Definition states_of (languageData : list LanguageRecord) (l : list ascii)
  : nat :=
  match JsMap.get (statesCount (languageByState languageData)) l with
  | Some n => n
  | None => 0
  end.

(** A row of the population table: column name to text. *)
Definition Row : Type := JsMap.t (list ascii).

(** [a || b] on a possibly missing text. *)
Definition text_or (a b : option (list ascii)) : option (list ascii) :=
  match a with
  | Some (_ :: _) => a
  | _ => b
  end.

Definition column (r : Row) (name : string) : option (list ascii) :=
  JsMap.get r (js name).

Definition rawName (r : Row) : option (list ascii) :=
  text_or (column r "Area") (text_or (column r "State")
    (text_or (column r "NAME") (text_or (column r "Name")
      (text_or (column r "Geography") (column r "GeographyName"))))).

Definition rawPop (r : Row) : option (list ascii) :=
  text_or (column r "2010") (text_or (column r "2010 Population")
    (text_or (column r "Pop2010") (text_or (column r "POP_2010")
      (text_or (column r "2010 Population Estimate") (column r "2010_est"))))).

(** The value [p] computed for a row: [null] when the column is missing or
    empty once commas are removed and the text trimmed, else [+s]. *)
Definition population_value (r : Row) : option number :=
  match rawPop r with
  | None => None
  | Some t =>
      let s := trim (remove_char "," t) in
      if is_empty s then None else Some (toNumber s)
  end.

(** What a row stores, if anything: [populationByState.set(name, p)]. *)
Definition population_entry (r : Row) : option (list ascii * number) :=
  match rawName r with
  | None | Some [] => None
  | Some name =>
      match population_value r with
      | Some p =>
          if isNaN p then None
          else Some (canonicalStateName (Some name), p)
      | None => None
      end
  end.

(** [populationByState] *)
Definition populationByState (popData : list Row) : JsMap.t number :=
  fold_left
    (fun m r =>
       match population_entry r with
       | Some (name, p) => JsMap.set m name p
       | None => m
       end)
    popData JsMap.empty.

(** The distinct canonical states of the records that satisfy [keep]. *)
Definition states_where (keep : LanguageRecord -> bool)
  (languageData : list LanguageRecord) : list (list ascii) :=
  new_Set (map stateKey (filter keep languageData)).

Definition has_speakers (d : LanguageRecord) : bool :=
  match Speakers d with
  | Some n => gt n zero
  | None => false
  end.

(** The coverage count as the specification words it: the distinct
    canonical states with a record of the language whose speaker count is
    above zero. *)
Definition spec_languageCoverage (languageData : list LanguageRecord)
  (l : list ascii) : nat :=
  length (states_where
            (fun d => JsString.eqb (Language d) l && has_speakers d)
            languageData).

(** The distinct canonical states with any record of the language. *)
Definition states_mentioning (languageData : list LanguageRecord)
  (l : list ascii) : nat :=
  length (states_where (fun d => JsString.eqb (Language d) l) languageData).

(* ================================================================== *)
(** ** Sorting *)
(* ================================================================== *)

Section Sort.

Variable A : Type.

(** The comparator protocol of [Array.prototype.sort]: a result above zero
    puts the second argument first; zero and NaN keep the order. *)
Variable cmp : A -> A -> number.

Fixpoint insert_sorted (x : A) (l : list A) : list A :=
  match l with
  | [] => [x]
  | y :: r => if gt (cmp x y) zero then y :: insert_sorted x r else x :: l
  end.

(** [xs.sort(cmp)]: the sort is stable. *)
Definition sort (l : list A) : list A := fold_right insert_sorted [] l.

End Sort.

Arguments insert_sorted {A} cmp x l.
Arguments sort {A} cmp l.

(* ================================================================== *)
(** ** Shares with an "Other" bucket *)
(* ================================================================== *)

Record PieItem : Type := {
  lang : list ascii;
  val : number;
  pct : number
}.

(** The literal [0.01]. *)
Definition hundredth : number := fin (1 # 100).

Definition Other : list ascii := js "Other (<1%)".

(** [xs.reduce((s, d) => s + d.val, 0)] *)
Definition sum_val (items : list PieItem) : number :=
  fold_left (fun s d => add s (val d)) items zero.

(** [x || 1] on a number that may be [null]. *)
Definition or_one (x : option number) : number :=
  match x with
  | Some n => or_else n one
  | None => one
  end.

Definition with_pct (d : PieItem) (p : number) : PieItem :=
  {| lang := lang d; val := val d; pct := p |}.

(** The entries drawn by [renderPieInto]: the array [major] after the
    "Other" entry has been pushed.  [normalizeExcluding] is [None] for a
    falsy argument and [Some] of the array otherwise. *)
Definition renderPieInto (totals : JsMap.t number) (popForPct : option number)
  (normalizeExcluding : option (list (list ascii))) : list PieItem :=
  let items :=
    map (fun e => {| lang := fst e; val := snd e; pct := NaN |}) totals in
  let items := filter (fun d => truthy (val d) && gt (val d) zero) items in
  let items :=
    match normalizeExcluding with
    | Some excluded =>
        let items :=
          filter (fun d => negb (existsb (JsString.eqb (lang d)) excluded))
                 items in
        let sumRem := or_else (sum_val items) one in
        map (fun d => with_pct d (div (val d) sumRem)) items
    | None =>
        map (fun d =>
               with_pct d
                 (match popForPct with
                  | Some p => if truthy p then div (val d) p else zero
                  | None => zero
                  end))
            items
    end in
  let major :=
    sort (fun a b => sub (pct b) (pct a))
         (filter (fun d => ge (pct d) hundredth) items) in
  let minor := filter (fun d => lt (pct d) hundredth) items in
  let otherVal := sum_val minor in
  let otherPct :=
    match normalizeExcluding with
    | Some _ => div otherVal (or_else (sum_val items) one)
    | None => div otherVal (or_one popForPct)
    end in
  if gt otherVal zero
  then (major ++ [{| lang := Other; val := otherVal; pct := otherPct |}])%list
  else major.

(** The positive entries of [totals], the "included values". *)
Definition included (totals : JsMap.t number) : list number :=
  filter (fun v => truthy v && gt v zero) (map snd totals).

Definition sum_numbers (vs : list number) : number :=
  fold_left add vs zero.

(* ================================================================== *)
(** ** Box-plot statistics *)
(* ================================================================== *)

Record Quartiles : Type := {
  q_min : option number;
  q_q1 : option number;
  q_median : option number;
  q_q3 : option number;
  q_max : option number;
  q_iqr : number
}.

(** [Math.floor(len * p)] *)
Definition floor_times (len : nat) (p : Q) : nat :=
  Z.to_nat (Qfloor (inject_Z (Z.of_nat len) * p)).

(** A possibly [undefined] operand of an arithmetic operator. *)
Definition operand (x : option number) : number :=
  match x with Some n => n | None => NaN end.

(** [calculateQuartiles(data)]; an index outside the array reads
    [undefined]. *)
Definition calculateQuartiles (data : list number) : Quartiles :=
  let sorted := sort (fun a b => sub a b) data in
  let len := length sorted in
  let q1Index := floor_times len (25 # 100) in
  let medianIndex := floor_times len (5 # 10) in
  let q3Index := floor_times len (75 # 100) in
  let q1 := nth_error sorted q1Index in
  let median := nth_error sorted medianIndex in
  let q3 := nth_error sorted q3Index in
  let min := nth_error sorted 0 in
  let max := if len =? 0 then None else nth_error sorted (len - 1) in
  {| q_min := min; q_q1 := q1; q_median := median; q_q3 := q3;
     q_max := max; q_iqr := sub (operand q3) (operand q1) |}.

(* ================================================================== *)
(** ** Root-mean-square aggregation of the margins of error *)
(* ================================================================== *)

(** [Math.sqrt(errors.reduce((s, e) => s + e * e, 0))], over binary64. *)
Definition rmsError (errors : list float) : float :=
  PrimFloat.sqrt
    (fold_left (fun s e => PrimFloat.add s (PrimFloat.mul e e)) errors
               0%float).

(** [englishErrorRMSByState] *)
Definition englishErrorRMSByState (englishErrorByState : JsMap.t (list float))
  : JsMap.t float :=
  fold_left (fun m entry => JsMap.set m (fst entry) (rmsError (snd entry)))
            englishErrorByState JsMap.empty.

(** The sum of the squares, taken from left to right as floating-point
    addition requires. *)
Definition sum_of_squares (errors : list float) : float :=
  fold_left PrimFloat.add (map (fun e => PrimFloat.mul e e) errors) 0%float.

(* ================================================================== *)
(** ** English-proficiency proportions *)
(* ================================================================== *)

Definition hundred : number := Fin 100.

(** [englishLessThanVeryWellByState]: per canonical state, the sum of the
    parsed "less than very well" counts that are not [null]. *)
Definition englishLessThanVeryWellByState
  (languageData : list LanguageRecord) : JsMap.t number :=
  fold_left
    (fun m d =>
       let k := stateKey d in
       match parseSpeakers (LessThanVeryWell d) with
       | Some count =>
           let current :=
             match JsMap.get m k with
             | Some c => or_else c zero
             | None => zero
             end in
           JsMap.set m k (add current count)
       | None => m
       end)
    languageData JsMap.empty.

(** [populationByState.get(state) || 1] *)
Definition population_or_one (population : JsMap.t number)
  (state : list ascii) : number :=
  or_one (JsMap.get population state).

(** [(count / pop) * 100] *)
Definition proportion (count pop : number) : number :=
  mul (div count pop) hundred.

(** [englishProficiencyProportions] *)
Definition englishProficiencyProportions (counts population : JsMap.t number)
  : JsMap.t number :=
  fold_left
    (fun m entry =>
       let pop := population_or_one population (fst entry) in
       JsMap.set m (fst entry) (proportion (snd entry) pop))
    counts JsMap.empty.

(* ================================================================== *)
(** ** Predicates used in the statements *)
(* ================================================================== *)

Definition all_digits (ds : list ascii) : Prop :=
  forall c, In c ds -> is_digit c = true.

(** The shape of a match of [/[0-9]+(?:\.[0-9]+)?/]. *)
Inductive number_token : list ascii -> Prop :=
| token_int (ds : list ascii) :
    ds <> [] -> all_digits ds -> number_token ds
| token_frac (ds fs : list ascii) :
    ds <> [] -> fs <> [] -> all_digits ds -> all_digits fs ->
    number_token (ds ++ "." :: fs).

(** What the scanner state holds before the rest [s] of the input. *)
Definition scan_ok (st : scan_state) (s : list ascii) : Prop :=
  match st with
  | Idle => True
  | InInt tok => tok <> [] /\ all_digits tok
  | InFrac tok =>
      exists ds fs,
        tok = ds ++ "." :: fs /\ ds <> [] /\ all_digits ds /\ all_digits fs
        /\ (fs = [] -> head_is_digit s = true)
  end.

(** A finite number that is not negative. *)
Definition nonneg (n : number) : Prop := exists q, n = Fin q /\ (0 <= q)%Q.

(** What a count can be: zero, a positive binary64 value or +Infinity. *)
Definition quantity (n : number) : Prop :=
  not_negative n /\ representable n.

(** Ascending order of an array of numbers. *)
Definition ascending (l : list number) : Prop :=
  Sorted (fun a b => le a b = true) l.

(** The numbers 1 to 8 of the worked example. *)
Definition one_to_eight : list number :=
  map of_Z [1; 2; 3; 4; 5; 6; 7; 8]%Z.

(** "Near zero" for a proportion in percent: a finite value of at most one
    percent in absolute value. *)
Definition near_zero (n : number) : Prop :=
  exists q, n = Fin q /\ (Qabs q <= 1)%Q.

(* ================================================================== *)
(** ** Sample data *)
(* ================================================================== *)

Definition english_record (state count : string) : LanguageRecord :=
  {| State := js state; Language := js "Spanish"; Speakers := None;
     LessThanVeryWell := Some (js count); MarginOfError := None |}.

(** Two states with "less than very well" counts; only Texas has a
    population. *)
Definition sample_english : list LanguageRecord :=
  [ english_record "Atlantis" "5,000"; english_record "TX" "100";
    english_record "Texas" "100" ].

Definition sample_population : JsMap.t number :=
  [ (js "Texas", Fin 1000) ].

Definition population_row (area pop : string) : Row :=
  [ (js "Area", js area); (js "2010", js pop) ].

(** A negative figure for Texas. *)
Definition negative_rows : list Row := [ population_row "Texas" "-5" ].

(** Two rows for Texas, under different spellings, and an unparseable one
    for Nevada. *)
Definition sample_rows : list Row :=
  [ population_row "Texas" "24,000,000"; population_row "tx" "25,145,561";
    population_row "Nevada" "n/a" ].

(** [statesCount.get(l) || 0] *)
Definition count_of (statesCount : JsMap.t nat) (l : list ascii) : nat :=
  match JsMap.get statesCount l with
  | Some n => n
  | None => 0
  end.

(** Does a record of the array mention the language? *)
Definition mentions (l : list ascii) (arr : list LanguageRecord) : bool :=
  existsb (fun d => JsString.eqb (Language d) l) arr.

(** The records of a canonical state. *)
Definition records_of (k : list ascii) (languageData : list LanguageRecord)
  : list LanguageRecord :=
  filter (fun d => JsString.eqb (stateKey d) k) languageData.

(** The "less than very well" counts of the records of a canonical state
    that parse to a number, in input order. *)
Definition english_counts (k : list ascii)
  (languageData : list LanguageRecord) : list number :=
  flat_map
    (fun d =>
       match parseSpeakers (LessThanVeryWell d) with
       | Some count => [count]
       | None => []
       end)
    (records_of k languageData).

(** Those of them that are above zero. *)
Definition positive_counts (k : list ascii)
  (languageData : list LanguageRecord) : list number :=
  filter (fun c => gt c zero) (english_counts k languageData).

Definition language_record (state language : string)
  (speakers : option number) : LanguageRecord :=
  {| State := js state; Language := js language; Speakers := speakers;
     LessThanVeryWell := None; MarginOfError := None |}.

(** Navajo has speakers in Arizona, and a record without a count in
    Texas. *)
Definition sample_languages : list LanguageRecord :=
  [ language_record "AZ" "Navajo" (Some (Fin 5));
    language_record "TX" "Navajo" None;
    language_record "Arizona" "Hopi" (Some (Fin 2)) ].

(** A map groups the records by canonical state: one entry per state that
    has records, holding them in order. *)
Definition grouped (m : JsMap.t (list LanguageRecord))
  (languageData : list LanguageRecord) : Prop :=
  NoDup (JsMap.keys m)
  /\ forall k,
       JsMap.get m k
       = match records_of k languageData with
         | [] => None
         | arr => Some arr
         end.

(** The exact sum of a list of rationals. *)
Fixpoint sumQ (l : list Q) : Q :=
  match l with
  | [] => 0
  | q :: r => q + sumQ r
  end.

(** Descending order of the shares. *)
Definition descending (items : list PieItem) : Prop :=
  Sorted (fun a b => ge (pct a) (pct b) = true) items.

(** Totals for five languages, two of them under one percent. *)
Definition sample_totals : JsMap.t number :=
  [ (js "Spanish", Fin 95); (js "English", Fin 900); (js "Hopi", Fin 3);
    (js "Navajo", Fin 2); (js "Latin", Fin 0) ].

(** The exact sum of the shares of the entries. *)
Definition share_sum (items : list PieItem) : Q :=
  sumQ (map (fun d => value (pct d)) items).

(** A whole number. *)
Definition whole (n : number) : Prop := exists z : Z, n = of_Z z.

(* ================================================================== *)
(** ** Totals, counts and the remaining charts *)
(* ================================================================== *)

(** [languageCountByState]: the number of distinct languages of each
    state. *)
Definition languageCountByState (byState : JsMap.t (list LanguageRecord))
  : JsMap.t nat :=
  fold_left
    (fun m entry =>
       JsMap.set m (fst entry) (length (new_Set (map Language (snd entry)))))
    byState JsMap.empty.

(** [Array.from(populationByState.values()).reduce((a, b) => a + b, 0)
    || null] *)
Definition nationwidePopulation (population : JsMap.t number)
  : option number :=
  let total := fold_left add (map snd population) zero in
  if truthy total then Some total else None.

(** [d.Language || 'Unknown'] *)
Definition language_or_unknown (d : LanguageRecord) : list ascii :=
  match Language d with
  | [] => Unknown
  | l => l
  end.

(** [d.Speakers || 0] *)
Definition speakers_or_zero (d : LanguageRecord) : number :=
  match Speakers d with
  | Some n => or_else n zero
  | None => zero
  end.

(** [x || 0] on the result of a [Map] lookup. *)
Definition or_zero (x : option number) : number :=
  match x with
  | Some n => or_else n zero
  | None => zero
  end.

(** [totals.set(lang, (totals.get(lang) || 0) + v)] *)
Definition add_total (totals : JsMap.t number) (d : LanguageRecord)
  : JsMap.t number :=
  let l := language_or_unknown d in
  JsMap.set totals l (add (or_zero (JsMap.get totals l)) (speakers_or_zero d)).

(** The loop that sums the speakers of each language over some records. *)
Definition language_totals (records : list LanguageRecord) : JsMap.t number :=
  fold_left add_total records JsMap.empty.

Record LanguageTotals : Type := {
  bl_totals : JsMap.t number;
  bl_population : option number
}.

(** [buildLanguageTotals(forState)]; a missing or empty state means
    nationwide. *)
Definition buildLanguageTotals (languageData : list LanguageRecord)
  (population : JsMap.t number) (forState : option (list ascii))
  : LanguageTotals :=
  match forState with
  | None | Some [] =>
      {| bl_totals := language_totals languageData;
         bl_population := nationwidePopulation population |}
  | Some k =>
      let arr :=
        match JsMap.get (languageByState languageData) k with
        | Some a => a
        | None => []
        end in
      {| bl_totals := language_totals arr;
         bl_population :=
           match JsMap.get population k with
           | Some n => if truthy n then Some n else None
           | None => None
           end |}
  end.

(** The entries of the bar chart: language and total. *)
Definition BarItem : Type := (list ascii * number)%type.

(** [renderBarChart(excludeSet)]: the array [items] it draws. *)
Definition renderBarChart (languageData : list LanguageRecord)
  (excludeSet : list (list ascii)) : list BarItem :=
  let totals := language_totals languageData in
  let allItems :=
    sort (fun a b : BarItem => sub (snd b) (snd a))
         (filter (fun d : BarItem => gt (snd d) zero) totals) in
  firstn 15
    (filter (fun d : BarItem => negb (existsb (JsString.eqb (fst d)) excludeSet))
            allItems).

Record DotPoint : Type := {
  dot_lang : list ascii;
  dot_total : number;
  dot_states : nat
}.

(** The languages the dot chart leaves out. *)
Definition dot_exclude : list (list ascii) := [js "English"; js "Spanish"].

(** The array [data] of the dot chart. *)
Definition dotChartData (languageData : list LanguageRecord)
  : list DotPoint :=
  let totals := language_totals languageData in
  let counts := statesCount (languageByState languageData) in
  filter
    (fun d => gt (dot_total d) zero && (0 <? dot_states d)
              && negb (existsb (JsString.eqb (dot_lang d)) dot_exclude))
    (map (fun l => {| dot_lang := l;
                      dot_total := or_zero (JsMap.get totals l);
                      dot_states := count_of counts l |})
         (JsMap.keys totals)).

Record LanguageTable : Type := {
  table_state : list ascii;
  table_distinct : nat;
  table_rows : list LanguageRecord
}.

(** [displayLanguages(stateName, languageByState)]: the canonical name and
    distinct-language count it shows, and the rows of its table (none
    stands for the "no data" message). *)
Definition displayLanguages (stateName : option (list ascii))
  (byState : JsMap.t (list LanguageRecord)) : LanguageTable :=
  let canonical := canonicalStateName stateName in
  let stateLanguages :=
    match JsMap.get byState canonical with
    | Some a => a
    | None => []
    end in
  {| table_state := canonical;
     table_distinct := length (new_Set (map Language stateLanguages));
     table_rows :=
       sort (fun a b => sub (speakers_or_zero b) (speakers_or_zero a))
            (filter (fun d => match Speakers d with
                              | Some _ => true
                              | None => false
                              end) stateLanguages) |}.

(** A feature of the map geometry: its property bag, when it has one, and
    the text of its identifier, when it has one. *)
Record Feature : Type := {
  properties : option (JsMap.t (list ascii));
  id : option (list ascii)
}.

(** The FIPS table of [getStateName]. *)
Definition stateIds : list (list ascii * list ascii) :=
  map (fun p => (js (fst p), js (snd p)))
    [ ("1", "Alabama"); ("2", "Alaska"); ("4", "Arizona"); ("5", "Arkansas");
      ("6", "California"); ("8", "Colorado"); ("9", "Connecticut");
      ("10", "Delaware"); ("12", "Florida"); ("13", "Georgia");
      ("15", "Hawaii"); ("16", "Idaho"); ("17", "Illinois");
      ("18", "Indiana"); ("19", "Iowa"); ("20", "Kansas");
      ("21", "Kentucky"); ("22", "Louisiana"); ("23", "Maine");
      ("24", "Maryland"); ("25", "Massachusetts"); ("26", "Michigan");
      ("27", "Minnesota"); ("28", "Mississippi"); ("29", "Missouri");
      ("30", "Montana"); ("31", "Nebraska"); ("32", "Nevada");
      ("33", "New Hampshire"); ("34", "New Jersey"); ("35", "New Mexico");
      ("36", "New York"); ("37", "North Carolina"); ("38", "North Dakota");
      ("39", "Ohio"); ("40", "Oklahoma"); ("41", "Oregon");
      ("42", "Pennsylvania"); ("44", "Rhode Island");
      ("45", "South Carolina"); ("46", "South Dakota"); ("47", "Tennessee");
      ("48", "Texas"); ("49", "Utah"); ("50", "Vermont"); ("51", "Virginia");
      ("53", "Washington"); ("54", "West Virginia"); ("55", "Wisconsin");
      ("56", "Wyoming") ]%string.

(** A text that is present and not empty. *)
Definition truthy_text (x : option (list ascii)) : option (list ascii) :=
  match x with
  | Some (_ :: _) => x
  | _ => None
  end.

(** The property names that every plain object inherits from
    [Object.prototype]; looking one up gives a function (or, for
    [__proto__], an object), which is truthy and is not a text. *)
Definition inherited_keys : list (list ascii) :=
  map js
    [ "constructor"; "hasOwnProperty"; "isPrototypeOf";
      "propertyIsEnumerable"; "toLocaleString"; "toString"; "valueOf";
      "__proto__"; "__defineGetter__"; "__defineSetter__";
      "__lookupGetter__"; "__lookupSetter__" ]%string.

(** What [getStateName] returns: a text, or the member of
    [Object.prototype] found under an identifier. *)
Inductive StateName : Type :=
| Text (name : list ascii)
| Inherited (key : list ascii).

(** The lookup by identifier at the end of [getStateName]:
    [stateIds[d.id.toString()] || "Unknown"] on the plain object
    [stateIds]. *)
Definition name_of_id (d : Feature) : StateName :=
  match id d with
  | Some i =>
      match JsMap.get stateIds i with
      | Some name => Text name
      | None =>
          if existsb (JsString.eqb i) inherited_keys then Inherited i
          else Text Unknown
      end
  | None => Text Unknown
  end.

(** [getStateName(d)] on a feature. *)
Definition getStateName (d : Feature) : StateName :=
  match properties d with
  | Some props =>
      match truthy_text (JsMap.get props (js "name")) with
      | Some n => Text n
      | None =>
      match truthy_text (JsMap.get props (js "NAME")) with
      | Some n => Text n
      | None =>
      match truthy_text (JsMap.get props (js "STATE_NAME")) with
      | Some n => Text n
      | None =>
          let post :=
            text_or (JsMap.get props (js "stusps"))
              (text_or (JsMap.get props (js "STUSPS"))
                 (text_or (JsMap.get props (js "postal"))
                    (JsMap.get props (js "POSTAL")))) in
          match truthy_text post with
          | Some code =>
              match abbrev_lookup (toUpperCase code) with
              | Some mapped => Text mapped
              | None => name_of_id d
              end
          | None => name_of_id d
          end
      end end end
  | None => name_of_id d
  end.

(** [englishLessThanVeryWellByStateBoxplot]: as the map's sums, but only
    counts above zero are added. *)
Definition englishLessThanVeryWellByStateBoxplot
  (languageData : list LanguageRecord) : JsMap.t number :=
  fold_left
    (fun m d =>
       let k := stateKey d in
       match parseSpeakers (LessThanVeryWell d) with
       | Some count =>
           if gt count zero
           then JsMap.set m k (add (or_zero (JsMap.get m k)) count)
           else m
       | None => m
       end)
    languageData JsMap.empty.

(** [isFinite(x)] *)
Definition isFinite (n : number) : bool :=
  match n with Fin _ => true | _ => false end.

(** [proportionsForBoxplot]: state and proportion, for the states with a
    population above zero. *)
Definition proportionsForBoxplot (counts population : JsMap.t number)
  : list (list ascii * number) :=
  fold_left
    (fun acc entry =>
       match JsMap.get population (fst entry) with
       | Some pop =>
           if truthy pop && gt pop zero then
             let proportion := mul (div (snd entry) pop) hundred in
             if negb (isNaN proportion) && isFinite proportion
             then acc ++ [(fst entry, proportion)]
             else acc
           else acc
       | None => acc
       end)
    counts [].

(** [englishLessVeryWellByState] of the histogram: the per-state sums of
    the counts above zero ([parseSpeakers(...) || 0]). *)
Definition englishLessVeryWellByState (languageData : list LanguageRecord)
  : JsMap.t number :=
  fold_left
    (fun m d =>
       let k := stateKey d in
       let value := or_zero (parseSpeakers (LessThanVeryWell d)) in
       if gt value zero
       then JsMap.set m k (add (or_zero (JsMap.get m k)) value)
       else m)
    languageData JsMap.empty.

(** [nationwideLessVeryWell] *)
Definition nationwideLessVeryWell (languageData : list LanguageRecord)
  : number :=
  fold_left
    (fun s d => add s (or_zero (parseSpeakers (LessThanVeryWell d))))
    languageData zero.

(** The three property names [getStateName] returns verbatim. *)
Definition name_properties : list (list ascii) :=
  [js "name"; js "NAME"; js "STATE_NAME"].

(** A feature that carries only the identifier 48. *)
Definition texas_feature : Feature :=
  {| properties := None; id := Some (js "48") |}.

(** A record whose speaker count is not [null]. *)
Definition counted (d : LanguageRecord) : bool :=
  match Speakers d with
  | Some _ => true
  | None => false
  end.

(** The speaker counts of the data are finite numbers. *)
Definition finite_speakers (languageData : list LanguageRecord) : Prop :=
  forall d, In d languageData ->
            match Speakers d with
            | Some n => finite n
            | None => True
            end.

(** Rows in descending order of speakers. *)
Definition descending_speakers (rows : list LanguageRecord) : Prop :=
  Sorted (fun a b => ge (speakers_or_zero a) (speakers_or_zero b) = true)
         rows.

(** The speakers ([null] as 0) of the records filed under a language, in
    input order. *)
Definition language_values (records : list LanguageRecord)
  (l : list ascii) : list number :=
  map speakers_or_zero
      (filter (fun d => JsString.eqb (language_or_unknown d) l) records).

(** Their exact sum. *)
Definition language_speakers (records : list LanguageRecord)
  (l : list ascii) : Q :=
  sumQ (map value (language_values records l)).

(** Whole numbers that are not negative. *)
Definition whole_counts (vs : list number) : Prop :=
  Forall (fun v => exists z : Z, (0 <= z)%Z /\ v = of_Z z) vs.

(** What the totals keep: one entry per language, each a binary64 value
    or an infinity. *)
Definition totals_ok (m : JsMap.t number) : Prop :=
  NoDup (JsMap.keys m)
  /\ Forall (fun e => representable (snd e) /\ isNaN (snd e) = false) m.

(** Descending order of the totals of the bar chart. *)
Definition descending_totals (items : list BarItem) : Prop :=
  Sorted (fun a b : BarItem => ge (snd a) (snd b) = true) items.

(** The last steps of [renderPieInto], from the entries with their shares
    and the denominator of the "Other" share. *)
Definition pie_entries (items : list PieItem) (otherDenominator : number)
  : list PieItem :=
  let major :=
    sort (fun a b => sub (pct b) (pct a))
         (filter (fun d => ge (pct d) hundredth) items) in
  let otherVal := sum_val (filter (fun d => lt (pct d) hundredth) items) in
  if gt otherVal zero
  then major ++ [{| lang := Other; val := otherVal;
                    pct := div otherVal otherDenominator |}]
  else major.

(** The entries of [totals] with a value above zero, as [renderPieInto]
    first builds them. *)
Definition positive_items (totals : JsMap.t number) : list PieItem :=
  filter (fun d => truthy (val d) && gt (val d) zero)
         (map (fun e => {| lang := fst e; val := snd e; pct := NaN |}) totals).

(** The entries with their shares of [denominator], before the split at one
    percent. *)
Definition shares_of (totals : JsMap.t number) (denominator : number)
  : list PieItem :=
  map (fun d => with_pct d (div (val d) denominator)) (positive_items totals).

(** The "Other (<1%)" entry for the entries [items], when their merged
    value is above zero. *)
Definition other_entry (items : list PieItem) (denominator : number)
  : list PieItem :=
  let otherVal := sum_val (filter (fun d => lt (pct d) hundredth) items) in
  if gt otherVal zero
  then [{| lang := Other; val := otherVal;
           pct := div otherVal denominator |}]
  else [].

(** The entries of [totals] whose language is not excluded. *)
Definition not_excluded (excluded : list (list ascii))
  (totals : JsMap.t number) : JsMap.t number :=
  filter (fun e => negb (existsb (JsString.eqb (fst e)) excluded)) totals.

(** No denominator: [null], 0 or NaN. *)
Definition no_denominator (popForPct : option number) : Prop :=
  match popForPct with
  | Some n => truthy n = false
  | None => True
  end.

(* ================================================================== *)
(** ** Tactics for the worked examples *)
(* ================================================================== *)

(** A literal that is a binary64 value is a finite number. *)
Ltac finite_literal :=
  eexists; split; [reflexivity | vm_compute; reflexivity].

(** A list of literals that are whole numbers. *)
Ltac whole_literals :=
  unfold whole_counts; cbn;
  repeat (apply Forall_cons;
          [eexists; split; [|reflexivity]; vm_compute; discriminate|]);
  apply Forall_nil.

(* ================================================================== *)
(** ** Rounding to binary64 *)
(* ================================================================== *)

Section RoundingFacts.

Local Open Scope Q_scope.

Lemma two_pow_pos k : 0 < two_pow k.
Proof. apply Qpower_0_lt. reflexivity. Qed.

Lemma two_pow_add a b : two_pow (a + b) == two_pow a * two_pow b.
Proof. apply Qpower_plus. discriminate. Qed.

Lemma two_pow_le a b : (a <= b)%Z -> two_pow a <= two_pow b.
Proof. intro H. apply Qpower_le_compat_l; [exact H | discriminate]. Qed.

Lemma two_pow_lt a b : (a < b)%Z -> two_pow a < two_pow b.
Proof. intro H. apply Qpower_lt_compat_l; [exact H | reflexivity]. Qed.

Lemma two_pow_lt_inv a b : two_pow a < two_pow b -> (a < b)%Z.
Proof. intro H. apply (Qpower_lt_compat_l_inv 2); [exact H | reflexivity]. Qed.

Lemma two_pow_Z k : (0 <= k)%Z -> two_pow k == inject_Z (2 ^ k).
Proof. intro H. unfold two_pow. rewrite (Zpower_Qpower 2 k H). reflexivity. Qed.

Lemma two_pow_succ k : two_pow (k + 1) == 2 * two_pow k.
Proof. rewrite two_pow_add. change (two_pow 1) with 2. ring. Qed.

Lemma two_pow_pred k : two_pow (k - 1) == two_pow k / 2.
Proof.
  assert (H : two_pow k == 2 * two_pow (k - 1)).
  { rewrite <- two_pow_succ. replace (k - 1 + 1)%Z with k by lia. reflexivity. }
  rewrite H. field.
Qed.

Lemma quotient_below (n d pn pd pk : Q) :
  0 < pk -> pn == pk * pd -> n < 2 * pn -> pd <= d -> n < 2 * pk * d.
Proof. intros. nra. Qed.

Lemma quotient_above (n d pn pd pk : Q) :
  0 < pk -> pn == pk * pd -> pn <= n -> d < 2 * pd -> pk / 2 * d <= n.
Proof.
  intros. setoid_replace (pk / 2 * d) with (pk * d * (1 # 2)) by field. nra.
Qed.

(** The quotient of two positive integers against powers of two. *)
Lemma Zlog2_bounds n : (0 < n)%Z ->
  two_pow (Z.log2 n) <= inject_Z n /\ inject_Z n < two_pow (Z.log2 n + 1).
Proof.
  intro H. destruct (Z.log2_spec n H) as [H1 H2].
  pose proof (Z.log2_nonneg n) as Hn.
  rewrite !two_pow_Z by lia. rewrite <- Zle_Qle, <- Zlt_Qlt.
  replace (Z.log2 n + 1)%Z with (Z.succ (Z.log2 n)) by lia. auto.
Qed.

Lemma ilog2_spec a : 0 < a ->
  two_pow (ilog2 a) <= a /\ a < two_pow (ilog2 a + 1).
Proof.
  intro Ha. destruct a as [n d]. 
  assert (Hn : (0 < n)%Z).
  { unfold Qlt in Ha. simpl in Ha. lia. }
  unfold ilog2. cbn [Qnum Qden].
  set (k := (Z.log2 n - Z.log2 (Z.pos d))%Z).
  destruct (Zlog2_bounds n Hn) as [N1 N2].
  destruct (Zlog2_bounds (Z.pos d) eq_refl) as [D1 D2].
  assert (Hq : n # d == inject_Z n / inject_Z (Z.pos d)) by apply Qmake_Qdiv.
  assert (Hd : 0 < inject_Z (Z.pos d)) by reflexivity.
  pose proof (two_pow_pos (Z.log2 n)) as P1.
  pose proof (two_pow_pos (Z.log2 (Z.pos d))) as P2.
  pose proof (two_pow_pos k) as P3.
  assert (Hk : two_pow (Z.log2 n) == two_pow k * two_pow (Z.log2 (Z.pos d))).
  { rewrite <- two_pow_add. unfold k.
    replace (Z.log2 n - Z.log2 (Z.pos d) + Z.log2 (Z.pos d))%Z with (Z.log2 n) by lia.
    reflexivity. }
  rewrite two_pow_succ in N2, D2.
  assert (U : (n # d) < two_pow (k + 1)).
  { rewrite Hq, two_pow_succ. apply Qlt_shift_div_r; [exact Hd|].
    exact (quotient_below _ _ _ _ _ P3 Hk N2 D1). }
  assert (L : two_pow (k - 1) <= (n # d)).
  { rewrite Hq, two_pow_pred. apply Qle_shift_div_l; [exact Hd|].
    exact (quotient_above _ _ _ _ _ P3 Hk N1 D2). }
  destruct (Qle_bool (two_pow k) (n # d)) eqn:E.
  - apply Qle_bool_iff in E. split; [exact E | exact U].
  - split; [exact L|]. replace (k - 1 + 1)%Z with k by lia.
    apply Qnot_le_lt. intro C. apply Qle_bool_iff in C. congruence.
Qed.

Lemma ilog2_lt a k : 0 < a -> a < two_pow k -> (ilog2 a < k)%Z.
Proof.
  intros Ha H. destruct (ilog2_spec a Ha) as [L _].
  apply two_pow_lt_inv. eapply Qle_lt_trans; eassumption.
Qed.

Lemma ilog2_ge a k : 0 < a -> two_pow k <= a -> (k <= ilog2 a)%Z.
Proof.
  intros Ha H. destruct (ilog2_spec a Ha) as [_ U].
  assert (k < ilog2 a + 1)%Z; [|lia].
  apply two_pow_lt_inv. eapply Qle_lt_trans; eassumption.
Qed.

Lemma round_half_even_cases t :
  let f := Qfloor t in
  round_half_even t = f /\ t - inject_Z f <= 1 # 2
  \/ round_half_even t = (f + 1)%Z /\ 1 # 2 <= t - inject_Z f.
Proof.
  intro f. unfold round_half_even. fold f.
  destruct (Qcompare_spec (t - inject_Z f) (1 # 2)) as [E | E | E].
  - destruct (Z.even f); [left | right]; split; auto; rewrite E; apply Qle_refl.
  - left. split; [reflexivity | apply Qlt_le_weak, E].
  - right. split; [reflexivity | apply Qlt_le_weak, E].
Qed.

Lemma round_half_even_near t :
  t - (1 # 2) <= inject_Z (round_half_even t)
  /\ inject_Z (round_half_even t) <= t + (1 # 2).
Proof.
  pose proof (Qfloor_le t) as L. pose proof (Qlt_floor t) as U.
  rewrite inject_Z_plus in U. change (inject_Z 1) with 1 in U.
  destruct (round_half_even_cases t) as [[-> H] | [-> H]]; cbv zeta in H;
    rewrite ?inject_Z_plus; change (inject_Z 1) with 1; split; lra.
Qed.

Lemma round_half_even_int t z : t == inject_Z z -> round_half_even t = z.
Proof.
  intro E. unfold round_half_even.
  rewrite (Qfloor_comp _ _ E), Qfloor_Z.
  assert (H : t - inject_Z z < 1 # 2) by (rewrite E; lra).
  destruct (Qcompare_spec (t - inject_Z z) (1 # 2)) as [C | C | C];
    [rewrite C in H; discriminate H | reflexivity | lra].
Qed.

Lemma round_half_even_ge t z :
  inject_Z z <= t -> (z <= round_half_even t)%Z.
Proof.
  intro H. apply Qfloor_resp_le in H. rewrite Qfloor_Z in H.
  destruct (round_half_even_cases t) as [[-> _] | [-> _]]; lia.
Qed.

Lemma round_half_even_le t z :
  t <= inject_Z z -> (round_half_even t <= z)%Z.
Proof.
  intro H. pose proof (Qfloor_resp_le _ _ H) as F. rewrite Qfloor_Z in F.
  destruct (round_half_even_cases t) as [[-> _] | [-> G]]; [lia|].
  destruct (Z.eq_dec (Qfloor t) z) as [E | E]; [|lia].
  rewrite E in G. lra.
Qed.

(** *** The magnitude *)

Lemma quantum_ge a : (-1074 <= quantum a)%Z.
Proof. unfold quantum. lia. Qed.

Lemma scaled_bounds a : 0 < a ->
  0 < a / two_pow (quantum a) /\ a / two_pow (quantum a) < two_pow 53.
Proof.
  intro Ha. pose proof (two_pow_pos (quantum a)) as P.
  destruct (ilog2_spec a Ha) as [_ U].
  split.
  - apply Qlt_shift_div_l; [exact P | lra].
  - apply Qlt_shift_div_r; [exact P|].
    rewrite <- two_pow_add.
    eapply Qlt_le_trans; [exact U|]. apply two_pow_le. unfold quantum. lia.
Qed.

Lemma round_magnitude_form a : 0 < a ->
  exists m, round_magnitude a = inject_Z m * two_pow (quantum a)
            /\ (0 <= m <= 2 ^ 53)%Z.
Proof.
  intro Ha. destruct (scaled_bounds a Ha) as [L U].
  exists (round_half_even (a / two_pow (quantum a))). split; [reflexivity|].
  split.
  - apply round_half_even_ge. apply Qlt_le_weak, L.
  - apply round_half_even_le. apply Qlt_le_weak.
    rewrite <- two_pow_Z by lia. exact U.
Qed.

Lemma round_magnitude_nonneg a : 0 < a -> 0 <= round_magnitude a.
Proof.
  intro Ha. destruct (round_magnitude_form a Ha) as (m & -> & Hm & _).
  pose proof (two_pow_pos (quantum a)).
  apply Qmult_le_0_compat; [|lra].
  rewrite Zle_Qle in Hm. exact Hm.
Qed.

(** A magnitude of at least the smallest positive value does not round
    to zero. *)
Lemma round_magnitude_pos a :
  two_pow (-1074) <= a -> two_pow (-1074) <= round_magnitude a.
Proof.
  intro H. assert (Ha : 0 < a).
  { eapply Qlt_le_trans; [apply (two_pow_pos (-1074)) | exact H]. }
  pose proof (two_pow_pos (quantum a)) as P.
  assert (M : (1 <= round_half_even (a / two_pow (quantum a)))%Z).
  { apply round_half_even_ge. apply Qle_shift_div_l; [exact P|].
    change (inject_Z 1) with 1. rewrite Qmult_1_l.
    unfold quantum. destruct (Z.max_spec (ilog2 a - 52) (-1074)) as [[_ ->] | [_ ->]].
    - exact H.
    - destruct (ilog2_spec a Ha) as [L _].
      eapply Qle_trans; [|exact L]. apply two_pow_le. lia. }
  unfold round_magnitude.
  apply Qle_trans with (1 * two_pow (quantum a)).
  - rewrite Qmult_1_l. apply two_pow_le, quantum_ge.
  - apply Qmult_le_compat_r; [|lra]. rewrite Zle_Qle in M. exact M.
Qed.

Lemma two_pow_split e g : two_pow g == two_pow e * two_pow (g - e).
Proof.
  rewrite <- two_pow_add. replace (e + (g - e))%Z with g by lia. reflexivity.
Qed.

Lemma two_pow_neq k : ~ two_pow k == 0.
Proof. pose proof (two_pow_pos k). lra. Qed.

Lemma dyadic_scaled a k g e :
  a == inject_Z k * two_pow g -> (e <= g)%Z ->
  a / two_pow e == inject_Z (k * 2 ^ (g - e)).
Proof.
  intros E H. rewrite E, (two_pow_split e g), inject_Z_mult.
  rewrite (two_pow_Z (g - e)) by lia.
  field. apply two_pow_neq.
Qed.

(** A magnitude that fits the format is left as it is. *)
Lemma round_magnitude_dyadic a k g :
  a == inject_Z k * two_pow g -> (0 < k <= 2 ^ 53)%Z -> (-1074 <= g)%Z ->
  round_magnitude a == a.
Proof.
  intros E Hk Hg.
  pose proof (two_pow_pos g) as Pg.
  assert (Ik : 0 < inject_Z k) by (rewrite Zlt_Qlt in Hk; apply Hk).
  assert (Ha : 0 < a) by (rewrite E; apply Qmult_lt_0_compat; assumption).
  assert (Hz : exists z, a / two_pow (quantum a) == inject_Z z).
  { destruct (Z.eq_dec k (2 ^ 53)) as [K | K].
    - assert (Ea : a == two_pow (53 + g)).
      { rewrite E, K, two_pow_add, (two_pow_Z 53) by lia. reflexivity. }
      assert (L : ilog2 a = (53 + g)%Z).
      { apply Z.le_antisymm.
        - assert (ilog2 a < 53 + g + 1)%Z; [|lia].
          apply ilog2_lt; [exact Ha|]. rewrite Ea. apply two_pow_lt. lia.
        - apply ilog2_ge; [exact Ha|]. rewrite Ea. apply Qle_refl. }
      exists (2 ^ 52)%Z. unfold quantum. rewrite L.
      replace (Z.max (53 + g - 52) (-1074)) with (g + 1)%Z by lia.
      rewrite Ea. rewrite (two_pow_split (g + 1) (53 + g)).
      replace (53 + g - (g + 1))%Z with 52%Z by lia.
      rewrite (two_pow_Z 52) by lia. field. apply two_pow_neq.
    - assert (L : (ilog2 a < 53 + g)%Z).
      { apply ilog2_lt; [exact Ha|].
        rewrite E, two_pow_add, (two_pow_Z 53) by lia.
        apply Qmult_lt_compat_r; [exact Pg|]. rewrite <- Zlt_Qlt. lia. }
      exists (k * 2 ^ (g - quantum a))%Z.
      apply dyadic_scaled; [exact E|]. unfold quantum. lia. }
  destruct Hz as [z Hz]. unfold round_magnitude.
  rewrite (round_half_even_int _ _ Hz), <- Hz. field. apply two_pow_neq.
Qed.

(** In the normal range the relative error is at most 2^-53. *)
Lemma round_magnitude_error a :
  two_pow (-1022) <= a ->
  Qabs (round_magnitude a - a) <= a * two_pow (-53).
Proof.
  intro H. assert (Ha : 0 < a).
  { eapply Qlt_le_trans; [apply (two_pow_pos (-1022)) | exact H]. }
  assert (L : (-1022 <= ilog2 a)%Z) by (apply ilog2_ge; assumption).
  assert (Q : quantum a = (ilog2 a - 52)%Z) by (unfold quantum; lia).
  destruct (ilog2_spec a Ha) as [La _].
  pose proof (two_pow_pos (quantum a)) as P.
  destruct (round_half_even_near (a / two_pow (quantum a))) as [N1 N2].
  set (m := inject_Z (round_half_even (a / two_pow (quantum a)))) in *.
  assert (S : a == a / two_pow (quantum a) * two_pow (quantum a)).
  { field. apply two_pow_neq. }
  assert (B : two_pow (quantum a) * (1 # 2) <= a * two_pow (-53)).
  { rewrite (two_pow_split (-53) (quantum a)) at 1.
    setoid_replace (two_pow (-53) * two_pow (quantum a - -53) * (1 # 2))
      with (two_pow (quantum a - -53) * (1 # 2) * two_pow (-53)) by ring.
    apply Qmult_le_compat_r; [|apply Qlt_le_weak, two_pow_pos].
    rewrite Q. replace (ilog2 a - 52 - -53)%Z with (ilog2 a + 1)%Z by lia.
    rewrite two_pow_succ. lra. }
  unfold round_magnitude. fold m.
  set (t := a / two_pow (quantum a)) in *.
  set (p := two_pow (quantum a)) in *.
  apply Qabs_Qle_condition.
  assert (D : m * p - a == (m - t) * p) by (rewrite S at 1; ring).
  rewrite D. split; nra.
Qed.

Lemma is_neg_true q : is_neg q = true <-> q < 0.
Proof.
  unfold is_neg. rewrite negb_true_iff. split; intro H.
  - apply Qnot_le_lt. intro C. apply Qle_bool_iff in C. congruence.
  - destruct (Qle_bool 0 q) eqn:E; [|reflexivity].
    apply Qle_bool_iff in E. lra.
Qed.

Lemma is_neg_false q : is_neg q = false <-> 0 <= q.
Proof.
  unfold is_neg. rewrite negb_false_iff. apply Qle_bool_iff.
Qed.

Lemma fin_zero q : q == 0 -> fin q = Fin 0.
Proof.
  intro E. unfold fin. cbv zeta.
  assert (H : is_zero (Qred q) = true).
  { apply Qeq_bool_iff. rewrite Qred_correct. exact E. }
  rewrite H. reflexivity.
Qed.

Lemma fin_nonzero q : ~ q == 0 ->
  fin q =
  if Qle_bool (two_pow 1024) (round_magnitude (Qabs (Qred q)))
  then Inf (is_neg q)
  else Fin (Qred (if is_neg q then - round_magnitude (Qabs (Qred q))
                  else round_magnitude (Qabs (Qred q)))).
Proof.
  intro E. unfold fin. cbv zeta.
  assert (H : is_zero (Qred q) = false).
  { destruct (is_zero (Qred q)) eqn:Z; [|reflexivity].
    apply Qeq_bool_iff in Z. rewrite Qred_correct in Z. contradiction. }
  rewrite H.
  assert (N : is_neg (Qred q) = is_neg q).
  { unfold is_neg. f_equal.
    destruct (Qle_bool 0 (Qred q)) eqn:A, (Qle_bool 0 q) eqn:B; try reflexivity.
    - apply Qle_bool_iff in A. rewrite Qred_correct in A.
      apply Qle_bool_iff in A. congruence.
    - apply Qle_bool_iff in B. rewrite <- (Qred_correct q) in B.
      apply Qle_bool_iff in B. congruence. }
  rewrite N. reflexivity.
Qed.

Lemma fin_morph q q' : q == q' -> fin q = fin q'.
Proof.
  intro E. unfold fin. rewrite (Qred_complete _ _ E). reflexivity.
Qed.

Lemma Qabs_Qred_pos q : ~ q == 0 -> 0 < Qabs (Qred q).
Proof.
  intro E. rewrite Qred_correct.
  apply Qabs_case; intro H; lra.
Qed.

Lemma fin_not_NaN q : fin q <> NaN.
Proof.
  destruct (Qeq_dec q 0) as [E | E].
  - rewrite (fin_zero q E). discriminate.
  - rewrite (fin_nonzero q E). destruct (Qle_bool _ _); discriminate.
Qed.

Lemma fin_not_negative q : 0 <= q -> not_negative (fin q).
Proof.
  intro H. destruct (Qeq_dec q 0) as [E | E].
  - rewrite (fin_zero q E). cbn [not_negative not_positive above_zero]. apply Qle_refl.
  - rewrite (fin_nonzero q E).
    assert (N : is_neg q = false) by (apply is_neg_false; exact H).
    rewrite N. destruct (Qle_bool _ _); cbn [not_negative not_positive above_zero]; [reflexivity|].
    rewrite Qred_correct. apply round_magnitude_nonneg, Qabs_Qred_pos, E.
Qed.

Lemma fin_not_positive q : q <= 0 -> not_positive (fin q).
Proof.
  intro H. destruct (Qeq_dec q 0) as [E | E].
  - rewrite (fin_zero q E). cbn [not_negative not_positive above_zero]. apply Qle_refl.
  - rewrite (fin_nonzero q E).
    assert (N : is_neg q = true) by (apply is_neg_true; lra).
    rewrite N. destruct (Qle_bool _ _); cbn [not_negative not_positive above_zero]; [reflexivity|].
    rewrite Qred_correct.
    pose proof (round_magnitude_nonneg _ (Qabs_Qred_pos q E)). lra.
Qed.

(** A value of at least 2^-1074 does not round to zero. *)
Lemma fin_above_zero q : two_pow (-1074) <= q -> above_zero (fin q).
Proof.
  intro H. pose proof (two_pow_pos (-1074)) as P.
  assert (E : ~ q == 0) by lra.
  rewrite (fin_nonzero q E).
  assert (N : is_neg q = false) by (apply is_neg_false; lra).
  rewrite N. destruct (Qle_bool _ _); cbn [not_negative not_positive above_zero]; [reflexivity|].
  rewrite Qred_correct.
  assert (A : two_pow (-1074) <= Qabs (Qred q)).
  { rewrite Qred_correct, Qabs_pos by lra. exact H. }
  pose proof (round_magnitude_pos _ A). lra.
Qed.

(** A dyadic rational with a 53-bit numerator and a quantum of at least
    2^-1074, below 2^1024 in magnitude, is a binary64 value. *)
Lemma fin_dyadic q k g :
  q == inject_Z k * two_pow g -> (Z.abs k <= 2 ^ 53)%Z -> (-1074 <= g)%Z ->
  Qabs q < two_pow 1024 -> fin q = Fin (Qred q).
Proof.
  intros E Hk Hg Hq. pose proof (two_pow_pos g) as Pg.
  destruct (Qeq_dec q 0) as [Z | Z].
  - rewrite (fin_zero q Z). f_equal. symmetry.
    change 0 with (Qred 0). apply Qred_complete, Z.
  - assert (K : k <> 0%Z).
    { intro K. apply Z. rewrite E, K. ring. }
    assert (A : Qabs (Qred q) == inject_Z (Z.abs k) * two_pow g).
    { rewrite Qred_correct, E, Qabs_Qmult, (Qabs_pos (two_pow g)) by lra.
      apply Qmult_comp; [|reflexivity].
      unfold Qabs, inject_Z. reflexivity. }
    assert (R : round_magnitude (Qabs (Qred q)) == Qabs q).
    { rewrite (round_magnitude_dyadic _ _ _ A); [|lia|exact Hg].
      apply Qabs_wd, Qred_correct. }
    rewrite (fin_nonzero q Z).
    destruct (Qle_bool _ _) eqn:O.
    + apply Qle_bool_iff in O. rewrite R in O. lra.
    + f_equal. apply Qred_complete.
      destruct (is_neg q) eqn:N.
      * apply is_neg_true in N. rewrite R, Qabs_neg by lra. ring.
      * apply is_neg_false in N. rewrite R, Qabs_pos by lra. reflexivity.
Qed.

(** The shape of a finite result. *)
Lemma fin_shape q r : fin q = Fin r ->
  exists k g, r == inject_Z k * two_pow g /\ (Z.abs k <= 2 ^ 53)%Z
              /\ (-1074 <= g)%Z /\ Qabs r < two_pow 1024 /\ Qred r = r.
Proof.
  intro H. destruct (Qeq_dec q 0) as [Z | Z].
  - rewrite (fin_zero q Z) in H. injection H as <-.
    exists 0%Z, 0%Z. repeat split; try reflexivity; lia.
  - rewrite (fin_nonzero q Z) in H.
    destruct (round_magnitude_form _ (Qabs_Qred_pos q Z)) as (m & Em & Hm).
    pose proof (quantum_ge (Qabs (Qred q))) as Hg.
    set (g := quantum (Qabs (Qred q))) in *.
    assert (Mg : 0 <= inject_Z m * two_pow g).
    { apply Qmult_le_0_compat; [|apply Qlt_le_weak, two_pow_pos].
      change 0 with (inject_Z 0). rewrite <- Zle_Qle. lia. }
    destruct (Qle_bool _ _) eqn:O; [discriminate H|].
    assert (O' : inject_Z m * two_pow g < two_pow 1024).
    { rewrite <- Em. apply Qnot_le_lt. intro C.
      apply Qle_bool_iff in C. congruence. }
    injection H as <-. rewrite Em.
    destruct (is_neg q).
    + exists (- m)%Z, g. repeat split.
      * rewrite Qred_correct, inject_Z_opp. ring.
      * lia.
      * exact Hg.
      * rewrite Qred_correct, Qabs_opp, Qabs_pos; assumption.
      * apply Qred_complete, Qred_correct.
    + exists m, g. repeat split.
      * apply Qred_correct.
      * lia.
      * exact Hg.
      * rewrite Qred_correct, Qabs_pos; assumption.
      * apply Qred_complete, Qred_correct.
Qed.

(** Rounding is idempotent: every finite result is a binary64 value. *)
Lemma fin_binary64 q r : fin q = Fin r -> binary64 r.
Proof.
  intro H. destruct (fin_shape q r H) as (k & g & E & Hk & Hg & Hr & C).
  unfold binary64. rewrite (fin_dyadic r k g E Hk Hg Hr). f_equal. exact C.
Qed.

Lemma binary64_multiple q : binary64 q ->
  exists k, q == inject_Z k * two_pow (-1074).
Proof.
  intro H. destruct (fin_shape q q H) as (k & g & E & _ & Hg & _).
  exists (k * 2 ^ (g + 1074))%Z.
  rewrite E, (two_pow_split (-1074) g), inject_Z_mult.
  replace (g - -1074)%Z with (g + 1074)%Z by lia.
  rewrite (two_pow_Z (g + 1074)) by lia. ring.
Qed.

(** Two different binary64 values are at least 2^-1074 apart. *)
Lemma binary64_gap a b : binary64 a -> binary64 b -> a < b ->
  two_pow (-1074) <= b - a.
Proof.
  intros Ha Hb H.
  destruct (binary64_multiple a Ha) as [ka Ea].
  destruct (binary64_multiple b Hb) as [kb Eb].
  pose proof (two_pow_pos (-1074)) as P.
  assert (K : (ka < kb)%Z).
  { apply Z.lt_nge. intro C. rewrite Zle_Qle in C.
    assert (b <= a); [|lra]. rewrite Ea, Eb.
    apply Qmult_le_compat_r; [exact C | lra]. }
  assert (D : b - a == inject_Z (kb - ka) * two_pow (-1074)).
  { rewrite Ea, Eb. unfold Zminus. rewrite inject_Z_plus, inject_Z_opp. ring. }
  rewrite D.
  setoid_replace (two_pow (-1074)) with (1 * two_pow (-1074)) at 1 by ring.
  apply Qmult_le_compat_r; [|lra].
  change 1 with (inject_Z 1). rewrite <- Zle_Qle. lia.
Qed.

(** In the normal range a result is within 2^-53, relatively, of the exact
    value. *)
Lemma fin_error q :
  two_pow (-1022) <= q -> q <= two_pow 1023 ->
  exists r, fin q = Fin r /\ Qabs (r - q) <= q * two_pow (-53).
Proof.
  intros L U. pose proof (two_pow_pos (-1022)) as P.
  assert (E : ~ q == 0) by lra.
  assert (A : Qabs (Qred q) == q).
  { rewrite Qred_correct. apply Qabs_pos. lra. }
  assert (La : two_pow (-1022) <= Qabs (Qred q)) by (rewrite A; exact L).
  pose proof (round_magnitude_error _ La) as Err.
  set (m := round_magnitude (Qabs (Qred q))) in *.
  rewrite A in Err.
  assert (B : m <= q + q * two_pow (-53)).
  { apply Qabs_Qle_condition in Err. lra. }
  assert (O : m < two_pow 1024).
  { eapply Qle_lt_trans; [exact B|].
    apply Qle_lt_trans with (two_pow 1023 + two_pow 1023 * two_pow (-53)).
    - pose proof (two_pow_pos (-53)). nra.
    - vm_compute. reflexivity. }
  rewrite (fin_nonzero q E). fold m.
  destruct (Qle_bool (two_pow 1024) m) eqn:Ob.
  { apply Qle_bool_iff in Ob. lra. }
  assert (N : is_neg q = false) by (apply is_neg_false; lra).
  rewrite N. exists (Qred m). split; [reflexivity|].
  rewrite Qred_correct. exact Err.
Qed.

Lemma Qred_inject_Z (z : Z) : Qred (inject_Z z) = inject_Z z.
Proof.
  apply Qcanon.Qred_identity. simpl. apply Z.gcd_1_r.
Qed.

End RoundingFacts.

(* ================================================================== *)
(** ** Comparisons and the sign of a difference *)
(* ================================================================== *)

Section CompareFacts.

Lemma ge_fin (a b : Q) : ge (Fin a) (Fin b) = true <-> (b <= a)%Q.
Proof.
  unfold ge, compare. destruct (Qcompare_spec a b) as [H|H|H].
  - split; [intros _; lra | reflexivity].
  - split; [discriminate | intros H'; lra].
  - split; [intros _; lra | reflexivity].
Qed.

Lemma lt_fin (a b : Q) : lt (Fin a) (Fin b) = true <-> (a < b)%Q.
Proof.
  unfold lt, compare. destruct (Qcompare_spec a b) as [H|H|H].
  - split; [discriminate | intros H'; lra].
  - split; [intros _; assumption | reflexivity].
  - split; [discriminate | intros H'; lra].
Qed.

Lemma gt_fin (a b : Q) : gt (Fin a) (Fin b) = true <-> (b < a)%Q.
Proof.
  unfold gt, compare. destruct (Qcompare_spec a b) as [H|H|H].
  - split; [discriminate | intros H'; lra].
  - split; [discriminate | intros H'; lra].
  - split; [intros _; assumption | reflexivity].
Qed.

Lemma le_fin (a b : Q) : le (Fin a) (Fin b) = true <-> (a <= b)%Q.
Proof.
  unfold le, compare. destruct (Qcompare_spec a b) as [H|H|H].
  - split; [intros _; lra | reflexivity].
  - split; [intros _; lra | reflexivity].
  - split; [discriminate | intros H'; lra].
Qed.

(** On finite numbers, [>=] and [<] exclude each other. *)
Lemma ge_negb_lt (a b : Q) : ge (Fin a) (Fin b) = negb (lt (Fin a) (Fin b)).
Proof.
  unfold ge, lt, compare. now destruct (a ?= b)%Q.
Qed.

(** So they do on all numbers but NaN. *)
Lemma ge_not_lt (a b : number) :
  isNaN a = false -> isNaN b = false -> ge a b = negb (lt a b).
Proof.
  destruct a as [|x|[]], b as [|y|[]]; try discriminate; intros _ _;
    try reflexivity.
  apply ge_negb_lt.
Qed.

Lemma gt_zero_above (n : number) : gt n zero = true <-> above_zero n.
Proof.
  destruct n as [|q|[]]; cbn [above_zero].
  - split; [discriminate | contradiction].
  - apply gt_fin.
  - split; discriminate.
  - split; reflexivity.
Qed.

Lemma not_positive_gt_zero (n : number) :
  not_positive n -> gt n zero = false.
Proof.
  intros H. destruct (gt n zero) eqn:E; [|reflexivity].
  apply gt_zero_above in E.
  destruct n as [|q|[]]; cbn [above_zero not_positive] in *;
    try contradiction; try discriminate. lra.
Qed.

Lemma not_negative_ge_zero (n : number) :
  not_negative n -> ge n zero = true.
Proof.
  destruct n as [|q|[]]; cbn [not_negative]; intros H;
    try contradiction; try discriminate; [|reflexivity].
  now apply ge_fin.
Qed.

(** The sign of a difference of two binary64 values is that of the exact
    difference: a difference of at least 2^-1074 does not round to zero. *)
Lemma gt_sub_fin (a b : Q) :
  binary64 a -> binary64 b ->
  gt (sub (Fin b) (Fin a)) zero = true <-> (a < b)%Q.
Proof.
  intros Ha Hb. change (sub (Fin b) (Fin a)) with (fin (b + - a)).
  split; intros H.
  - apply Qnot_le_lt. intros C.
    rewrite not_positive_gt_zero in H; [discriminate|].
    apply fin_not_positive. lra.
  - apply gt_zero_above, fin_above_zero.
    pose proof (binary64_gap a b Ha Hb H). lra.
Qed.

(** The comparator [(x, y) => y - x] is positive exactly when [x < y]. *)
Lemma gt_sub_lt (a b : number) :
  representable a -> representable b ->
  isNaN a = false -> isNaN b = false ->
  gt (sub b a) zero = lt a b.
Proof.
  destruct a as [|x|[]], b as [|y|[]]; try discriminate;
    intros Ha Hb _ _; try reflexivity.
  cbn [representable] in Ha, Hb.
  destruct (lt (Fin x) (Fin y)) eqn:E.
  - apply gt_sub_fin; [assumption..|]. now apply lt_fin.
  - destruct (gt (sub (Fin y) (Fin x)) zero) eqn:G; [|reflexivity].
    apply gt_sub_fin in G; [|assumption..].
    apply lt_fin in G. congruence.
Qed.

Lemma le_sub_not_gt (x y : number) :
  le x y = true -> gt (sub x y) zero = false.
Proof.
  destruct x as [|x|[]], y as [|y|[]]; try discriminate; try reflexivity.
  intros H. apply le_fin in H.
  change (sub (Fin x) (Fin y)) with (fin (x + - y)).
  apply not_positive_gt_zero, fin_not_positive. lra.
Qed.

Lemma ge_trans (a b c : number) :
  ge a b = true -> ge b c = true -> ge a c = true.
Proof.
  destruct a as [|x|[]], b as [|y|[]], c as [|z|[]];
    try discriminate; try reflexivity.
  rewrite !ge_fin. intros H1 H2. lra.
Qed.

Lemma le_trans (a b c : number) :
  le a b = true -> le b c = true -> le a c = true.
Proof.
  destruct a as [|x|[]], b as [|y|[]], c as [|z|[]];
    try discriminate; try reflexivity.
  rewrite !le_fin. intros H1 H2. lra.
Qed.

End CompareFacts.

(* ================================================================== *)
(** ** Facts about the string primitives *)
(* ================================================================== *)

Section StringFacts.

Lemma drop_while_In (p : ascii -> bool) (s : list ascii) (c : ascii) :
  In c (drop_while p s) -> In c s.
Proof.
  induction s as [|d r IH]; simpl; [tauto|].
  destruct (p d); simpl; tauto.
Qed.

Lemma trim_In (s : list ascii) (c : ascii) : In c (trim s) -> In c s.
Proof.
  unfold trim, trimEnd, trimStart. intros H.
  apply in_rev, drop_while_In, in_rev in H.
  now apply drop_while_In in H.
Qed.

Lemma remove_char_In (x : ascii) (s : list ascii) (c : ascii) :
  In c (remove_char x s) -> In c s.
Proof. unfold remove_char. intros H. now apply filter_In in H. Qed.

Lemma strip_parens_from_In (s : list ascii) :
  forall inside c, In c (strip_parens_from inside s) -> In c s.
Proof.
  induction s as [|d r IH]; intros inside c; simpl; [tauto|].
  destruct inside.
  - destruct (Ascii.eqb d ")"); intros H; right; eapply IH; eassumption.
  - destruct (Ascii.eqb d "(" && closes r); simpl.
    + intros H; right; eapply IH; eassumption.
    + intros [H|H]; [now left | right; eapply IH; eassumption].
Qed.

Lemma cleaned_In (r : list ascii) (c : ascii) : In c (cleaned r) -> In c r.
Proof.
  unfold cleaned, strip_parens. intros H.
  apply trim_In, remove_char_In, strip_parens_from_In, trim_In in H.
  exact H.
Qed.

Lemma drop_while_all (p : ascii -> bool) (s : list ascii) :
  (forall c, In c s -> p c = true) -> drop_while p s = [].
Proof.
  induction s as [|d r IH]; simpl; intros H; [reflexivity|].
  rewrite (H d) by now left. apply IH. intros c Hc. apply H. now right.
Qed.

(** White-space-only text is empty after trimming. *)
Lemma trim_blank (s : list ascii) :
  (forall c, In c s -> is_space c = true) -> trim s = [].
Proof.
  intros H. unfold trim, trimEnd, trimStart.
  rewrite (drop_while_all _ s H). reflexivity.
Qed.

Lemma trim_nil : trim [] = [].
Proof. reflexivity. Qed.

Lemma cleaned_of_blank (r : list ascii) : trim r = [] -> cleaned r = [].
Proof. unfold cleaned. intros ->. reflexivity. Qed.

End StringFacts.


(* ================================================================== *)
(** ** Facts about the scanner and the literals *)
(* ================================================================== *)

Section ParserFacts.

Lemma scan_no_digit (s : list ascii) :
  (forall c, In c s -> is_digit c = false) -> scan_numbers Idle s = [].
Proof.
  induction s as [|d r IH]; simpl; intros H; [reflexivity|].
  rewrite (H d) by now left. apply IH. intros c Hc. apply H. now right.
Qed.

Lemma all_digits_app (a b : list ascii) :
  all_digits a -> all_digits b -> all_digits (a ++ b).
Proof.
  intros Ha Hb c Hc. apply in_app_or in Hc as [Hc|Hc]; auto.
Qed.

Lemma all_digits_one (c : ascii) : is_digit c = true -> all_digits [c].
Proof. intros H d [<-|[]]. exact H. Qed.

Lemma scan_tokens (s : list ascii) :
  forall st, scan_ok st s -> Forall number_token (scan_numbers st s).
Proof.
  induction s as [|c r IH]; intros st Hst.
  - destruct st as [|tok|tok]; simpl in *.
    + constructor.
    + destruct Hst as [Hne Hd].
      constructor; [now apply token_int | constructor].
    + destruct Hst as (ds & fs & -> & Hne & Hds & Hfs & Hh).
      constructor; [|constructor].
      apply token_frac; try assumption.
      intros ->. specialize (Hh eq_refl). discriminate.
  - destruct st as [|tok|tok]; simpl in *.
    + destruct (is_digit c) eqn:Hc; apply IH; simpl; [|exact I].
      split; [discriminate | now apply all_digits_one].
    + destruct Hst as [Hne Hd].
      destruct (is_digit c) eqn:Hc.
      * apply IH. simpl. split.
        -- intros E. now apply app_eq_nil in E as [_ E].
        -- apply all_digits_app; [assumption | now apply all_digits_one].
      * destruct (Ascii.eqb c "." && head_is_digit r) eqn:Hdot.
        -- apply andb_true_iff in Hdot as [Hp Hh].
           apply Ascii.eqb_eq in Hp. subst c.
           apply IH. simpl. exists tok, [].
           repeat split; try assumption; [intros c [] | intros _; exact Hh].
        -- constructor; [now apply token_int | apply IH; exact I].
    + destruct Hst as (ds & fs & -> & Hne & Hds & Hfs & Hh).
      destruct (is_digit c) eqn:Hc.
      * apply IH. simpl. exists ds, (fs ++ [c]).
        repeat split; try assumption.
        -- now rewrite <- app_assoc.
        -- apply all_digits_app; [assumption | now apply all_digits_one].
        -- intros E. now apply app_eq_nil in E as [_ E].
      * constructor; [|apply IH; exact I].
        apply token_frac; try assumption.
        intros ->. specialize (Hh eq_refl). simpl in Hh. congruence.
Qed.

Lemma match_numbers_tokens (s : list ascii) :
  Forall number_token (match_numbers s).
Proof. apply scan_tokens. exact I. Qed.

(** A digit is no white space, sign, point or letter. *)
Lemma digit_plain (c : ascii) :
  is_digit c = true ->
  is_space c = false /\ Ascii.eqb c "-" = false /\ Ascii.eqb c "+" = false
  /\ Ascii.eqb c "." = false /\ Ascii.eqb "I" c = false
  /\ Ascii.eqb (lower_char c) "e" = false.
Proof.
  destruct c as [[] [] [] [] [] [] [] []]; vm_compute; intros H;
    first [discriminate H | repeat split].
Qed.

Lemma span_digits (ds r : list ascii) :
  all_digits ds -> head_is_digit r = false ->
  span is_digit (ds ++ r) = (ds, r).
Proof.
  induction ds as [|d ds IH]; simpl; intros Hd Hr.
  - destruct r as [|c r]; [reflexivity|]. simpl in Hr. simpl. now rewrite Hr.
  - rewrite (Hd d) by now left.
    rewrite IH; [reflexivity | | assumption].
    intros c Hc. apply Hd. now right.
Qed.

Lemma digits_value_nonneg (ds : list ascii) : (0 <= digits_value ds)%Z.
Proof.
  unfold digits_value.
  assert (H : forall acc, (0 <= acc)%Z ->
            (0 <= fold_left (fun a c => 10 * a + digit_value c) ds acc)%Z).
  { induction ds as [|d ds IH]; cbn [fold_left]; intros acc Hacc;
      [assumption|].
    apply IH. unfold digit_value.
    pose proof (Nat2Z.is_nonneg (code d - 48)). lia. }
  apply H. lia.
Qed.

Lemma mantissa_nonneg (ds fs : list ascii) : (0 <= mantissa ds fs)%Q.
Proof.
  unfold mantissa.
  apply Qle_shift_div_l.
  - change 0%Q with (inject_Z 0). rewrite <- Zlt_Qlt.
    apply Z.pow_pos_nonneg; lia.
  - rewrite Qmult_0_l. change 0%Q with (inject_Z 0). rewrite <- Zle_Qle.
    apply digits_value_nonneg.
Qed.

Lemma parseFloat_digits_first (d : ascii) (t : list ascii) :
  is_digit d = true ->
  parseFloat (d :: t) =
  match decimal_prefix (d :: t) with
  | None => NaN
  | Some (q, _) => fin q
  end.
Proof.
  intros Hd. destruct (digit_plain d Hd) as (Hs & Hm & Hp & _ & Hi & _).
  unfold parseFloat, trimStart. simpl drop_while. rewrite Hs.
  unfold sign. rewrite Hm, Hp.
  change (starts_with (js "Infinity") (d :: t))
    with (Ascii.eqb "I" d && starts_with (js "nfinity") t).
  rewrite Hi. reflexivity.
Qed.

Lemma decimal_prefix_int (ds : list ascii) :
  ds <> [] -> all_digits ds ->
  decimal_prefix ds = Some ((mantissa ds [] * 1)%Q, []).
Proof.
  intros Hne Hd. unfold decimal_prefix.
  rewrite <- (app_nil_r ds) at 1. rewrite span_digits by auto.
  destruct ds; [congruence|]. reflexivity.
Qed.

Lemma decimal_prefix_frac (ds fs : list ascii) :
  ds <> [] -> all_digits ds -> all_digits fs ->
  decimal_prefix (ds ++ "." :: fs) = Some ((mantissa ds fs * 1)%Q, []).
Proof.
  intros Hne Hd Hf. unfold decimal_prefix.
  rewrite span_digits by auto.
  rewrite Ascii.eqb_refl.
  rewrite <- (app_nil_r fs) at 1. rewrite span_digits by auto.
  destruct ds; [congruence|]. reflexivity.
Qed.

Lemma fin_representable (q : Q) : representable (fin q).
Proof.
  destruct (fin q) as [|r|s] eqn:E; cbn [representable]; auto.
  exact (fin_binary64 q r E).
Qed.

Lemma fin_quantity (q : Q) : (0 <= q)%Q -> quantity (fin q).
Proof.
  intros H. split; [apply fin_not_negative, H | apply fin_representable].
Qed.

(** Every candidate is zero, a positive binary64 value or +Infinity. *)
Lemma parseFloat_token (t : list ascii) :
  number_token t -> quantity (parseFloat t).
Proof.
  intros [ds Hne Hd | ds fs Hne Hfe Hd Hf].
  - destruct ds as [|d ds']; [congruence|].
    rewrite parseFloat_digits_first by (apply Hd; now left).
    rewrite decimal_prefix_int by assumption.
    apply fin_quantity. rewrite Qmult_1_r. apply mantissa_nonneg.
  - destruct ds as [|d ds']; [congruence|].
    change ((d :: ds') ++ "." :: fs) with (d :: (ds' ++ "." :: fs)).
    rewrite parseFloat_digits_first by (apply Hd; now left).
    change (d :: (ds' ++ "." :: fs)) with ((d :: ds') ++ "." :: fs).
    rewrite decimal_prefix_frac by assumption.
    apply fin_quantity. rewrite Qmult_1_r. apply mantissa_nonneg.
Qed.

Lemma candidates_quantity (r : list ascii) : Forall quantity (candidates r).
Proof.
  unfold candidates. apply Forall_map.
  eapply Forall_impl; [|apply match_numbers_tokens].
  intros t. apply parseFloat_token.
Qed.

End ParserFacts.


(* ================================================================== *)
(** ** The numeric field parser *)
(* ================================================================== *)

Section ParseSpeakers.

Lemma parseSpeakers_unfold (r : list ascii) :
  parseSpeakers (Some r) =
  if is_empty (trim r) then None
  else
    match candidates r with
    | [] => None
    | (first :: _) as parsed =>
        if includes "-" (cleaned r) && (2 <=? length parsed)
        then Some (mean first (last parsed first))
        else Some first
    end.
Proof.
  unfold parseSpeakers, candidates, cleaned, mean.
  destruct (is_empty (trim r)); [reflexivity|].
  destruct (map parseFloat _) as [|first rest]; [reflexivity|].
  destruct (includes "-" _ && _); [reflexivity|].
  destruct (includes "<" _ && _); reflexivity.
Qed.

Lemma candidates_of_blank (r : list ascii) :
  is_empty (trim r) = true -> candidates r = [].
Proof.
  intros H. unfold candidates.
  rewrite cleaned_of_blank; [reflexivity|].
  destruct (trim r); [reflexivity | discriminate].
Qed.

Lemma last_default {A : Type} (l : list A) (d e : A) :
  l <> [] -> last l d = last l e.
Proof.
  induction l as [|x [|y l] IH]; intros H; [congruence | reflexivity |].
  change (last (y :: l) d = last (y :: l) e). apply IH. discriminate.
Qed.

Lemma last_Forall {A : Type} (P : A -> Prop) (l : list A) (d : A) :
  Forall P l -> P d -> P (last l d).
Proof.
  induction 1 as [|x l Hx Hl IH]; intros Hd; [assumption|].
  destruct l; [assumption|]. apply IH, Hd.
Qed.

Lemma add_quantity (a b : number) :
  quantity a -> quantity b -> quantity (add a b).
Proof.
  intros [Ha _] [Hb _].
  destruct a as [|x|[]], b as [|y|[]]; cbn [not_negative] in Ha, Hb;
    try contradiction; try discriminate; cbn [add Bool.eqb];
    try (split; [reflexivity | exact I]).
  apply fin_quantity.
  change 0%Q with (0 + 0)%Q. now apply Qplus_le_compat.
Qed.

Lemma half_quantity (a : number) : quantity a -> quantity (div a two).
Proof.
  intros [Ha _].
  destruct a as [|x|[]]; cbn [not_negative] in Ha;
    try contradiction; try discriminate.
  - unfold div, two. change (is_zero 2) with false. cbv iota.
    apply fin_quantity. apply Qle_shift_div_l; [reflexivity|].
    now rewrite Qmult_0_l.
  - split; [reflexivity | exact I].
Qed.

Lemma mean_quantity (m n : number) :
  quantity m -> quantity n -> quantity (mean m n).
Proof.
  intros Hm Hn. unfold mean. now apply half_quantity, add_quantity.
Qed.

(** The sum and the half of small integers are exact. *)
Lemma fin_integer (z : Z) :
  (Z.abs z <= 2 ^ 53)%Z -> fin (inject_Z z) = Fin (inject_Z z).
Proof.
  intros H.
  rewrite (fin_dyadic (inject_Z z) z 0); [f_equal; apply Qred_inject_Z| | | |].
  - change (two_pow 0) with 1%Q. now rewrite Qmult_1_r.
  - exact H.
  - lia.
  - apply Qle_lt_trans with (inject_Z (2 ^ 53)).
    + change (Qabs (inject_Z z)) with (inject_Z (Z.abs z)).
      now rewrite <- Zle_Qle.
    + vm_compute. reflexivity.
Qed.

Lemma mean_integers (a b : Z) :
  (0 <= a)%Z -> (0 <= b)%Z -> (a + b <= 2 ^ 53)%Z ->
  mean (of_Z a) (of_Z b) = Fin (Qred (inject_Z (a + b) / 2)).
Proof.
  intros Ha Hb Hs. unfold mean, of_Z. cbn [add].
  rewrite <- inject_Z_plus, fin_integer by lia.
  unfold div, two. change (is_zero 2) with false. cbv iota.
  apply (fin_dyadic _ (a + b) (-1)).
  - change (two_pow (-1)) with (/ 2)%Q. reflexivity.
  - lia.
  - lia.
  - apply Qle_lt_trans with (inject_Z (2 ^ 53)).
    + assert (E : (Qabs (inject_Z (a + b) / 2) == inject_Z (a + b) / 2)%Q).
      { apply Qabs_pos. apply Qle_shift_div_l; [reflexivity|].
        rewrite Qmult_0_l. change 0%Q with (inject_Z 0).
        rewrite <- Zle_Qle. lia. }
      rewrite E. apply Qle_shift_div_r; [reflexivity|].
      apply Qle_trans with (inject_Z (2 ^ 53)).
      * rewrite <- Zle_Qle. exact Hs.
      * vm_compute. discriminate.
    + vm_compute. reflexivity.
Qed.

(** C4, as the code has it.  When the cleaned field contains a hyphen and
    yields at least two candidates, [parseSpeakers] returns the mean of the
    first and the last candidate as the code computes it,
    [(first + last) / 2] in binary64 arithmetic; for whole candidates
    whose sum does not exceed 2^53 that is the exact arithmetic mean.  In
    particular "1000-2000" gives 1500, "<500" gives 500 and "1,234" gives
    1234. *)
Theorem parseSpeakers_range_mean :
  (forall r : list ascii,
     includes "-" (cleaned r) = true ->
     2 <= length (candidates r) ->
     exists first final : number,
       hd_error (candidates r) = Some first
       /\ last (candidates r) NaN = final
       /\ parseSpeakers (Some r) = Some (div (add first final) two))
  /\ (forall a b : Z,
        (0 <= a)%Z -> (0 <= b)%Z -> (a + b <= 2 ^ 53)%Z ->
        div (add (of_Z a) (of_Z b)) two
        = Fin (Qred (inject_Z (a + b) / 2)))
  /\ parseSpeakers (Some (js "1000-2000")) = Some (Fin 1500)
  /\ parseSpeakers (Some (js "<500")) = Some (Fin 500)
  /\ parseSpeakers (Some (js "1,234")) = Some (Fin 1234).
Proof.
  split; [|split; [exact mean_integers | repeat split; vm_compute; reflexivity]].
  intros r Hhy Hlen.
  rewrite parseSpeakers_unfold.
  destruct (is_empty (trim r)) eqn:He.
  { rewrite candidates_of_blank in Hlen by assumption. simpl in Hlen. lia. }
  destruct (candidates r) as [|first rest] eqn:Hc; [simpl in Hlen; lia|].
  exists first, (last (first :: rest) NaN). repeat split.
  cbv zeta. rewrite Hhy. apply Nat.leb_le in Hlen. rewrite Hlen.
  simpl andb. cbv iota.
  rewrite (last_default _ first NaN) by discriminate. reflexivity.
Qed.

Lemma parseSpeakers_range_mean_witness :
  (exists first final : number,
     hd_error (candidates (js "1000-2000")) = Some first
     /\ last (candidates (js "1000-2000")) NaN = final
     /\ parseSpeakers (Some (js "1000-2000"))
        = Some (div (add first final) two))
  /\ div (add (of_Z 1000) (of_Z 2001)) two = Fin (Qred (inject_Z 3001 / 2)).
Proof.
  split.
  - apply (proj1 parseSpeakers_range_mean (js "1000-2000")).
    + vm_compute. reflexivity.
    + vm_compute. apply le_n.
  - apply (proj1 (proj2 parseSpeakers_range_mean) 1000%Z 2001%Z);
      vm_compute; discriminate.
Defined.

(** C4 as the claim words it fails where the sum of the candidates
    overflows: the two candidates of the range from 10^308 to 10^308,
    written out in digits, are finite, yet the result is +Infinity, which
    is not their mean within any rounding error. *)
Lemma parseSpeakers_range_not_mean :
  ~ (forall r : list ascii,
       includes "-" (cleaned r) = true ->
       2 <= length (candidates r) ->
       exists a b m : Q,
         hd_error (candidates r) = Some (Fin a)
         /\ last (candidates r) NaN = Fin b
         /\ parseSpeakers (Some r) = Some (Fin m)
         /\ (Qabs (m - (a + b) / 2) <= (a + b) / 2 * two_pow (-52))%Q).
Proof.
  intros H.
  destruct (H (("1" :: repeat "0" 308) ++ "-" :: "1" :: repeat "0" 308))
    as (a & b & m & _ & _ & Hm & _).
  - vm_compute. reflexivity.
  - vm_compute. apply le_n.
  - vm_compute in Hm. discriminate Hm.
Qed.

(** The range from 10^308 to 10^308: finite candidates and the mean
    +Infinity.  And the mean of "0.1-0.2" is the binary64 value
    0.15000000000000002, one rounding away from the exact mean of the two
    candidates. *)
Lemma parseSpeakers_range_rounding :
  (let big := "1" :: repeat "0" 308 in
   hd_error (candidates (big ++ "-" :: big))
   = Some (fin (inject_Z (10 ^ 308)))
   /\ isFinite (fin (inject_Z (10 ^ 308))) = true
   /\ parseSpeakers (Some (big ++ "-" :: big)) = Some (Inf false))
  /\ parseSpeakers (Some (js "0.1-0.2"))
     = Some (Fin (1351079888211149 # 9007199254740992)).
Proof. cbv zeta. repeat split; vm_compute; reflexivity. Qed.

(** C5.  [parseSpeakers] is a total function that signals absence with
    [null]: a missing field, a field that is empty once trimmed and a field
    without any digit (such as "N/A") all give [null]. *)
Theorem parseSpeakers_absent :
  parseSpeakers None = None
  /\ (forall r : list ascii, trim r = [] -> parseSpeakers (Some r) = None)
  /\ (forall r : list ascii,
        (forall c, In c r -> is_digit c = false) ->
        parseSpeakers (Some r) = None)
  /\ parseSpeakers (Some (js "N/A")) = None.
Proof.
  split; [reflexivity|]. split; [|split; [|vm_compute; reflexivity]].
  - intros r Hr. rewrite parseSpeakers_unfold, Hr. reflexivity.
  - intros r Hr. rewrite parseSpeakers_unfold.
    destruct (is_empty (trim r)); [reflexivity|].
    unfold candidates, match_numbers. rewrite scan_no_digit; [reflexivity|].
    intros c Hc. apply Hr. now apply cleaned_In.
Qed.

Lemma parseSpeakers_absent_witness :
  parseSpeakers (Some (js "   ")) = None
  /\ parseSpeakers (Some (js "n/a (suppressed)")) = None.
Proof.
  split.
  - apply (proj1 (proj2 parseSpeakers_absent) (js "   ")).
    vm_compute. reflexivity.
  - apply (proj1 (proj2 (proj2 parseSpeakers_absent)) (js "n/a (suppressed)")).
    intros c Hc. vm_compute in Hc.
    repeat (destruct Hc as [<-|Hc]; [reflexivity|]). destruct Hc.
Defined.

(** Whatever [parseSpeakers] returns is zero, a positive binary64 value or
    +Infinity. *)
Lemma parseSpeakers_result_quantity (raw : option (list ascii)) (n : number) :
  parseSpeakers raw = Some n -> quantity n.
Proof.
  destruct raw as [r|]; [|discriminate].
  rewrite parseSpeakers_unfold.
  destruct (is_empty (trim r)); [discriminate|].
  pose proof (candidates_quantity r) as Hnn.
  destruct (candidates r) as [|first rest]; [discriminate|].
  assert (Hf : quantity first) by now inversion Hnn.
  cbv zeta.
  destruct (includes "-" (cleaned r) && _); intros [= <-]; [|assumption].
  apply mean_quantity; [assumption|].
  change (quantity (last (first :: rest) first)).
  apply last_Forall; assumption.
Qed.

(** C10.  [parseSpeakers] returns [null] or a number that is not negative
    (zero, a positive value or +Infinity, never NaN): the candidates are
    unsigned digit runs, so a minus sign is ignored and "-500" parses to
    500. *)
Theorem parseSpeakers_nonneg :
  (forall (raw : option (list ascii)) (n : number),
     parseSpeakers raw = Some n -> not_negative n)
  /\ parseSpeakers (Some (js "-500")) = Some (Fin 500).
Proof.
  split; [|vm_compute; reflexivity].
  intros raw n H. apply (parseSpeakers_result_quantity raw n H).
Qed.

Lemma parseSpeakers_nonneg_witness : not_negative (Fin 500).
Proof.
  apply (proj1 parseSpeakers_nonneg (Some (js "-500")) (Fin 500)).
  vm_compute. reflexivity.
Defined.

(** A field of 400 digits parses to +Infinity. *)
Lemma parseSpeakers_overflow :
  parseSpeakers (Some (repeat "9" 400)) = Some (Inf false).
Proof. vm_compute. reflexivity. Qed.

End ParseSpeakers.


(* ================================================================== *)
(** ** The state-name canonicaliser *)
(* ================================================================== *)

Section Canonical.

(** C1.  [canonicalStateName] is a total function that maps a missing,
    empty or white-space-only reference to "Unknown"; it does not always
    return a non-empty name: a reference made of a period only is neither
    empty nor blank, and the result for it is the empty string. *)
Theorem canonicalStateName_unknown_or_empty :
  canonicalStateName None = Unknown
  /\ canonicalStateName (Some []) = Unknown
  /\ (forall r : list ascii,
        (forall c, In c r -> is_space c = true) ->
        canonicalStateName (Some r) = Unknown)
  /\ canonicalStateName (Some (js ".")) = [].
Proof.
  repeat split; try reflexivity.
  intros r Hr. unfold canonicalStateName.
  rewrite (trim_blank r Hr). reflexivity.
Qed.

Lemma canonicalStateName_unknown_or_empty_witness :
  canonicalStateName (Some (js "   ")) = Unknown.
Proof.
  apply (proj1 (proj2 (proj2 canonicalStateName_unknown_or_empty)) (js "   ")).
  intros c Hc. vm_compute in Hc.
  repeat (destruct Hc as [<-|Hc]; [reflexivity|]). destruct Hc.
Defined.

(** Other references that lose all their text in the cleaning steps. *)
Lemma canonicalStateName_empty_results :
  map (fun s => canonicalStateName (Some (js s)))
      ["(note)"; "State"; ". ."]%string = [[]; []; []].
Proof. vm_compute. reflexivity. Qed.

(** The worked examples of the canonicaliser. *)
Lemma canonicalStateName_examples :
  map (fun s => canonicalStateName (Some (js s)))
      ["ca"; "CA"; "California (state)"; "N.Y."; "washington state";
       "Atlantis"]%string
  = map js ["California"; "California"; "California"; "New York";
            "Washington"; "Atlantis"]%string.
Proof. vm_compute. reflexivity. Qed.

End Canonical.


(* ================================================================== *)
(** ** Box-plot statistics *)
(* ================================================================== *)

Section QuartileFacts.

(** Sorting an array that is already in ascending order changes nothing. *)
Lemma sort_ascending (l : list number) :
  ascending l -> sort (fun a b => sub a b) l = l.
Proof.
  induction 1 as [|x l Hl IH Hhd]; [reflexivity|].
  simpl. rewrite IH.
  destruct Hhd as [|y l' Hxy]; [reflexivity|].
  simpl. now rewrite le_sub_not_gt.
Qed.

Lemma floor_times_ratio (len : nat) (a : Z) (b : positive) :
  floor_times len (a # b) = Z.to_nat (Z.of_nat len * a / Z.pos b).
Proof.
  unfold floor_times, Qfloor, Qmult, inject_Z. simpl Qnum. simpl Qden.
  reflexivity.
Qed.

Lemma floor_times_lt (len : nat) (a : Z) (b : positive) :
  0 < len -> (0 <= a < Z.pos b)%Z -> floor_times len (a # b) < len.
Proof.
  intros Hlen Hab. rewrite floor_times_ratio.
  apply Nat2Z.inj_lt. rewrite Z2Nat.id.
  - apply Z.div_lt_upper_bound; [lia | nia].
  - apply Z.div_pos; [nia | lia].
Qed.

(** The three ranks are the integer quotients [n/4], [n/2] and [3n/4]. *)
Lemma floor_times_quarters (len : nat) :
  floor_times len (25 # 100) = len / 4
  /\ floor_times len (5 # 10) = len / 2
  /\ floor_times len (75 # 100) = 3 * len / 4.
Proof.
  rewrite !floor_times_ratio. repeat split.
  - apply Nat2Z.inj. rewrite Z2Nat.id by (apply Z.div_pos; lia).
    rewrite Nat2Z.inj_div. change (Z.of_nat 4) with 4%Z.
    rewrite <- (Z.div_mul_cancel_r (Z.of_nat len) 4 25) by lia.
    reflexivity.
  - apply Nat2Z.inj. rewrite Z2Nat.id by (apply Z.div_pos; lia).
    rewrite Nat2Z.inj_div. change (Z.of_nat 2) with 2%Z.
    rewrite <- (Z.div_mul_cancel_r (Z.of_nat len) 2 5) by lia.
    reflexivity.
  - apply Nat2Z.inj. rewrite Z2Nat.id by (apply Z.div_pos; lia).
    rewrite Nat2Z.inj_div, Nat2Z.inj_mul.
    change (Z.of_nat 4) with 4%Z. change (Z.of_nat 3) with 3%Z.
    rewrite <- (Z.div_mul_cancel_r (3 * Z.of_nat len) 4 25) by lia.
    f_equal. lia.
Qed.

(** C6.  On a non-empty array in ascending order [calculateQuartiles]
    returns as q1, median and q3 the elements at the indices
    [floor(n * 0.25)], [floor(n * 0.5)] and [floor(n * 0.75)], which all
    lie inside the array, as min the first element, as max the last, and
    as iqr the difference q3 - q1; on 1..8 it returns min 1, q1 3,
    median 5, q3 7 and max 8. *)
Theorem calculateQuartiles_nearest_rank :
  (forall l : list number,
     l <> [] -> ascending l ->
     let n := length l in
     let q := calculateQuartiles l in
     exists vmin v1 v2 v3 vmax : number,
       nth_error l 0 = Some vmin
       /\ nth_error l (floor_times n (25 # 100)) = Some v1
       /\ nth_error l (floor_times n (5 # 10)) = Some v2
       /\ nth_error l (floor_times n (75 # 100)) = Some v3
       /\ nth_error l (n - 1) = Some vmax
       /\ q = {| q_min := Some vmin; q_q1 := Some v1; q_median := Some v2;
                 q_q3 := Some v3; q_max := Some vmax;
                 q_iqr := sub v3 v1 |})
  /\ calculateQuartiles one_to_eight
     = {| q_min := Some (Fin 1); q_q1 := Some (Fin 3);
          q_median := Some (Fin 5); q_q3 := Some (Fin 7);
          q_max := Some (Fin 8); q_iqr := Fin 4 |}.
Proof.
  split; [|vm_compute; reflexivity].
  intros l Hne Hasc n q. subst q. unfold calculateQuartiles.
  rewrite (sort_ascending l Hasc). fold n.
  assert (Hn : 0 < n) by (subst n; destruct l; [congruence | simpl; lia]).
  assert (Hget : forall i, i < n -> exists v, nth_error l i = Some v).
  { intros i Hi. destruct (nth_error l i) eqn:E; [eauto|].
    apply nth_error_None in E. subst n. lia. }
  destruct (Hget 0 Hn) as [vmin Hmin].
  destruct (Hget (floor_times n (25 # 100))) as [v1 H1];
    [apply floor_times_lt; [assumption | lia]|].
  destruct (Hget (floor_times n (5 # 10))) as [v2 H2];
    [apply floor_times_lt; [assumption | lia]|].
  destruct (Hget (floor_times n (75 # 100))) as [v3 H3];
    [apply floor_times_lt; [assumption | lia]|].
  destruct (Hget (n - 1)) as [vmax Hmax]; [lia|].
  exists vmin, v1, v2, v3, vmax.
  rewrite Hmin, H1, H2, H3, Hmax.
  destruct (n =? 0) eqn:E; [apply Nat.eqb_eq in E; lia|].
  repeat split; reflexivity.
Qed.

Lemma calculateQuartiles_nearest_rank_witness :
  exists vmin v1 v2 v3 vmax : number,
    nth_error one_to_eight 0 = Some vmin
    /\ nth_error one_to_eight (floor_times 8 (25 # 100)) = Some v1
    /\ nth_error one_to_eight (floor_times 8 (5 # 10)) = Some v2
    /\ nth_error one_to_eight (floor_times 8 (75 # 100)) = Some v3
    /\ nth_error one_to_eight (8 - 1) = Some vmax
    /\ calculateQuartiles one_to_eight
       = {| q_min := Some vmin; q_q1 := Some v1; q_median := Some v2;
            q_q3 := Some v3; q_max := Some vmax; q_iqr := sub v3 v1 |}.
Proof.
  apply (proj1 calculateQuartiles_nearest_rank one_to_eight).
  - discriminate.
  - unfold ascending, one_to_eight. simpl.
    repeat (constructor; try reflexivity).
Defined.

End QuartileFacts.


(* ================================================================== *)
(** ** Root-mean-square aggregation *)
(* ================================================================== *)

Section RmsFacts.

Lemma fold_left_squares (errors : list float) (acc : float) :
  fold_left (fun s e => PrimFloat.add s (PrimFloat.mul e e)) errors acc
  = fold_left PrimFloat.add (map (fun e => PrimFloat.mul e e) errors) acc.
Proof.
  revert acc. induction errors as [|e errors IH]; intros acc;
    [reflexivity|].
  simpl. apply IH.
Qed.

(** C8.  The aggregation returns the square root of the sum of the squares
    of the errors, 0 for an empty sequence, and 5 for the errors 3 and 4. *)
Theorem rmsError_sqrt_sum_of_squares :
  (forall errors : list float,
     rmsError errors = PrimFloat.sqrt (sum_of_squares errors))
  /\ rmsError [] = 0%float
  /\ rmsError [3%float; 4%float] = 5%float.
Proof.
  split; [|split; vm_compute; reflexivity].
  intros errors. unfold rmsError, sum_of_squares.
  now rewrite fold_left_squares.
Qed.

End RmsFacts.


(* ================================================================== *)
(** ** Facts about maps *)
(* ================================================================== *)

Section MapFacts.

Lemma eqb_eq (s t : list ascii) : JsString.eqb s t = true <-> s = t.
Proof.
  revert t. induction s as [|c s IH]; intros [|d t]; simpl;
    try (split; [discriminate | congruence]); [tauto|].
  rewrite andb_true_iff, Ascii.eqb_eq, IH. split.
  - intros [-> ->]. reflexivity.
  - intros [= -> ->]. auto.
Qed.

Lemma eqb_refl (s : list ascii) : JsString.eqb s s = true.
Proof. now apply eqb_eq. Qed.

Lemma eqb_neq (s t : list ascii) : JsString.eqb s t = false <-> s <> t.
Proof.
  rewrite <- eqb_eq. destruct (JsString.eqb s t); split; congruence.
Qed.

Context {V : Type}.

Lemma get_set_same (m : JsMap.t V) (k : list ascii) (v : V) :
  JsMap.get (JsMap.set m k v) k = Some v.
Proof.
  induction m as [|[k' v'] m IH]; simpl.
  - now rewrite eqb_refl.
  - destruct (JsString.eqb k' k) eqn:E; simpl; rewrite E; auto.
Qed.

Lemma get_set_other (m : JsMap.t V) (k k' : list ascii) (v : V) :
  k' <> k -> JsMap.get (JsMap.set m k v) k' = JsMap.get m k'.
Proof.
  intros Hne. induction m as [|[k0 v0] m IH]; simpl.
  - assert (E : JsString.eqb k k' = false) by (apply eqb_neq; congruence).
    now rewrite E.
  - destruct (JsString.eqb k0 k) eqn:E; simpl.
    + apply eqb_eq in E. subst k0.
      assert (E : JsString.eqb k k' = false) by (apply eqb_neq; congruence).
      now rewrite E.
    + now rewrite IH.
Qed.

Lemma get_None_keys (m : JsMap.t V) (k : list ascii) :
  JsMap.get m k = None <-> ~ In k (JsMap.keys m).
Proof.
  induction m as [|[k' v'] m IH]; simpl; [tauto|].
  destruct (JsString.eqb k' k) eqn:E.
  - apply eqb_eq in E. split; [discriminate | tauto].
  - apply eqb_neq in E. rewrite IH. tauto.
Qed.

Lemma get_Some_In (m : JsMap.t V) (k : list ascii) (v : V) :
  JsMap.get m k = Some v -> In (k, v) m.
Proof.
  induction m as [|[k' v'] m IH]; simpl; [discriminate|].
  destruct (JsString.eqb k' k) eqn:E.
  - apply eqb_eq in E. intros [= ->]. subst. now left.
  - intros H. right. now apply IH.
Qed.

Lemma keys_set (m : JsMap.t V) (k : list ascii) (v : V) :
  JsMap.keys (JsMap.set m k v)
  = if JsMap.has m k then JsMap.keys m else JsMap.keys m ++ [k].
Proof.
  unfold JsMap.has.
  induction m as [|[k' v'] m IH]; simpl; [reflexivity|].
  destruct (JsString.eqb k' k) eqn:E; simpl; [reflexivity|].
  rewrite IH. now destruct (JsMap.get m k).
Qed.

Lemma NoDup_keys_set (m : JsMap.t V) (k : list ascii) (v : V) :
  NoDup (JsMap.keys m) -> NoDup (JsMap.keys (JsMap.set m k v)).
Proof.
  intros Hm. rewrite keys_set. unfold JsMap.has.
  destruct (JsMap.get m k) eqn:E; [assumption|].
  apply get_None_keys in E.
  apply NoDup_rev in Hm. rewrite <- (rev_involutive (_ ++ _)).
  apply NoDup_rev. rewrite rev_app_distr. simpl.
  constructor; [now rewrite <- in_rev | assumption].
Qed.

Lemma Forall_set (P : list ascii * V -> Prop) (m : JsMap.t V)
  (k : list ascii) (v : V) :
  Forall P m -> (forall k', P (k', v)) -> Forall P (JsMap.set m k v).
Proof.
  intros Hm Hv. induction Hm as [|[k' v'] m Hx Hm IH]; simpl.
  - constructor; [apply Hv | constructor].
  - destruct (JsString.eqb k' k); constructor; auto.
Qed.

End MapFacts.


Section MapValues.

Context {V W : Type}.
Variable g : list ascii -> V -> W.

(** Visiting the entries of a map and storing a value computed from each
    gives, under each key, the value computed from that key's entry. *)
Lemma get_fold_set (entries : JsMap.t V) :
  NoDup (JsMap.keys entries) ->
  forall (m0 : JsMap.t W) (k : list ascii),
    JsMap.get
      (fold_left (fun m e => JsMap.set m (fst e) (g (fst e) (snd e)))
                 entries m0) k
    = match JsMap.get entries k with
      | Some v => Some (g k v)
      | None => JsMap.get m0 k
      end.
Proof.
  induction entries as [|[k' v'] entries IH]; intros Hnd m0 k;
    [reflexivity|].
  simpl in Hnd. inversion Hnd as [|? ? Hnotin Hnd']; subst.
  simpl. rewrite IH by assumption.
  destruct (JsString.eqb k' k) eqn:E.
  - apply eqb_eq in E. subst k'.
    apply get_None_keys in Hnotin. rewrite Hnotin.
    apply get_set_same.
  - apply eqb_neq in E.
    destruct (JsMap.get entries k); [reflexivity|].
    apply get_set_other. congruence.
Qed.

End MapValues.


(* ================================================================== *)
(** ** The population join *)
(* ================================================================== *)

Section PopulationFacts.

(** One step of the loop over the population rows. *)
Let store (m : JsMap.t number) (r : Row) : JsMap.t number :=
  match population_entry r with
  | Some (name, p) => JsMap.set m name p
  | None => m
  end.

Lemma populationByState_fold (popData : list Row) :
  populationByState popData = fold_left store popData JsMap.empty.
Proof. reflexivity. Qed.

Lemma stored_from_row (popData : list Row) (name : list ascii) (p : number) :
  forall m0 : JsMap.t number,
    JsMap.get (fold_left store popData m0) name = Some p ->
    JsMap.get m0 name = Some p
    \/ exists r, In r popData /\ population_entry r = Some (name, p).
Proof.
  induction popData as [|r rows IH]; intros m0 H; [now left|].
  simpl in H. apply IH in H as [H | (r' & Hin & Hr')].
  - unfold store in H.
    destruct (population_entry r) as [[n v]|] eqn:He; [|now left].
    destruct (JsString.eqb n name) eqn:E.
    + apply eqb_eq in E. subst n. rewrite get_set_same in H.
      injection H as ->. right. exists r. split; [now left | assumption].
    + apply eqb_neq in E. rewrite get_set_other in H by congruence.
      now left.
  - right. exists r'. split; [now right | assumption].
Qed.

Lemma untouched_by_rows (rows : list Row) (name : list ascii) :
  (forall r p, In r rows -> population_entry r <> Some (name, p)) ->
  forall m0 : JsMap.t number,
    JsMap.get (fold_left store rows m0) name = JsMap.get m0 name.
Proof.
  induction rows as [|r rows IH]; intros Hno m0; [reflexivity|].
  simpl. rewrite IH by (intros r' p' Hin; apply Hno; now right).
  unfold store. destruct (population_entry r) as [[n v]|] eqn:He;
    [|reflexivity].
  apply get_set_other. intros ->.
  apply (Hno r v); [now left | assumption].
Qed.

Lemma population_entry_inv (r : Row) (name : list ascii) (p : number) :
  population_entry r = Some (name, p) ->
  isNaN p = false
  /\ exists n t : list ascii,
       rawName r = Some n /\ n <> []
       /\ name = canonicalStateName (Some n)
       /\ rawPop r = Some t
       /\ trim (remove_char "," t) <> []
       /\ p = toNumber (trim (remove_char "," t)).
Proof.
  unfold population_entry, population_value.
  destruct (rawName r) as [[|c n]|]; try discriminate.
  destruct (rawPop r) as [t|]; try discriminate.
  destruct (is_empty (trim (remove_char "," t))) eqn:He; try discriminate.
  destruct (isNaN (toNumber _)) eqn:Hn; try discriminate.
  intros H.
  assert (Hname : canonicalStateName (Some (c :: n)) = name) by congruence.
  assert (Hp : toNumber (trim (remove_char "," t)) = p) by congruence.
  clear H. split; [now rewrite <- Hp|].
  exists (c :: n), t.
  split; [reflexivity|]. split; [discriminate|].
  split; [now symmetry|]. split; [reflexivity|].
  split; [|now symmetry].
  intros E. rewrite E in He. discriminate.
Qed.

(** C3, as the code has it.  A value is stored under a canonical state name
    only for a row whose population text, with commas removed and trimmed,
    is not empty and converts to a number other than NaN (the sign is not
    examined); and the value found under a name is that of the last row
    that stores one for it. *)
Theorem populationByState_stored :
  (forall (popData : list Row) (name : list ascii) (p : number),
     JsMap.get (populationByState popData) name = Some p ->
     exists r, In r popData /\ population_entry r = Some (name, p))
  /\ (forall (r : Row) (name : list ascii) (p : number),
        population_entry r = Some (name, p) ->
        isNaN p = false
        /\ exists n t : list ascii,
             rawName r = Some n /\ n <> []
             /\ name = canonicalStateName (Some n)
             /\ rawPop r = Some t
             /\ trim (remove_char "," t) <> []
             /\ p = toNumber (trim (remove_char "," t)))
  /\ (forall (before after : list Row) (r : Row) (name : list ascii)
             (p : number),
        population_entry r = Some (name, p) ->
        (forall r' p', In r' after -> population_entry r' <> Some (name, p')) ->
        JsMap.get (populationByState (before ++ r :: after)) name = Some p).
Proof.
  split; [|split].
  - intros popData name p H. rewrite populationByState_fold in H.
    apply stored_from_row in H as [H|H]; [discriminate | assumption].
  - exact population_entry_inv.
  - intros before after r name p Hr Hafter.
    rewrite populationByState_fold, fold_left_app. simpl.
    rewrite untouched_by_rows by assumption.
    unfold store at 1. rewrite Hr. apply get_set_same.
Qed.

Lemma populationByState_stored_witness :
  (exists r, In r sample_rows
             /\ population_entry r = Some (js "Texas", Fin 25145561))
  /\ isNaN (Fin 25145561) = false
  /\ JsMap.get (populationByState sample_rows) (js "Texas")
     = Some (Fin 25145561).
Proof.
  destruct populationByState_stored as (Hfrom & Hinv & Hlast).
  split; [|split].
  - apply (Hfrom sample_rows (js "Texas") (Fin 25145561)).
    vm_compute. reflexivity.
  - apply (Hinv (population_row "tx" "25,145,561") (js "Texas")
             (Fin 25145561)).
    vm_compute. reflexivity.
  - apply (Hlast [population_row "Texas" "24,000,000"]
             [population_row "Nevada" "n/a"]
             (population_row "tx" "25,145,561") (js "Texas")
             (Fin 25145561)).
    + vm_compute. reflexivity.
    + intros r' p' [<-|[]]. vm_compute. discriminate.
Defined.

(** C3 as the claim words it fails: a negative figure is stored. *)
Lemma populationByState_stores_negative :
  JsMap.get (populationByState negative_rows) (js "Texas") = Some (Fin (-5))
  /\ ~ (forall (popData : list Row) (name : list ascii) (p : number),
          JsMap.get (populationByState popData) name = Some p -> nonneg p).
Proof.
  split; [vm_compute; reflexivity|].
  intros H.
  destruct (H negative_rows (js "Texas") (Fin (-5))) as (q & Hq & Hpos).
  - vm_compute. reflexivity.
  - injection Hq as <-. vm_compute in Hpos. apply Hpos. reflexivity.
Qed.

End PopulationFacts.


(* ================================================================== *)
(** ** State coverage of a language *)
(* ================================================================== *)

Section CoverageFacts.

Lemma existsb_eqb_In (x : list ascii) (s : list (list ascii)) :
  existsb (JsString.eqb x) s = true <-> In x s.
Proof.
  rewrite existsb_exists. split.
  - intros (y & Hy & E). apply eqb_eq in E. now subst.
  - intros H. exists x. split; [assumption | apply eqb_refl].
Qed.

Lemma NoDup_snoc {A : Type} (s : list A) (x : A) :
  NoDup s -> ~ In x s -> NoDup (s ++ [x]).
Proof.
  intros Hs Hx. apply NoDup_rev in Hs.
  rewrite <- (rev_involutive (s ++ [x])). apply NoDup_rev.
  rewrite rev_app_distr. simpl. constructor; [|assumption].
  now rewrite <- in_rev.
Qed.

Lemma new_Set_from (xs s0 : list (list ascii)) :
  NoDup s0 ->
  let s := fold_left
             (fun s x => if existsb (JsString.eqb x) s then s else s ++ [x])
             xs s0 in
  NoDup s /\ forall x, In x s <-> In x s0 \/ In x xs.
Proof.
  revert s0. induction xs as [|y xs IH]; intros s0 Hs0; simpl.
  - split; [assumption | tauto].
  - destruct (existsb (JsString.eqb y) s0) eqn:E.
    + apply existsb_eqb_In in E.
      destruct (IH s0 Hs0) as [Hnd Hin]. split; [assumption|].
      intros x. rewrite Hin. intuition (subst; auto).
    + assert (Hy : ~ In y s0).
      { intros H. apply existsb_eqb_In in H. congruence. }
      destruct (IH (s0 ++ [y]) (NoDup_snoc s0 y Hs0 Hy)) as [Hnd Hin].
      split; [assumption|].
      intros x. rewrite Hin, in_app_iff. simpl. tauto.
Qed.

Lemma new_Set_NoDup (xs : list (list ascii)) : NoDup (new_Set xs).
Proof. apply (new_Set_from xs []). constructor. Qed.

Lemma new_Set_In (xs : list (list ascii)) (x : list ascii) :
  In x (new_Set xs) <-> In x xs.
Proof.
  destruct (new_Set_from xs [] (NoDup_nil _)) as [_ H].
  unfold new_Set. rewrite H. simpl. tauto.
Qed.

(** *** The counters *)

Lemma count_of_bump (sc : JsMap.t nat) (l' l : list ascii) :
  count_of (bump sc l') l
  = count_of sc l + (if JsString.eqb l' l then 1 else 0).
Proof.
  unfold count_of, bump. destruct (JsString.eqb l' l) eqn:E.
  - apply eqb_eq in E. subst l'. now rewrite get_set_same.
  - apply eqb_neq in E. rewrite get_set_other by congruence. lia.
Qed.

Lemma count_of_fold_bump (s : list (list ascii)) (l : list ascii) :
  NoDup s ->
  forall sc : JsMap.t nat,
    count_of (fold_left bump s sc) l
    = count_of sc l + (if existsb (JsString.eqb l) s then 1 else 0).
Proof.
  induction 1 as [|x s Hx Hs IH]; intros sc; simpl; [lia|].
  rewrite IH, count_of_bump.
  destruct (JsString.eqb l x) eqn:E.
  - apply eqb_eq in E. subst x.
    rewrite eqb_refl. simpl.
    destruct (existsb (JsString.eqb l) s) eqn:E'; [|lia].
    apply existsb_eqb_In in E'. contradiction.
  - assert (E2 : JsString.eqb x l = false).
    { apply eqb_neq. apply eqb_neq in E. congruence. }
    rewrite E2. simpl. lia.
Qed.

Lemma mentions_new_Set (l : list ascii) (arr : list LanguageRecord) :
  existsb (JsString.eqb l) (new_Set (map Language arr)) = mentions l arr.
Proof.
  apply eq_true_iff_eq. rewrite existsb_eqb_In, new_Set_In.
  unfold mentions. rewrite existsb_exists, in_map_iff. split.
  - intros (d & <- & Hd). exists d. split; [assumption | apply eqb_refl].
  - intros (d & Hd & E). apply eqb_eq in E. exists d. now split.
Qed.

(** The counter of a language is the number of entries that mention it. *)
Lemma count_of_statesCount (byState : JsMap.t (list LanguageRecord))
  (l : list ascii) :
  count_of (statesCount byState) l
  = length (filter (fun e => mentions l (snd e)) byState).
Proof.
  unfold statesCount.
  assert (H : forall sc0 : JsMap.t nat,
            count_of
              (fold_left
                 (fun sc entry =>
                    fold_left bump (new_Set (map Language (snd entry))) sc)
                 byState sc0) l
            = count_of sc0 l
              + length (filter (fun e => mentions l (snd e)) byState)).
  { induction byState as [|e rest IH]; intros sc0; simpl; [lia|].
    rewrite IH, count_of_fold_bump by apply new_Set_NoDup.
    rewrite mentions_new_Set.
    destruct (mentions l (snd e)); simpl; lia. }
  rewrite H. reflexivity.
Qed.

End CoverageFacts.


Section GroupingFacts.

Lemma In_get {V : Type} (m : JsMap.t V) (k : list ascii) (v : V) :
  NoDup (JsMap.keys m) -> In (k, v) m -> JsMap.get m k = Some v.
Proof.
  induction m as [|[k' v'] m IH]; simpl; intros Hnd Hin; [contradiction|].
  inversion Hnd as [|? ? Hnotin Hnd']; subst.
  destruct Hin as [[= -> ->]|Hin].
  - now rewrite eqb_refl.
  - destruct (JsString.eqb k' k) eqn:E; [|now apply IH].
    apply eqb_eq in E. subst k'. exfalso. apply Hnotin.
    change k with (fst (k, v)). now apply in_map.
Qed.

Lemma NoDup_keys_filter {V : Type} (f : list ascii * V -> bool)
  (m : JsMap.t V) :
  NoDup (JsMap.keys m) -> NoDup (JsMap.keys (filter f m)).
Proof.
  unfold JsMap.keys.
  induction m as [|e m IH]; simpl; intros Hnd; [constructor|].
  inversion Hnd as [|? ? Hnotin Hnd']; subst.
  destruct (f e); simpl; [|now apply IH].
  constructor; [|now apply IH].
  intros Hin. apply Hnotin.
  apply in_map_iff in Hin as (e' & He' & Hin).
  apply filter_In in Hin as [Hin _].
  apply in_map_iff. now exists e'.
Qed.

Lemma records_of_snoc (k : list ascii) (data : list LanguageRecord)
  (d : LanguageRecord) :
  records_of k (data ++ [d])
  = records_of k data ++ (if JsString.eqb (stateKey d) k then [d] else []).
Proof. unfold records_of. rewrite filter_app. reflexivity. Qed.

Lemma languageByState_snoc (data : list LanguageRecord)
  (d : LanguageRecord) :
  languageByState (data ++ [d])
  = (let m := languageByState data in
     let k := stateKey d in
     let m := if JsMap.has m k then m else JsMap.set m k [] in
     match JsMap.get m k with
     | Some arr => JsMap.set m k (arr ++ [d])
     | None => m
     end).
Proof. unfold languageByState. rewrite fold_left_app. reflexivity. Qed.

(** [languageByState] groups the records by canonical state. *)
Lemma languageByState_grouped (data : list LanguageRecord) :
  grouped (languageByState data) data.
Proof.
  induction data as [|d data IH] using rev_ind.
  - split; [constructor | reflexivity].
  - destruct IH as [Hnd Hget].
    rewrite languageByState_snoc. cbv zeta.
    set (m := languageByState data) in *. set (k := stateKey d).
    assert (Hm' : exists m',
               (if JsMap.has m k then m else JsMap.set m k []) = m'
               /\ NoDup (JsMap.keys m')
               /\ JsMap.get m' k = Some (records_of k data)
               /\ forall k', k' <> k -> JsMap.get m' k' = JsMap.get m k').
    { unfold JsMap.has. pose proof (Hget k) as Hk.
      destruct (JsMap.get m k) as [arr|] eqn:Hg.
      - exists m. repeat split; try assumption.
        rewrite Hg. destruct (records_of k data); [discriminate | assumption].
      - exists (JsMap.set m k []). repeat split.
        + now apply NoDup_keys_set.
        + rewrite get_set_same.
          destruct (records_of k data); [reflexivity | discriminate].
        + intros k' Hk'. now apply get_set_other. }
    destruct Hm' as (m' & -> & Hnd' & Hk & Hother).
    rewrite Hk. split; [now apply NoDup_keys_set|].
    intros k'. rewrite records_of_snoc.
    destruct (JsString.eqb (stateKey d) k') eqn:E.
    + apply eqb_eq in E. fold k in E. subst k'.
      rewrite get_set_same.
      destruct (records_of k data); reflexivity.
    + apply eqb_neq in E. fold k in E.
      rewrite get_set_other by congruence.
      rewrite Hother by congruence.
      rewrite app_nil_r. apply Hget.
Qed.

Lemma mentions_records_of (l k : list ascii) (data : list LanguageRecord) :
  mentions l (records_of k data) = true
  <-> exists d, In d data /\ stateKey d = k /\ Language d = l.
Proof.
  unfold mentions, records_of. rewrite existsb_exists. split.
  - intros (d & Hd & E). apply filter_In in Hd as [Hd Hk].
    apply eqb_eq in Hk, E. now exists d.
  - intros (d & Hd & Hk & Hl). exists d. split.
    + apply filter_In. split; [assumption | now apply eqb_eq].
    + now apply eqb_eq.
Qed.

(** The entries of [languageByState] that mention a language are as many
    as the distinct canonical states of the records with that language. *)
Lemma mentioning_entries (data : list LanguageRecord) (l : list ascii) :
  length (filter (fun e => mentions l (snd e)) (languageByState data))
  = states_mentioning data l.
Proof.
  destruct (languageByState_grouped data) as [Hnd Hget].
  unfold states_mentioning, states_where.
  rewrite <- (length_map fst).
  apply Permutation_length, NoDup_Permutation.
  - apply (NoDup_keys_filter _ _ Hnd).
  - apply new_Set_NoDup.
  - intros k. rewrite new_Set_In, !in_map_iff. split.
    + intros ([k' arr] & <- & Hin). simpl.
      apply filter_In in Hin as [Hin Hm]. simpl in Hm.
      apply (In_get _ _ _ Hnd) in Hin. rewrite Hget in Hin.
      assert (Harr : arr = records_of k' data).
      { destruct (records_of k' data); [discriminate | congruence]. }
      subst arr. apply mentions_records_of in Hm as (d & Hd & Hk & Hl).
      exists d. split; [assumption|].
      apply filter_In. split; [assumption | now apply eqb_eq].
    + intros (d & Hk & Hin). apply filter_In in Hin as [Hd Hl].
      apply eqb_eq in Hl.
      assert (Hm : mentions l (records_of k data) = true).
      { apply mentions_records_of. now exists d. }
      exists (k, records_of k data). split; [reflexivity|].
      apply filter_In. split; [|exact Hm].
      apply get_Some_In. rewrite Hget.
      destruct (records_of k data); [discriminate | reflexivity].
Qed.

(** C2, as the code has it.  For every language, the count used by the dot
    chart is the number of distinct canonical states that have at least
    one record for that language, whatever its speaker count. *)
Theorem states_of_counts_mentions :
  forall (languageData : list LanguageRecord) (l : list ascii),
    states_of languageData l = states_mentioning languageData l.
Proof.
  intros languageData l.
  change (states_of languageData l)
    with (count_of (statesCount (languageByState languageData)) l).
  rewrite count_of_statesCount. apply mentioning_entries.
Qed.

(** C2 as the claim words it fails: a state whose only record of the
    language has no speaker count is counted. *)
Lemma states_of_counts_null_speakers :
  states_of sample_languages (js "Navajo") = 2
  /\ spec_languageCoverage sample_languages (js "Navajo") = 1
  /\ ~ (forall (languageData : list LanguageRecord) (l : list ascii),
          states_of languageData l = spec_languageCoverage languageData l).
Proof.
  split; [vm_compute; reflexivity|]. split; [vm_compute; reflexivity|].
  intros H. specialize (H sample_languages (js "Navajo")).
  vm_compute in H. discriminate.
Qed.

End GroupingFacts.

(* ================================================================== *)
(** ** English-proficiency proportions *)
(* ================================================================== *)

Section ProportionFacts.

Lemma zero_quantity : quantity zero.
Proof. split; [apply Qle_refl | reflexivity]. Qed.

Lemma quantity_not_NaN (c : number) : quantity c -> isNaN c = false.
Proof. intros [H _]. destruct c; [destruct H | reflexivity | reflexivity]. Qed.

Lemma is_zero_false (q : Q) : ~ (q == 0)%Q -> is_zero q = false.
Proof.
  intros H. unfold is_zero. destruct (Qeq_bool q 0) eqn:E; [|reflexivity].
  apply Qeq_bool_iff in E. contradiction.
Qed.

(** The only binary64 value that is zero is [0]. *)
Lemma binary64_zero (q : Q) : binary64 q -> (q == 0)%Q -> q = 0%Q.
Proof.
  intros H E. unfold binary64 in H. rewrite (fin_zero q E) in H. congruence.
Qed.

(** [c || 0] is [c], unless [c] is NaN. *)
Lemma or_else_zero_id (c : number) :
  representable c -> isNaN c = false -> or_else c zero = c.
Proof.
  destruct c as [|q|s]; [discriminate | | reflexivity].
  intros H _. unfold or_else, truthy.
  destruct (is_zero q) eqn:E; [|reflexivity].
  apply Qeq_bool_iff in E. cbn [negb]. cbv iota.
  unfold zero. f_equal. symmetry. now apply binary64_zero.
Qed.

Lemma sum_numbers_snoc (vs : list number) (v : number) :
  sum_numbers (vs ++ [v]) = add (sum_numbers vs) v.
Proof. unfold sum_numbers. now rewrite fold_left_app. Qed.

Lemma sum_numbers_quantity (vs : list number) :
  Forall quantity vs -> quantity (sum_numbers vs).
Proof.
  induction vs as [|v vs IH] using rev_ind; intros H; [apply zero_quantity|].
  apply Forall_app in H. destruct H as [Hvs Hv].
  rewrite sum_numbers_snoc. apply add_quantity; [now apply IH|].
  now inversion Hv.
Qed.

Lemma english_counts_snoc (k : list ascii) (data : list LanguageRecord)
  (d : LanguageRecord) :
  english_counts k (data ++ [d])
  = english_counts k data
    ++ (if JsString.eqb (stateKey d) k
        then match parseSpeakers (LessThanVeryWell d) with
             | Some count => [count]
             | None => []
             end
        else []).
Proof.
  unfold english_counts. rewrite records_of_snoc, flat_map_app.
  destruct (JsString.eqb (stateKey d) k); [|reflexivity].
  simpl. now rewrite app_nil_r.
Qed.

Lemma english_counts_quantity (k : list ascii) (data : list LanguageRecord) :
  Forall quantity (english_counts k data).
Proof.
  unfold english_counts. induction (records_of k data) as [|d l IH];
    [constructor|].
  simpl. apply Forall_app. split; [|exact IH].
  destruct (parseSpeakers (LessThanVeryWell d)) as [c|] eqn:E;
    [|constructor].
  constructor; [|constructor]. exact (parseSpeakers_result_quantity _ _ E).
Qed.

Lemma englishLessThanVeryWellByState_snoc (data : list LanguageRecord)
  (d : LanguageRecord) :
  englishLessThanVeryWellByState (data ++ [d])
  = let m := englishLessThanVeryWellByState data in
    match parseSpeakers (LessThanVeryWell d) with
    | Some count =>
        let current :=
          match JsMap.get m (stateKey d) with
          | Some c => or_else c zero
          | None => zero
          end in
        JsMap.set m (stateKey d) (add current count)
    | None => m
    end.
Proof. unfold englishLessThanVeryWellByState. now rewrite fold_left_app. Qed.

(** The per-state sums have one entry per state with a count: the sum of
    the state's counts, added from left to right. *)
Lemma englishLessThanVeryWellByState_sums (data : list LanguageRecord) :
  NoDup (JsMap.keys (englishLessThanVeryWellByState data))
  /\ forall k : list ascii,
       JsMap.get (englishLessThanVeryWellByState data) k
       = match english_counts k data with
         | [] => None
         | cs => Some (sum_numbers cs)
         end.
Proof.
  induction data as [|d data IH] using rev_ind.
  { split; [constructor | reflexivity]. }
  destruct IH as [Hnd Hget].
  rewrite englishLessThanVeryWellByState_snoc. cbv zeta.
  destruct (parseSpeakers (LessThanVeryWell d)) as [c|] eqn:Hp.
  - split; [now apply NoDup_keys_set|].
    intros k. rewrite english_counts_snoc, Hp.
    destruct (JsString.eqb (stateKey d) k) eqn:E.
    + apply eqb_eq in E. subst k. rewrite get_set_same, Hget.
      pose proof (english_counts_quantity (stateKey d) data) as Hq.
      destruct (english_counts (stateKey d) data) as [|c0 cs] eqn:Ec.
      * reflexivity.
      * rewrite or_else_zero_id.
        -- rewrite <- sum_numbers_snoc. reflexivity.
        -- apply sum_numbers_quantity, Hq.
        -- apply quantity_not_NaN, sum_numbers_quantity, Hq.
    + apply eqb_neq in E. rewrite get_set_other by congruence.
      rewrite app_nil_r. apply Hget.
  - split; [assumption|]. intros k. rewrite english_counts_snoc, Hp.
    destruct (JsString.eqb (stateKey d) k); rewrite app_nil_r; apply Hget.
Qed.

Lemma truthy_or_one (x : option number) : truthy (or_one x) = true.
Proof.
  destruct x as [n|]; [|reflexivity].
  unfold or_one, or_else. destruct (truthy n) eqn:E; [exact E | reflexivity].
Qed.

(** Dividing a count by 1 changes nothing. *)
Lemma div_one (c : number) : quantity c -> div c one = c.
Proof.
  intros [Hn Hr]. destruct c as [|q|[]]; cbn [not_negative] in Hn;
    try contradiction; try discriminate; [|reflexivity].
  unfold div, one. change (is_zero 1) with false. cbv iota.
  rewrite (fin_morph (q / 1) q) by field. exact Hr.
Qed.

(** C9, as the code has it.  The count of a state is the sum, added from
    left to right in binary64 arithmetic, of the "less than very well"
    counts of the state's records that parse to a number; a state has a
    proportion exactly when it has such a record, and the proportion stored
    is [(count / pop) * 100], where [pop] is the state's population when it
    is known and neither zero nor NaN, and 1 otherwise, so the divisor is
    never zero.  With an unknown population the proportion is
    [count * 100], which is not near zero.  The computation has no
    nationwide case. *)
Theorem englishProficiencyProportions_value :
  forall (languageData : list LanguageRecord) (population : JsMap.t number)
         (state : list ascii),
    let counts := englishLessThanVeryWellByState languageData in
    let count := sum_numbers (english_counts state languageData) in
    let pop := population_or_one population state in
    (english_counts state languageData <> [] ->
       JsMap.get counts state = Some count
       /\ JsMap.get (englishProficiencyProportions counts population) state
          = Some (mul (div count pop) hundred))
    /\ (english_counts state languageData = [] ->
          JsMap.get counts state = None
          /\ JsMap.get (englishProficiencyProportions counts population) state
             = None)
    /\ truthy pop = true
    /\ (forall p : number,
          JsMap.get population state = Some p -> truthy p = true -> pop = p)
    /\ (forall p : number,
          JsMap.get population state = Some p -> truthy p = false ->
          pop = one)
    /\ (JsMap.get population state = None -> pop = one)
    /\ mul (div count one) hundred = mul count hundred
    /\ not_negative count.
Proof.
  intros languageData population state counts count pop.
  destruct (englishLessThanVeryWellByState_sums languageData) as [Hnd Hget].
  fold counts in Hnd, Hget.
  assert (Hprop :
    JsMap.get (englishProficiencyProportions counts population) state
    = match JsMap.get counts state with
      | Some v => Some (proportion v (population_or_one population state))
      | None => None
      end).
  { unfold englishProficiencyProportions.
    exact (get_fold_set
             (fun k v => proportion v (population_or_one population k))
             counts Hnd JsMap.empty state). }
  pose proof (sum_numbers_quantity _
                (english_counts_quantity state languageData)) as Hq.
  fold count in Hq.
  split; [|split; [|split; [|split; [|split; [|split; [|split]]]]]].
  - intros Hne. rewrite Hprop, Hget. fold count.
    destruct (english_counts state languageData); [congruence|].
    split; reflexivity.
  - intros He. rewrite Hprop, Hget, He. split; reflexivity.
  - apply truthy_or_one.
  - intros p Hp Ht. unfold pop, population_or_one. rewrite Hp.
    unfold or_one, or_else. now rewrite Ht.
  - intros p Hp Ht. unfold pop, population_or_one. rewrite Hp.
    unfold or_one, or_else. now rewrite Ht.
  - intros Hp. unfold pop, population_or_one. now rewrite Hp.
  - now rewrite div_one.
  - apply Hq.
Qed.

Lemma englishProficiencyProportions_value_witness :
  JsMap.get (englishLessThanVeryWellByState sample_english) (js "Texas")
  = Some (sum_numbers (english_counts (js "Texas") sample_english))
  /\ JsMap.get
       (englishProficiencyProportions
          (englishLessThanVeryWellByState sample_english) sample_population)
       (js "Texas")
     = Some (mul (div (sum_numbers (english_counts (js "Texas")
                                      sample_english))
                    (population_or_one sample_population (js "Texas")))
               hundred).
Proof.
  apply (proj1 (englishProficiencyProportions_value sample_english
                  sample_population (js "Texas"))).
  vm_compute. discriminate.
Defined.

(** The proportions of the sample: Texas, with 200 of 1000, has 20 percent;
    Atlantis, whose population is unknown, has 500000 percent. *)
Lemma englishProficiencyProportions_sample :
  english_counts (js "Texas") sample_english = [Fin 100; Fin 100]
  /\ englishLessThanVeryWellByState sample_english
     = [ (js "Atlantis", Fin 5000); (js "Texas", Fin 200) ]
  /\ englishProficiencyProportions
       (englishLessThanVeryWellByState sample_english) sample_population
     = [ (js "Atlantis", Fin 500000); (js "Texas", Fin 20) ].
Proof. repeat split; vm_compute; reflexivity. Qed.

(** C9 as the claim words it fails: an unknown population does not give a
    proportion near zero. *)
Lemma proportion_unknown_population_not_near_zero :
  ~ (forall (languageData : list LanguageRecord) (population : JsMap.t number)
            (state : list ascii) (p : number),
       JsMap.get population state = None ->
       JsMap.get
         (englishProficiencyProportions
            (englishLessThanVeryWellByState languageData) population) state
       = Some p ->
       near_zero p).
Proof.
  intros H.
  destruct (H sample_english sample_population (js "Atlantis") (Fin 500000))
    as (q & Hq & Habs).
  - reflexivity.
  - vm_compute. reflexivity.
  - injection Hq as <-. vm_compute in Habs. apply Habs. reflexivity.
Qed.

End ProportionFacts.

(* ================================================================== *)
(** ** Sums *)
(* ================================================================== *)

Section NumberFacts.

Lemma sumQ_app (l1 l2 : list Q) : (sumQ (l1 ++ l2) == sumQ l1 + sumQ l2)%Q.
Proof.
  induction l1 as [|q l1 IH]; simpl; [lra|]. rewrite IH. lra.
Qed.

Lemma sumQ_Permutation (l1 l2 : list Q) :
  Permutation l1 l2 -> (sumQ l1 == sumQ l2)%Q.
Proof.
  induction 1; simpl; try lra.
Qed.

Lemma sumQ_nonneg (l : list Q) :
  Forall (fun q => 0 <= q)%Q l -> (0 <= sumQ l)%Q.
Proof.
  induction 1 as [|q l Hq Hl IH]; simpl; [lra|]. lra.
Qed.

Lemma binary64_0 : binary64 0.
Proof. reflexivity. Qed.

(** A positive binary64 value is at least 2^-1074. *)
Lemma binary64_above (q : Q) :
  binary64 q -> (0 < q)%Q -> (two_pow (-1074) <= q)%Q.
Proof.
  intros H Hq. pose proof (binary64_gap 0 q binary64_0 H Hq) as G. lra.
Qed.

(** Adding a positive count to a count gives a positive count. *)
Lemma add_above_zero (a b : number) :
  quantity a -> quantity b -> above_zero b -> above_zero (add a b).
Proof.
  intros [Ha _] [_ Rb] Hb.
  destruct a as [|x|[]], b as [|y|[]];
    cbn [not_negative above_zero representable] in *;
    try contradiction; try discriminate; try reflexivity.
  cbn [add]. apply fin_above_zero.
  pose proof (binary64_above y Rb Hb). lra.
Qed.

Lemma sum_numbers_above_zero (vs : list number) :
  vs <> [] -> Forall (fun v => quantity v /\ above_zero v) vs ->
  above_zero (sum_numbers vs).
Proof.
  induction vs as [|v vs IH] using rev_ind; intros Hne H; [congruence|].
  apply Forall_app in H. destruct H as [Hvs Hv].
  inversion Hv as [|? ? [Hq Hp] _]; subst.
  rewrite sum_numbers_snoc. apply add_above_zero; try assumption.
  apply sum_numbers_quantity.
  eapply Forall_impl; [|exact Hvs]. now intros a [Ha _].
Qed.

Lemma above_zero_truthy (n : number) : above_zero n -> truthy n = true.
Proof.
  destruct n as [|q|s]; cbn [above_zero]; intros H;
    [contradiction | | reflexivity].
  unfold truthy. rewrite is_zero_false; [reflexivity | lra].
Qed.

(** Values of at most 2^53 in magnitude that are whole are binary64
    values, and their sums are exact as long as they stay in that range. *)
Lemma add_whole (a b : Z) :
  (Z.abs (a + b) <= 2 ^ 53)%Z -> add (of_Z a) (of_Z b) = of_Z (a + b).
Proof.
  intros H. unfold of_Z. cbn [add].
  rewrite <- inject_Z_plus. now apply fin_integer.
Qed.

End NumberFacts.


(* ================================================================== *)
(** ** Facts about sorting *)
(* ================================================================== *)

Section SortFacts.

Context {A : Type}.
Variable cmp : A -> A -> number.

Lemma insert_sorted_Permutation (x : A) (l : list A) :
  Permutation (insert_sorted cmp x l) (x :: l).
Proof.
  induction l as [|y l IH]; simpl; [reflexivity|].
  destruct (gt (cmp x y) zero); [|reflexivity].
  rewrite IH. apply perm_swap.
Qed.

(** Sorting rearranges the array. *)
Lemma sort_Permutation (l : list A) : Permutation (sort cmp l) l.
Proof.
  induction l as [|x l IH]; simpl; [reflexivity|].
  rewrite insert_sorted_Permutation. now constructor.
Qed.

Variable R : A -> A -> Prop.
Variable dom : A -> Prop.

(** The comparator decides the order [R] on the elements in [dom]. *)
Hypothesis cmp_after : forall x y,
  dom x -> dom y -> gt (cmp x y) zero = true -> R y x.
Hypothesis cmp_before : forall x y,
  dom x -> dom y -> gt (cmp x y) zero = false -> R x y.

Lemma insert_sorted_Sorted (x : A) (l : list A) :
  dom x -> Forall dom l -> Sorted R l -> Sorted R (insert_sorted cmp x l).
Proof.
  intros Hx Hdom Hs. induction Hs as [|y l Hl IH Hhd]; simpl.
  - repeat constructor.
  - inversion Hdom as [|? ? Hy Hdom']; subst.
    destruct (gt (cmp x y) zero) eqn:E.
    + constructor; [now apply IH|].
      destruct l as [|z l]; simpl.
      * constructor. now apply cmp_after.
      * destruct (gt (cmp x z) zero).
        -- constructor. now inversion Hhd.
        -- constructor. now apply cmp_after.
    + constructor; [now constructor|].
      constructor. now apply cmp_before.
Qed.

(** Sorting puts the elements in the order of the comparator. *)
Lemma sort_Sorted (l : list A) : Forall dom l -> Sorted R (sort cmp l).
Proof.
  induction 1 as [|x l Hx Hl IH]; simpl; [constructor|].
  apply insert_sorted_Sorted; try assumption.
  eapply Permutation_Forall; [|exact Hl].
  symmetry. apply sort_Permutation.
Qed.

End SortFacts.

(* ================================================================== *)
(** ** Shares with an "Other" bucket *)
(* ================================================================== *)

Lemma filter_map_comm {A B : Type} (f : A -> B) (p : B -> bool)
  (l : list A) :
  filter p (map f l) = map f (filter (fun x => p (f x)) l).
Proof.
  induction l as [|x l IH]; [reflexivity|].
  simpl. destruct (p (f x)); simpl; now rewrite IH.
Qed.

Section SortByKey.

Context {A : Type}.
Variable key : A -> number.

Lemma finite_number (n : number) :
  finite n -> representable n /\ isNaN n = false.
Proof. intros (q & -> & Hq). split; [exact Hq | reflexivity]. Qed.

(** Sorting with the comparator [(a, b) => key(b) - key(a)] gives the
    descending order of the keys, when no key is NaN. *)
Lemma sort_descending (l : list A) :
  Forall (fun x => representable (key x) /\ isNaN (key x) = false) l ->
  Sorted (fun a b => ge (key a) (key b) = true)
         (sort (fun a b => sub (key b) (key a)) l).
Proof.
  apply (sort_Sorted _ _
           (fun x => representable (key x) /\ isNaN (key x) = false)).
  - intros x y [Rx Nx] [Ry Ny] H.
    rewrite gt_sub_lt in H by assumption.
    rewrite ge_not_lt by assumption.
    destruct (lt (key y) (key x)) eqn:E; [|reflexivity].
    destruct (key x) as [|a|[]], (key y) as [|b|[]]; try discriminate.
    apply lt_fin in H. apply lt_fin in E. lra.
  - intros x y [Rx Nx] [Ry Ny] H.
    rewrite gt_sub_lt in H by assumption.
    rewrite ge_not_lt by assumption. now rewrite H.
Qed.

(** Sorting with the comparator [(a, b) => key(a) - key(b)] gives the
    ascending order. *)
Lemma sort_ascending_keys (l : list A) :
  Forall (fun x => representable (key x) /\ isNaN (key x) = false) l ->
  Sorted (fun a b => le (key a) (key b) = true)
         (sort (fun a b => sub (key a) (key b)) l).
Proof.
  apply (sort_Sorted _ _
           (fun x => representable (key x) /\ isNaN (key x) = false)).
  - intros x y [Rx Nx] [Ry Ny] H.
    rewrite gt_sub_lt in H by assumption.
    destruct (key x) as [|a|[]], (key y) as [|b|[]]; try discriminate;
      try reflexivity.
    apply lt_fin in H. apply le_fin. lra.
  - intros x y [Rx Nx] [Ry Ny] H.
    rewrite gt_sub_lt in H by assumption.
    destruct (key x) as [|a|[]], (key y) as [|b|[]]; try discriminate;
      try reflexivity.
    apply le_fin. destruct (Qlt_le_dec b a) as [Hlt|Hle]; [|exact Hle].
    apply lt_fin in Hlt. congruence.
Qed.

End SortByKey.

(* ================================================================== *)
(** ** Shares with an "Other" bucket *)
(* ================================================================== *)

Section PieSteps.

Lemma sum_val_numbers (items : list PieItem) :
  sum_val items = sum_numbers (map val items).
Proof.
  unfold sum_val, sum_numbers. generalize zero.
  induction items as [|d items IH]; intros acc; [reflexivity|].
  simpl. apply IH.
Qed.

Lemma render_no_exclusion (totals : JsMap.t number)
  (popForPct : option number) :
  renderPieInto totals popForPct None
  = pie_entries
      (map (fun d =>
              with_pct d
                (match popForPct with
                 | Some p => if truthy p then div (val d) p else zero
                 | None => zero
                 end))
           (positive_items totals))
      (or_one popForPct).
Proof. reflexivity. Qed.

Lemma positive_items_values (totals : JsMap.t number) :
  map val (positive_items totals) = included totals.
Proof.
  unfold positive_items, included.
  rewrite !filter_map_comm, map_map. reflexivity.
Qed.

Lemma hundredth_number :
  representable hundredth /\ isNaN hundredth = false.
Proof. split; [apply fin_representable | vm_compute; reflexivity]. Qed.

(** The entries are split at one percent: those not below it are at or
    above it. *)
Lemma ge_hundredth (n : number) :
  isNaN n = false -> ge n hundredth = negb (lt n hundredth).
Proof. intros H. apply ge_not_lt; [exact H | apply hundredth_number]. Qed.

(** The last steps of [renderPieInto]: the entries of at least one percent
    in descending order of share, then the "Other" entry. *)
Lemma pie_entries_structure (items : list PieItem) (denominator : number) :
  Forall (fun d => representable (pct d) /\ isNaN (pct d) = false) items ->
  exists major : list PieItem,
    pie_entries items denominator = major ++ other_entry items denominator
    /\ Permutation major (filter (fun d => ge (pct d) hundredth) items)
    /\ descending major.
Proof.
  intros Hitems. unfold pie_entries, other_entry. cbv zeta.
  set (majf := filter (fun d => ge (pct d) hundredth) items).
  exists (sort (fun a b => sub (pct b) (pct a)) majf).
  split; [|split].
  - destruct (gt _ zero); [reflexivity | now rewrite app_nil_r].
  - apply sort_Permutation.
  - apply (sort_descending pct).
    unfold majf. apply Forall_forall. intros d Hd.
    apply filter_In in Hd as [Hd _].
    rewrite Forall_forall in Hitems. now apply Hitems.
Qed.

(** A share is a number: the quotient of a finite value by a denominator
    that is neither zero nor NaN. *)
Lemma div_number (v : Q) (p : number) :
  truthy p = true ->
  representable (div (Fin v) p) /\ isNaN (div (Fin v) p) = false.
Proof.
  destruct p as [|q|s]; [discriminate | | intros _; now split].
  unfold truthy, div. destruct (is_zero q); [discriminate|]. intros _.
  split; [apply fin_representable|].
  pose proof (fin_not_NaN (v / q)) as H.
  destruct (fin (v / q)); [congruence | reflexivity | reflexivity].
Qed.

End PieSteps.

Section ShareFacts.

Variable totals : JsMap.t number.
Hypothesis totals_finite : forall e, In e totals -> finite (snd e).

Lemma positive_items_spec :
  Forall (fun d => In (lang d, val d) totals
                   /\ exists v : Q, val d = Fin v /\ binary64 v /\ (0 < v)%Q)
         (positive_items totals).
Proof.
  apply Forall_forall. intros d Hd. unfold positive_items in Hd.
  apply filter_In in Hd as [Hd Hpos].
  apply in_map_iff in Hd as (e & <- & He). simpl in *.
  split; [now destruct e|].
  destruct (totals_finite e He) as (v & Hv & Hb). rewrite Hv in *.
  exists v. split; [reflexivity|]. split; [exact Hb|].
  apply andb_true_iff in Hpos as [_ Hgt]. now apply gt_fin in Hgt.
Qed.

Lemma included_counts :
  Forall (fun v => quantity v /\ above_zero v) (included totals).
Proof.
  rewrite <- positive_items_values. apply Forall_map.
  eapply Forall_impl; [|apply positive_items_spec].
  intros d (_ & v & -> & Hb & Hv). repeat split; try assumption.
  cbn [not_negative]. lra.
Qed.

(** The sum of the positive values is positive (or +Infinity). *)
Lemma denominator_above_zero :
  included totals <> [] -> above_zero (sum_numbers (included totals)).
Proof.
  intros H. apply sum_numbers_above_zero; [exact H | apply included_counts].
Qed.

Lemma shares_of_number (p : number) :
  truthy p = true ->
  Forall (fun d => representable (pct d) /\ isNaN (pct d) = false)
         (shares_of totals p).
Proof.
  intros Hp. unfold shares_of. apply Forall_map.
  eapply Forall_impl; [|apply positive_items_spec].
  intros d (_ & v & Hv & _). cbn [pct with_pct]. rewrite Hv.
  now apply div_number.
Qed.

Lemma render_truthy (p : number) :
  truthy p = true ->
  renderPieInto totals (Some p) None = pie_entries (shares_of totals p) p.
Proof.
  intros Hp. rewrite render_no_exclusion. unfold or_one, or_else.
  rewrite Hp. reflexivity.
Qed.

Lemma render_nothing (p : option number) :
  included totals = [] -> renderPieInto totals p None = [].
Proof.
  intros H. rewrite render_no_exclusion.
  assert (E : positive_items totals = []).
  { apply map_eq_nil with (f := val). now rewrite positive_items_values. }
  rewrite E. reflexivity.
Qed.

(** *** Whole values *)

Hypothesis totals_whole : forall e, In e totals -> whole (snd e).
Hypothesis totals_bound :
  (sumQ (map value (included totals)) <= two_pow 53)%Q.

Lemma included_whole :
  Forall (fun v => exists z : Z, (1 <= z)%Z /\ v = of_Z z) (included totals).
Proof.
  apply Forall_forall. intros v Hv. unfold included in Hv.
  apply filter_In in Hv as [Hv Hpos].
  apply in_map_iff in Hv as (e & <- & He).
  destruct (totals_whole e He) as [z Hz]. exists z. split; [|exact Hz].
  rewrite Hz in Hpos. apply andb_true_iff in Hpos as [_ Hgt].
  apply gt_fin in Hgt. change 0%Q with (inject_Z 0) in Hgt.
  rewrite <- Zlt_Qlt in Hgt. lia.
Qed.

End ShareFacts.

(** Adding up whole values that are not negative is exact as long as the
    sum does not exceed 2^53. *)
Lemma fold_add_whole (vs : list number) :
  Forall (fun v => exists z : Z, (0 <= z)%Z /\ v = of_Z z) vs ->
  forall a : Z,
    (0 <= a)%Z ->
    (inject_Z a + sumQ (map value vs) <= two_pow 53)%Q ->
    exists s : Z,
      fold_left add vs (of_Z a) = of_Z s
      /\ (inject_Z s == inject_Z a + sumQ (map value vs))%Q
      /\ (a <= s)%Z.
Proof.
  induction 1 as [|v vs (z & Hz & ->) Hvs IH]; intros a Ha Hb.
  - exists a. simpl. repeat split; [ring | lia].
  - cbn [map sumQ value of_Z] in Hb.
    assert (Hrest : (0 <= sumQ (map value vs))%Q).
    { apply sumQ_nonneg, Forall_map.
      eapply Forall_impl; [|exact Hvs].
      intros v (y & Hy & ->). cbn [value of_Z].
      change 0%Q with (inject_Z 0). now rewrite <- Zle_Qle. }
    assert (Haz : (a + z <= 2 ^ 53)%Z).
    { rewrite Zle_Qle, inject_Z_plus.
      change (inject_Z (2 ^ 53)) with (two_pow 53). lra. }
    cbn [fold_left]. rewrite add_whole by lia.
    destruct (IH (a + z)%Z) as (s & Hs & Hv & Hle); [lia| |].
    + rewrite inject_Z_plus. lra.
    + exists s. split; [exact Hs|]. split; [|lia].
      rewrite Hv, inject_Z_plus. cbn [map sumQ value of_Z]. ring.
Qed.

Section ShareTolerance.

Variable S : Z.
Hypothesis S_positive : (1 <= S)%Z.
Hypothesis S_bound : (S <= 2 ^ 53)%Z.

Lemma S_above : (0 < inject_Z S)%Q.
Proof. change 0%Q with (inject_Z 0). rewrite <- Zlt_Qlt. lia. Qed.

(** The share of a whole value in a whole total of at most 2^53 is within
    2^-53, relatively, of the exact quotient. *)
Lemma whole_share_close (z : Z) :
  (1 <= z <= S)%Z ->
  exists r : Q,
    div (of_Z z) (of_Z S) = Fin r
    /\ (Qabs (r - inject_Z z / inject_Z S)
        <= inject_Z z / inject_Z S * two_pow (-53))%Q.
Proof.
  intros Hz. pose proof S_above as Hs.
  unfold div, of_Z. rewrite is_zero_false by lra.
  assert (Iz : (1 <= inject_Z z)%Q).
  { change 1%Q with (inject_Z 1). rewrite <- Zle_Qle. lia. }
  assert (Is : (inject_Z z <= inject_Z S)%Q) by (rewrite <- Zle_Qle; lia).
  assert (Ib : (inject_Z S <= two_pow 53)%Q).
  { change (two_pow 53) with (inject_Z (2 ^ 53)). now rewrite <- Zle_Qle. }
  apply fin_error.
  - apply Qle_shift_div_l; [exact Hs|].
    apply Qle_trans with (two_pow (-1022) * two_pow 53)%Q.
    + apply Qmult_le_l; [apply two_pow_pos | exact Ib].
    + apply Qle_trans with 1%Q; [|exact Iz]. vm_compute. discriminate.
  - apply Qle_shift_div_r; [exact Hs|].
    apply Qle_trans with (inject_Z S); [exact Is|].
    rewrite <- (Qmult_1_l (inject_Z S)) at 1.
    apply Qmult_le_compat_r; [|lra]. vm_compute. discriminate.
Qed.

(** An entry with a whole value and its share of [S]. *)
Let whole_share (d : PieItem) : Prop :=
  exists z : Z,
    (1 <= z <= S)%Z /\ val d = of_Z z /\ pct d = div (of_Z z) (of_Z S).

Let exact_share (l : list PieItem) : Q :=
  (sumQ (map (fun d => value (val d)) l) / inject_Z S)%Q.

Lemma exact_share_cons (d : PieItem) (l : list PieItem) :
  (exact_share (d :: l)
   == value (val d) / inject_Z S + exact_share l)%Q.
Proof.
  unfold exact_share. cbn [map sumQ]. pose proof S_above. field. lra.
Qed.

Lemma exact_share_nonneg (l : list PieItem) :
  Forall whole_share l -> (0 <= exact_share l)%Q.
Proof.
  intros H. unfold exact_share. pose proof S_above as Hs.
  apply Qle_shift_div_l; [exact Hs|]. rewrite Qmult_0_l.
  apply sumQ_nonneg, Forall_map. eapply Forall_impl; [|exact H].
  intros d (z & Hz & -> & _). cbn [value of_Z].
  change 0%Q with (inject_Z 0). rewrite <- Zle_Qle. lia.
Qed.

Lemma shares_close (l : list PieItem) :
  Forall whole_share l ->
  (Qabs (share_sum l - exact_share l) <= exact_share l * two_pow (-53))%Q.
Proof.
  induction 1 as [|d l (z & Hz & Hv & Hp) Hl IH].
  - assert (E : (exact_share [] == 0)%Q).
    { unfold exact_share. cbn [map sumQ]. pose proof S_above. field. lra. }
    change (share_sum []) with 0%Q. rewrite E. discriminate.
  - destruct (whole_share_close z Hz) as (r & Hr & Hc).
    rewrite exact_share_cons. unfold share_sum. cbn [map sumQ].
    fold (share_sum l). rewrite Hp, Hr, Hv. cbn [value of_Z].
    set (x := (inject_Z z / inject_Z S)%Q) in *.
    set (e := exact_share l) in *. set (s := share_sum l) in *.
    setoid_replace (r + s - (x + e))%Q with ((r - x) + (s - e))%Q by ring.
    eapply Qle_trans; [apply Qabs_triangle|].
    setoid_replace ((x + e) * two_pow (-53))%Q
      with (x * two_pow (-53) + e * two_pow (-53))%Q by ring.
    now apply Qplus_le_compat.
Qed.

Lemma whole_share_number (l : list PieItem) :
  Forall whole_share l ->
  Forall (fun d => representable (pct d) /\ isNaN (pct d) = false) l.
Proof.
  intros H. eapply Forall_impl; [|exact H].
  intros d (z & _ & _ & ->). unfold of_Z. apply div_number.
  unfold truthy. rewrite is_zero_false; [reflexivity|].
  pose proof S_above. lra.
Qed.

Lemma whole_share_filter (f : PieItem -> bool) (l : list PieItem) :
  Forall whole_share l -> Forall whole_share (filter f l).
Proof.
  rewrite !Forall_forall. intros H d Hd.
  apply filter_In in Hd as [Hd _]. now apply H.
Qed.

(** Every entry is at or above one percent, or below it. *)
Lemma exact_share_split (l : list PieItem) :
  Forall whole_share l ->
  (exact_share (filter (fun d => ge (pct d) hundredth) l)
   + exact_share (filter (fun d => lt (pct d) hundredth) l)
   == exact_share l)%Q.
Proof.
  intros H. pose proof (whole_share_number l H) as Hn.
  pose proof S_above as Hs.
  induction Hn as [|d l [_ Hd] Hl IH].
  - unfold exact_share. cbn [filter map sumQ]. field. lra.
  - inversion H as [|? ? _ H']; subst. specialize (IH H').
    cbn [filter]. rewrite (ge_hundredth _ Hd).
    destruct (lt (pct d) hundredth); cbn [negb];
      rewrite !exact_share_cons; lra.
Qed.

Lemma sum_val_whole (l : list PieItem) :
  Forall whole_share l ->
  (sumQ (map (fun d => value (val d)) l) <= inject_Z S)%Q ->
  exists M : Z,
    sum_val l = of_Z M
    /\ (inject_Z M == sumQ (map (fun d => value (val d)) l))%Q
    /\ (0 <= M <= S)%Z.
Proof.
  intros H Hb. rewrite sum_val_numbers.
  destruct (fold_add_whole (map val l)) with (a := 0%Z)
    as (M & HM & Hv & Hle).
  - apply Forall_map. eapply Forall_impl; [|exact H].
    intros d (z & Hz & Hv & _). exists z. split; [lia | exact Hv].
  - lia.
  - rewrite map_map. change (inject_Z 0) with 0%Q. rewrite Qplus_0_l.
    eapply Qle_trans; [exact Hb|].
    change (two_pow 53) with (inject_Z (2 ^ 53)). now rewrite <- Zle_Qle.
  - rewrite map_map in Hv. change (inject_Z 0) with 0%Q in Hv.
    rewrite Qplus_0_l in Hv.
    exists M. split; [exact HM|]. split; [exact Hv|]. split; [exact Hle|].
    rewrite Zle_Qle, Hv. exact Hb.
Qed.

(** The shares of the entries drawn are within 2^-53 of 1 in sum. *)
Lemma pie_entries_close (items : list PieItem) :
  Forall whole_share items ->
  (sumQ (map (fun d => value (val d)) items) == inject_Z S)%Q ->
  (Qabs (share_sum (pie_entries items (of_Z S)) - 1)
   <= two_pow (-53))%Q.
Proof.
  intros Hitems Htotal. pose proof S_above as Hs.
  destruct (pie_entries_structure items (of_Z S)
              (whole_share_number items Hitems))
    as (major & -> & Hperm & _).
  set (majf := filter (fun d => ge (pct d) hundredth) items) in *.
  set (minor := filter (fun d => lt (pct d) hundredth) items).
  assert (Hmajf : Forall whole_share majf) by now apply whole_share_filter.
  assert (Hminor : Forall whole_share minor) by now apply whole_share_filter.
  pose proof (exact_share_split items Hitems) as Hsplit.
  fold majf minor in Hsplit.
  assert (Hone : (exact_share items == 1)%Q).
  { unfold exact_share. rewrite Htotal. field. lra. }
  rewrite Hone in Hsplit.
  pose proof (exact_share_nonneg majf Hmajf) as Nmaj.
  pose proof (exact_share_nonneg minor Hminor) as Nmin.
  assert (Hmb : (sumQ (map (fun d => value (val d)) minor)
                 <= inject_Z S)%Q).
  { assert (E : (sumQ (map (fun d => value (val d)) minor)
                 == exact_share minor * inject_Z S)%Q).
    { unfold exact_share. field. lra. }
    rewrite E. nra. }
  destruct (sum_val_whole minor Hminor Hmb) as (M & HM & HMv & HMr).
  assert (Hmaj : (share_sum major == share_sum majf)%Q).
  { unfold share_sum. apply sumQ_Permutation. now apply Permutation_map. }
  pose proof (shares_close majf Hmajf) as Cmaj.
  assert (EM : (exact_share minor == inject_Z M / inject_Z S)%Q).
  { unfold exact_share. now rewrite HMv. }
  unfold share_sum. rewrite map_app, sumQ_app.
  fold (share_sum major). rewrite Hmaj.
  unfold other_entry. fold minor. cbv zeta. rewrite HM.
  set (u := two_pow (-53)) in *.
  assert (Pu : (0 < u)%Q) by apply two_pow_pos.
  destruct (gt (of_Z M) zero) eqn:Hgt.
  - apply gt_fin in Hgt. change 0%Q with (inject_Z 0) in Hgt.
    rewrite <- Zlt_Qlt in Hgt.
    destruct (whole_share_close M) as (r & Hr & Hc); [lia|].
    cbn [map sumQ pct]. rewrite Hr. cbn [value].
    rewrite <- EM in Hc. fold u in Hc.
    set (a := share_sum majf) in *. set (x := exact_share majf) in *.
    set (y := exact_share minor) in *.
    apply Qabs_Qle_condition in Cmaj. apply Qabs_Qle_condition in Hc.
    assert (Eu : (x * u + y * u == u)%Q).
    { rewrite <- Qmult_plus_distr_l, Hsplit. ring. }
    apply Qabs_Qle_condition. split; lra.
  - assert (M0 : M = 0%Z).
    { destruct (Z.eq_dec M 0) as [E|E]; [exact E|].
      assert (G : gt (of_Z M) zero = true); [|congruence].
      apply gt_fin. change 0%Q with (inject_Z 0). rewrite <- Zlt_Qlt. lia. }
    assert (Y0 : (exact_share minor == 0)%Q).
    { rewrite EM, M0. field. lra. }
    cbn [map sumQ].
    set (a := share_sum majf) in *. set (x := exact_share majf) in *.
    apply Qabs_Qle_condition in Cmaj.
    assert (Eu : (x * u == u)%Q).
    { assert (X1 : (x == 1)%Q) by lra. rewrite X1. ring. }
    apply Qabs_Qle_condition. split; lra.
Qed.

End ShareTolerance.

Section ShareTheorem.

Lemma sumQ_member (l : list Q) (x : Q) :
  Forall (fun q => 0 <= q)%Q l -> In x l -> (x <= sumQ l)%Q.
Proof.
  induction 1 as [|q l Hq Hl IH]; intros Hx; [destruct Hx|].
  pose proof (sumQ_nonneg l Hl) as Hs.
  destruct Hx as [<-|Hx]; cbn [sumQ]; [lra|].
  specialize (IH Hx). lra.
Qed.

Lemma shares_of_values (totals : JsMap.t number) (p : number) :
  map val (shares_of totals p) = included totals.
Proof.
  unfold shares_of. rewrite map_map. cbn [val with_pct].
  apply positive_items_values.
Qed.

Lemma shares_of_In (totals : JsMap.t number) (p : number) (d : PieItem) :
  In d (shares_of totals p) -> In (lang d, val d) totals.
Proof.
  unfold shares_of, positive_items. intros H.
  apply in_map_iff in H as (d0 & <- & H).
  apply filter_In in H as [H _].
  apply in_map_iff in H as (e & <- & He). cbn [lang val with_pct].
  now destruct e.
Qed.

(** What is drawn with the sum of the positive values as denominator. *)
Lemma render_structure (totals : JsMap.t number) :
  (forall e, In e totals -> finite (snd e)) ->
  included totals <> [] ->
  let denominator := sum_numbers (included totals) in
  exists major : list PieItem,
    renderPieInto totals (Some denominator) None
    = major ++ other_entry (shares_of totals denominator) denominator
    /\ Permutation major
         (filter (fun d => ge (pct d) hundredth)
                 (shares_of totals denominator))
    /\ descending major.
Proof.
  intros Hfin Hne denominator.
  assert (Ht : truthy denominator = true).
  { apply above_zero_truthy, denominator_above_zero; assumption. }
  rewrite (render_truthy totals denominator Ht).
  apply pie_entries_structure. now apply shares_of_number.
Qed.

(** With whole values that sum to at most 2^53, the shares drawn sum to 1
    within 2^-53. *)
Lemma render_sum_close (totals : JsMap.t number) :
  (forall e, In e totals -> finite (snd e)) ->
  included totals <> [] ->
  (forall e, In e totals -> whole (snd e)) ->
  (sumQ (map value (included totals)) <= two_pow 53)%Q ->
  (Qabs
     (share_sum
        (renderPieInto totals (Some (sum_numbers (included totals))) None)
      - 1)
   <= two_pow (-53))%Q.
Proof.
  intros Hfin Hne Hwhole Hbound.
  set (denominator := sum_numbers (included totals)).
  pose proof (included_whole totals Hwhole) as Hinc.
  destruct (fold_add_whole (included totals)) with (a := 0%Z)
    as (S & HS & HSv & HS0).
  { eapply Forall_impl; [|exact Hinc].
    intros v (z & Hz & ->). exists z. split; [lia | reflexivity]. }
  { lia. }
  { change (inject_Z 0) with 0%Q. now rewrite Qplus_0_l. }
  change (inject_Z 0) with 0%Q in HSv. rewrite Qplus_0_l in HSv.
  change (fold_left add (included totals) (of_Z 0))
    with (sum_numbers (included totals)) in HS.
  fold denominator in HS.
  assert (Hnn : Forall (fun q => 0 <= q)%Q (map value (included totals))).
  { apply Forall_map. eapply Forall_impl; [|exact Hinc].
    intros v (z & Hz & ->). cbn [value of_Z].
    change 0%Q with (inject_Z 0). rewrite <- Zle_Qle. lia. }
  assert (Hmem : forall z : Z,
            In (of_Z z) (included totals) -> (z <= S)%Z).
  { intros z Hz. rewrite Zle_Qle, HSv.
    apply sumQ_member; [exact Hnn|].
    apply in_map_iff. exists (of_Z z). now split. }
  assert (HS1 : (1 <= S)%Z).
  { destruct (included totals) as [|v rest] eqn:E; [congruence|].
    inversion Hinc as [|? ? (z & Hz & Hv) _]; subst.
    specialize (Hmem z (or_introl eq_refl)). lia. }
  assert (HSb : (S <= 2 ^ 53)%Z).
  { rewrite Zle_Qle, HSv. exact Hbound. }
  assert (Ht : truthy denominator = true).
  { apply above_zero_truthy, denominator_above_zero; assumption. }
  rewrite (render_truthy totals denominator Ht), HS.
  apply (pie_entries_close S HS1 HSb).
  + unfold shares_of. apply Forall_map, Forall_forall. intros d Hd.
    assert (Hv : In (val d) (included totals)).
    { rewrite <- positive_items_values. now apply in_map. }
    rewrite Forall_forall in Hinc.
    destruct (Hinc _ Hv) as (z & Hz & Ez).
    exists z. cbn [val pct with_pct]. rewrite Ez in *.
    split; [|split; reflexivity].
    split; [exact Hz | now apply Hmem].
  + rewrite <- (map_map val value), shares_of_values. now rewrite HSv.
Qed.



(** The entries drawn for the sample: the shares are the binary64 values
    nearest to 0.9, 0.095 and 0.005. *)
Lemma renderPieInto_sample :
  renderPieInto sample_totals (Some (Fin 1000)) None
  = [ {| lang := js "English"; val := Fin 900;
         pct := Fin (8106479329266893 # 9007199254740992) |};
      {| lang := js "Spanish"; val := Fin 95;
         pct := Fin (3422735716801577 # 36028797018963968) |};
      {| lang := Other; val := Fin 5;
         pct := Fin (5764607523034235 # 1152921504606846976) |} ].
Proof. vm_compute. reflexivity. Qed.


End ShareTheorem.


(* ================================================================== *)
(** ** Further facts about the numeric field parser *)
(* ================================================================== *)

Section ParserCompleteness.

(** A token under construction is always emitted. *)
Lemma scan_pending (s : list ascii) :
  forall tok,
    scan_numbers (InInt tok) s <> [] /\ scan_numbers (InFrac tok) s <> [].
Proof.
  induction s as [|c r IH]; intros tok; simpl; [split; discriminate|].
  destruct (is_digit c).
  - split; apply IH.
  - split; [|discriminate].
    destruct (Ascii.eqb c "." && head_is_digit r); [apply IH | discriminate].
Qed.

Lemma scan_finds_digit (s : list ascii) :
  (exists c, In c s /\ is_digit c = true) -> scan_numbers Idle s <> [].
Proof.
  induction s as [|c r IH]; intros (d & Hin & Hd); [destruct Hin|].
  simpl. destruct (is_digit c) eqn:Hc.
  - apply scan_pending.
  - apply IH. destruct Hin as [->|Hin]; [congruence|]. now exists d.
Qed.

Lemma no_digit_dec (s : list ascii) :
  (forall c, In c s -> is_digit c = false)
  \/ exists c, In c s /\ is_digit c = true.
Proof.
  induction s as [|c r [IH|(d & Hin & Hd)]].
  - left. intros c [].
  - destruct (is_digit c) eqn:Hc.
    + right. exists c. split; [now left | assumption].
    + left. intros d [<-|Hd]; auto.
  - right. exists d. split; [now right | assumption].
Qed.

(** X1.  [parseSpeakers] gives [null] exactly for the fields whose cleaned text
    contains no digit. *)
Theorem parseSpeakers_null_iff_no_digit :
  forall r : list ascii,
    parseSpeakers (Some r) = None
    <-> (forall c, In c (cleaned r) -> is_digit c = false).
Proof.
  intros r. rewrite parseSpeakers_unfold. split.
  - intros H. destruct (is_empty (trim r)) eqn:He.
    + rewrite cleaned_of_blank; [intros c [] |].
      destruct (trim r); [reflexivity | discriminate].
    + destruct (candidates r) as [|first rest] eqn:Hc.
      * destruct (no_digit_dec (cleaned r)) as [Hno|Hyes]; [exact Hno|].
        apply scan_finds_digit in Hyes. unfold candidates in Hc.
        apply map_eq_nil in Hc. contradiction.
      * cbv zeta in H. destruct (includes "-" (cleaned r) && _);
          discriminate.
  - intros H. destruct (is_empty (trim r)); [reflexivity|].
    unfold candidates, match_numbers. now rewrite scan_no_digit.
Qed.

End ParserCompleteness.


Section PlainIntegers.

Lemma drop_while_none (p : ascii -> bool) (s : list ascii) :
  (forall c, In c s -> p c = false) -> drop_while p s = s.
Proof.
  destruct s as [|c r]; [reflexivity|]. intros H. simpl.
  now rewrite (H c) by now left.
Qed.

(** Text without white space is unchanged by [trim]. *)
Lemma trim_no_space (s : list ascii) :
  (forall c, In c s -> is_space c = false) -> trim s = s.
Proof.
  intros H. unfold trim, trimEnd, trimStart.
  rewrite (drop_while_none _ s H).
  rewrite drop_while_none; [apply rev_involutive|].
  intros c Hc. apply H. now apply in_rev.
Qed.

(** Text without an opening parenthesis has no parenthetical note. *)
Lemma strip_parens_no_open (s : list ascii) :
  (forall c, In c s -> c <> "(") -> strip_parens s = s.
Proof.
  unfold strip_parens. induction s as [|c r IH]; intros H; [reflexivity|].
  simpl. assert (E : Ascii.eqb c "(" = false).
  { apply Ascii.eqb_neq. apply H. now left. }
  rewrite E. simpl. f_equal. apply IH. intros d Hd. apply H. now right.
Qed.

Lemma scan_all_digits (ds : list ascii) :
  all_digits ds -> forall tok, scan_numbers (InInt tok) ds = [tok ++ ds].
Proof.
  induction ds as [|d ds IH]; intros Hd tok; simpl.
  - now rewrite app_nil_r.
  - rewrite (Hd d) by now left.
    rewrite IH by (intros c Hc; apply Hd; now right).
    now rewrite <- app_assoc.
Qed.

(** A run of digits converts to the binary64 value nearest to its decimal
    value. *)
Lemma parseFloat_digits (ds : list ascii) :
  ds <> [] -> all_digits ds ->
  parseFloat ds = fin (inject_Z (digits_value ds)).
Proof.
  intros Hne Hd. destruct ds as [|d ds']; [congruence|].
  rewrite parseFloat_digits_first by (apply Hd; now left).
  rewrite decimal_prefix_int by assumption.
  apply fin_morph. unfold mantissa.
  rewrite app_nil_r. simpl Datatypes.length.
  change (inject_Z (10 ^ Z.of_nat 0)) with 1%Q. field.
Qed.

(** X2.  A field made of digits and thousands separators only parses to the
    binary64 value nearest to the integer its digits spell: to that
    integer itself when it is at most 2^53. *)
Theorem parseSpeakers_digits_and_commas :
  forall r : list ascii,
    (forall c, In c r -> is_digit c = true \/ c = ",") ->
    (exists c, In c r /\ is_digit c = true) ->
    parseSpeakers (Some r)
    = Some (fin (inject_Z (digits_value (remove_char "," r))))
    /\ ((digits_value (remove_char "," r) <= 2 ^ 53)%Z ->
        parseSpeakers (Some r)
        = Some (of_Z (digits_value (remove_char "," r)))).
Proof.
  intros r Hchars (d0 & Hin0 & Hd0).
  assert (Hexact :
    parseSpeakers (Some r)
    = Some (fin (inject_Z (digits_value (remove_char "," r))))
    -> parseSpeakers (Some r)
       = Some (fin (inject_Z (digits_value (remove_char "," r))))
       /\ ((digits_value (remove_char "," r) <= 2 ^ 53)%Z ->
           parseSpeakers (Some r)
           = Some (of_Z (digits_value (remove_char "," r))))).
  { intros E. split; [exact E|]. intros Hb. rewrite E. f_equal.
    apply fin_integer.
    pose proof (digits_value_nonneg (remove_char "," r)). lia. }
  apply Hexact.
  assert (Hns : forall c, In c r -> is_space c = false).
  { intros c Hc. destruct (Hchars c Hc) as [H| ->]; [|reflexivity].
    now apply digit_plain. }
  assert (Hnp : forall c, In c r -> c <> "(").
  { intros c Hc. destruct (Hchars c Hc) as [H| ->]; [|discriminate].
    intros ->. discriminate. }
  set (ds := remove_char "," r).
  assert (Hds : all_digits ds).
  { intros c Hc. unfold ds, remove_char in Hc.
    apply filter_In in Hc as [Hc Hcomma].
    destruct (Hchars c Hc) as [H| ->]; [assumption | discriminate]. }
  assert (Hne : ds <> []).
  { assert (Hin : In d0 ds).
    { unfold ds, remove_char. apply filter_In. split; [assumption|].
      apply negb_true_iff, Ascii.eqb_neq. intros ->. discriminate. }
    intros E. rewrite E in Hin. destruct Hin. }
  assert (Hclean : cleaned r = ds).
  { unfold cleaned. rewrite (trim_no_space r Hns).
    rewrite (strip_parens_no_open r Hnp). fold ds.
    apply trim_no_space. intros c Hc. now apply digit_plain, Hds. }
  rewrite parseSpeakers_unfold, (trim_no_space r Hns).
  destruct r as [|c0 r0]; [destruct Hin0|]. cbn [is_empty].
  unfold candidates. rewrite Hclean. unfold match_numbers.
  destruct ds as [|d ds'] eqn:Eds; [congruence|].
  cbn [scan_numbers]. rewrite (Hds d) by now left.
  rewrite scan_all_digits by (intros c Hc; apply Hds; now right).
  cbn [map app Datatypes.length]. rewrite andb_false_r.
  now rewrite parseFloat_digits.
Qed.

Lemma parseSpeakers_digits_and_commas_witness :
  parseSpeakers (Some (js "25,145,561"))
  = Some (fin (inject_Z (digits_value (remove_char "," (js "25,145,561")))))
  /\ ((digits_value (remove_char "," (js "25,145,561")) <= 2 ^ 53)%Z ->
      parseSpeakers (Some (js "25,145,561"))
      = Some (of_Z (digits_value (remove_char "," (js "25,145,561"))))).
Proof.
  apply (parseSpeakers_digits_and_commas (js "25,145,561")).
  - intros c Hc. vm_compute in Hc.
    repeat (destruct Hc as [<-|Hc];
            [first [left; reflexivity | right; reflexivity]|]).
    destruct Hc.
  - exists "2". split; [now left | reflexivity].
Defined.

(** Beyond 2^53 the nearest binary64 value need not be the integer: the
    field "9007199254740993" parses to 9007199254740992. *)
Lemma parseSpeakers_beyond_exact_integers :
  parseSpeakers (Some (js "9007199254740993"))
  = Some (Fin 9007199254740992).
Proof. vm_compute. reflexivity. Qed.

End PlainIntegers.


(* ================================================================== *)
(** ** Letter case and the canonicaliser *)
(* ================================================================== *)

Section CaseFacts.

(** What lowering a character preserves. *)
Lemma lower_char_facts (c : ascii) :
  is_space (lower_char c) = is_space c
  /\ is_word (lower_char c) = is_word c
  /\ is_line_terminator (lower_char c) = is_line_terminator c
  /\ Ascii.eqb (lower_char c) "." = Ascii.eqb c "."
  /\ Ascii.eqb (lower_char c) "(" = Ascii.eqb c "("
  /\ Ascii.eqb (lower_char c) ")" = Ascii.eqb c ")"
  /\ upper_char (lower_char c) = upper_char c
  /\ lower_char (lower_char c) = lower_char c
  /\ lower_char (upper_char c) = lower_char c.
Proof.
  destruct c as [[] [] [] [] [] [] [] []]; vm_compute; repeat split.
Qed.

Lemma drop_while_map (p : ascii -> bool) (f : ascii -> ascii)
  (s : list ascii) :
  (forall c, p (f c) = p c) ->
  drop_while p (map f s) = map f (drop_while p s).
Proof.
  intros H. induction s as [|c r IH]; [reflexivity|].
  simpl. rewrite H. destruct (p c); [exact IH | reflexivity].
Qed.

Lemma trim_lower (s : list ascii) :
  trim (toLowerCase s) = toLowerCase (trim s).
Proof.
  assert (H : forall c, is_space (lower_char c) = is_space c)
    by (intros c; apply lower_char_facts).
  unfold trim, trimEnd, trimStart, toLowerCase.
  rewrite drop_while_map by exact H.
  rewrite <- map_rev, drop_while_map by exact H.
  now rewrite map_rev.
Qed.

Lemma remove_period_lower (s : list ascii) :
  remove_char "." (toLowerCase s) = toLowerCase (remove_char "." s).
Proof.
  unfold remove_char, toLowerCase. rewrite filter_map_comm. f_equal.
  apply filter_ext. intros c.
  now rewrite (proj1 (proj2 (proj2 (proj2 (lower_char_facts c))))).
Qed.

Lemma collapse_lower (s : list ascii) :
  forall in_run,
    collapse_from in_run (toLowerCase s)
    = toLowerCase (collapse_from in_run s).
Proof.
  induction s as [|c r IH]; intros in_run; [reflexivity|].
  simpl. rewrite (proj1 (lower_char_facts c)).
  destruct (is_space c); [destruct in_run|]; simpl; now rewrite IH.
Qed.

Lemma closes_lower (s : list ascii) : closes (toLowerCase s) = closes s.
Proof.
  unfold toLowerCase.
  induction s as [|c r IH]; [reflexivity|]. cbn [map closes].
  destruct (lower_char_facts c) as (_ & _ & Ht & _ & _ & Hc & _).
  now rewrite Hc, Ht, IH.
Qed.

Lemma strip_parens_lower (s : list ascii) :
  forall inside,
    strip_parens_from inside (toLowerCase s)
    = toLowerCase (strip_parens_from inside s).
Proof.
  pose proof closes_lower as Hcl. unfold toLowerCase in *.
  induction s as [|c r IH]; intros inside; [reflexivity|].
  cbn [map strip_parens_from].
  destruct (lower_char_facts c) as (_ & _ & _ & _ & Ho & Hc & _).
  rewrite Hc, Ho, Hcl.
  destruct inside.
  - destruct (Ascii.eqb c ")"); apply IH.
  - destruct (Ascii.eqb c "(" && closes r); cbn [map]; now rewrite IH.
Qed.

Lemma starts_with_ci_lower (p s : list ascii) :
  starts_with_ci p (toLowerCase s) = starts_with_ci p s.
Proof.
  revert s. induction p as [|a p IH]; intros [|c s]; try reflexivity.
  simpl. rewrite IH.
  now rewrite (proj1 (proj2 (proj2 (proj2 (proj2 (proj2 (proj2
                 (proj2 (lower_char_facts c))))))))).
Qed.

Lemma boundary_lower (b : bool) (s : list ascii) :
  boundary b (toLowerCase s) = boundary b s.
Proof.
  destruct s as [|c s]; [reflexivity|]. simpl.
  now rewrite (proj1 (proj2 (lower_char_facts c))).
Qed.

Lemma remove_state_lower (s : list ascii) :
  forall prev,
    remove_state_from prev (toLowerCase s)
    = toLowerCase (remove_state_from prev s).
Proof.
  induction s as [|c r IH]; intros prev; [reflexivity|].
  change (toLowerCase (c :: r)) with (lower_char c :: toLowerCase r).
  cbn [remove_state_from].
  change (lower_char c :: toLowerCase r) with (toLowerCase (c :: r)).
  rewrite boundary_lower, starts_with_ci_lower.
  unfold toLowerCase at 1. rewrite skipn_map. fold (toLowerCase (skipn 5 (c :: r))).
  rewrite boundary_lower.
  destruct (boundary prev (c :: r) && starts_with_ci (js "state") (c :: r)
            && boundary true (skipn 5 (c :: r))).
  - unfold toLowerCase. now rewrite skipn_map.
  - rewrite (proj1 (proj2 (lower_char_facts c))).
    change (toLowerCase (c :: remove_state_from (is_word c) r))
      with (lower_char c :: toLowerCase (remove_state_from (is_word c) r)).
    f_equal. apply IH.
Qed.

Lemma split_lower (s : list ascii) :
  forall in_run cur,
    split_from in_run (toLowerCase cur) (toLowerCase s)
    = map toLowerCase (split_from in_run cur s).
Proof.
  induction s as [|c r IH]; intros in_run cur; [reflexivity|].
  simpl. rewrite (proj1 (lower_char_facts c)).
  destruct (is_space c).
  - destruct in_run; simpl; [apply (IH true []) | f_equal; apply (IH true [])].
  - rewrite <- IH. f_equal. unfold toLowerCase. now rewrite map_app.
Qed.

Lemma title_word_lower (w : list ascii) :
  title_word (toLowerCase w) = title_word w.
Proof.
  unfold title_word, toLowerCase, toUpperCase.
  rewrite firstn_map, skipn_map, !map_map. f_equal; apply map_ext; intros c.
  - apply lower_char_facts.
  - apply lower_char_facts.
Qed.

Lemma toUpperCase_lower (s : list ascii) :
  toUpperCase (toLowerCase s) = toUpperCase s.
Proof.
  unfold toUpperCase, toLowerCase. rewrite map_map.
  apply map_ext. intros c. apply lower_char_facts.
Qed.

Lemma toLowerCase_idem (s : list ascii) :
  toLowerCase (toLowerCase s) = toLowerCase s.
Proof.
  unfold toLowerCase. rewrite map_map.
  apply map_ext. intros c. apply lower_char_facts.
Qed.

Lemma toLowerCase_upper (s : list ascii) :
  toLowerCase (toUpperCase s) = toLowerCase s.
Proof.
  unfold toUpperCase, toLowerCase. rewrite map_map.
  apply map_ext. intros c. apply lower_char_facts.
Qed.

Lemma canonicalStateName_lower (r : list ascii) :
  canonicalStateName (Some (toLowerCase r)) = canonicalStateName (Some r).
Proof.
  unfold canonicalStateName.
  rewrite trim_lower.
  destruct (trim r) as [|c0 t0] eqn:Et; [reflexivity|].
  change (is_empty (toLowerCase (c0 :: t0))) with false. cbv iota.
  cbn [is_empty].
  rewrite remove_period_lower.
  unfold collapse_spaces. rewrite collapse_lower, trim_lower.
  set (s := trim (collapse_from false (remove_char "." (c0 :: t0)))).
  unfold toLowerCase at 1. rewrite length_map.
  rewrite toUpperCase_lower.
  destruct (if Datatypes.length s =? 2
            then abbrev_lookup (toUpperCase s) else None); [reflexivity|].
  unfold strip_parens, remove_state.
  rewrite strip_parens_lower, remove_state_lower, trim_lower.
  set (clean := trim (remove_state_from false (strip_parens_from false s))).
  rewrite toLowerCase_idem.
  destruct (find _ state_names); [reflexivity|].
  unfold split_spaces.
  change (split_from false [] (toLowerCase clean))
    with (split_from false (toLowerCase []) (toLowerCase clean)).
  rewrite split_lower, map_map. f_equal.
  apply map_ext. intros w. apply title_word_lower.
Qed.

(** X3.  The canonical name does not depend on the letter case of the
    reference. *)
Theorem canonicalStateName_case_insensitive :
  forall r : list ascii,
    canonicalStateName (Some (toLowerCase r)) = canonicalStateName (Some r)
    /\ canonicalStateName (Some (toUpperCase r))
       = canonicalStateName (Some r).
Proof.
  intros r. split; [apply canonicalStateName_lower|].
  rewrite <- (canonicalStateName_lower (toUpperCase r)).
  rewrite toLowerCase_upper. apply canonicalStateName_lower.
Qed.

End CaseFacts.


(* ================================================================== *)
(** ** The code table and the feature names *)
(* ================================================================== *)

Section TableFacts.

Lemma abbrevToName_check :
  forallb
    (fun p =>
       JsString.eqb (canonicalStateName (Some (fst p))) (snd p)
       && JsString.eqb (canonicalStateName (Some (snd p))) (snd p))
    abbrevToName = true.
Proof. vm_compute. reflexivity. Qed.

(** X4.  Every code of the table, in upper or lower case, and every full name,
    in any letter case, canonicalises to the full name. *)
Theorem canonicalStateName_known :
  forall code name : list ascii,
    In (code, name) abbrevToName ->
    canonicalStateName (Some code) = name
    /\ canonicalStateName (Some (toLowerCase code)) = name
    /\ canonicalStateName (Some name) = name
    /\ canonicalStateName (Some (toLowerCase name)) = name
    /\ canonicalStateName (Some (toUpperCase name)) = name.
Proof.
  intros code name Hin.
  pose proof abbrevToName_check as H.
  rewrite forallb_forall in H. specialize (H _ Hin).
  apply andb_true_iff in H as [Hc Hn]. cbn [fst snd] in Hc, Hn.
  apply eqb_eq in Hc, Hn.
  repeat split; try assumption.
  - now rewrite canonicalStateName_lower.
  - now rewrite canonicalStateName_lower.
  - rewrite <- (canonicalStateName_lower (toUpperCase name)).
    rewrite toLowerCase_upper. now rewrite canonicalStateName_lower.
Qed.

Lemma canonicalStateName_known_witness :
  canonicalStateName (Some (js "CA")) = js "California"
  /\ canonicalStateName (Some (toLowerCase (js "CA"))) = js "California"
  /\ canonicalStateName (Some (js "California")) = js "California"
  /\ canonicalStateName (Some (toLowerCase (js "California")))
     = js "California"
  /\ canonicalStateName (Some (toUpperCase (js "California")))
     = js "California".
Proof.
  apply (canonicalStateName_known (js "CA") (js "California")).
  vm_compute. tauto.
Defined.

Lemma fixed_names_check :
  forallb
    (fun n => negb (is_empty n)
              && JsString.eqb (canonicalStateName (Some n)) n)
    (Unknown :: state_names ++ map snd stateIds) = true.
Proof. vm_compute. reflexivity. Qed.

Lemma fixed_name (n : list ascii) :
  n = Unknown \/ In n state_names \/ In n (map snd stateIds) ->
  n <> [] /\ canonicalStateName (Some n) = n.
Proof.
  intros H. pose proof fixed_names_check as Hc.
  rewrite forallb_forall in Hc.
  assert (Hin : In n (Unknown :: state_names ++ map snd stateIds)).
  { destruct H as [->|[H|H]]; [now left | |];
      right; apply in_app_iff; tauto. }
  specialize (Hc _ Hin). apply andb_true_iff in Hc as [Hne Hfix].
  apply eqb_eq in Hfix. split; [|assumption].
  intros ->. discriminate.
Qed.

Lemma abbrev_lookup_known (up name : list ascii) :
  abbrev_lookup up = Some name -> In name state_names.
Proof.
  unfold abbrev_lookup, state_names.
  destruct (find _ abbrevToName) as [p|] eqn:E; [|discriminate].
  intros [= <-]. apply find_some in E as [Hin _]. now apply in_map.
Qed.

Lemma name_of_id_fixed (d : Feature) :
  match name_of_id d with
  | Text n => n = Unknown \/ In n (map snd stateIds)
  | Inherited key => id d = Some key /\ In key inherited_keys
  end.
Proof.
  unfold name_of_id. destruct (id d) as [i|]; [|now left].
  destruct (JsMap.get stateIds i) as [name|] eqn:E.
  - right. apply get_Some_In in E.
    change name with (snd (i, name)). now apply in_map.
  - destruct (existsb (JsString.eqb i) inherited_keys) eqn:Ei; [|now left].
    split; [reflexivity|].
    apply existsb_exists in Ei as (k & Hk & Ek).
    apply eqb_eq in Ek. now subst.
Qed.

Lemma truthy_text_Some (x : option (list ascii)) (n : list ascii) :
  truthy_text x = Some n -> x = Some n /\ n <> [].
Proof.
  destruct x as [[|c t]|]; try discriminate.
  intros [= <-]. split; [reflexivity | discriminate].
Qed.

(** X5.  [getStateName] never returns an empty name.  What it returns is one
    of the feature's name properties verbatim, or "Unknown" or a name of
    its tables, which the canonicaliser leaves unchanged; the one
    exception is an identifier that names a member of [Object.prototype]
    (such as "constructor"), for which the lookup in the plain object
    [stateIds] returns that member instead of a text. *)
Theorem getStateName_nonempty :
  forall d : Feature,
    match getStateName d with
    | Text n =>
        n <> []
        /\ ((exists props key,
               properties d = Some props /\ In key name_properties
               /\ JsMap.get props key = Some n)
            \/ canonicalStateName (Some n) = n)
    | Inherited key => id d = Some key /\ In key inherited_keys
    end.
Proof.
  intros d.
  assert (Hid : match name_of_id d with
                | Text n =>
                    n <> []
                    /\ ((exists props key,
                           properties d = Some props
                           /\ In key name_properties
                           /\ JsMap.get props key = Some n)
                        \/ canonicalStateName (Some n) = n)
                | Inherited key => id d = Some key /\ In key inherited_keys
                end).
  { pose proof (name_of_id_fixed d) as H.
    destruct (name_of_id d) as [n|key]; [|exact H].
    destruct (fixed_name n) as [Hne Hfix]; [tauto|].
    split; [assumption | now right]. }
  unfold getStateName. destruct (properties d) as [props|]; [|exact Hid].
  destruct (truthy_text (JsMap.get props (js "name"))) as [n|] eqn:E1.
  { apply truthy_text_Some in E1 as [E1 Hn]. split; [assumption|].
    left. exists props, (js "name"). repeat split; [now left | assumption]. }
  destruct (truthy_text (JsMap.get props (js "NAME"))) as [n|] eqn:E2.
  { apply truthy_text_Some in E2 as [E2 Hn]. split; [assumption|].
    left. exists props, (js "NAME").
    repeat split; [right; now left | assumption]. }
  destruct (truthy_text (JsMap.get props (js "STATE_NAME"))) as [n|] eqn:E3.
  { apply truthy_text_Some in E3 as [E3 Hn]. split; [assumption|].
    left. exists props, (js "STATE_NAME").
    repeat split; [right; right; now left | assumption]. }
  clear E1 E2 E3.
  destruct (truthy_text (text_or _ _)) as [code|]; [|exact Hid].
  destruct (abbrev_lookup (toUpperCase code)) as [mapped|] eqn:Em;
    [|exact Hid].
  apply abbrev_lookup_known in Em.
  destruct (fixed_name mapped) as [Hne Hfix]; [tauto|].
  split; [assumption | now right].
Qed.

(** A feature that carries only a FIPS identifier of the table; and one
    whose identifier names an inherited member. *)
Lemma getStateName_texas :
  getStateName texas_feature = Text (js "Texas")
  /\ canonicalStateName (Some (js "Texas")) = js "Texas"
  /\ getStateName {| properties := None; id := Some (js "constructor") |}
     = Inherited (js "constructor").
Proof. vm_compute. repeat split; reflexivity. Qed.

End TableFacts.


(* ================================================================== *)
(** ** Grouping by state and the language counts *)
(* ================================================================== *)

Section GroupingTheorems.

Lemma has_keys {V : Type} (m : JsMap.t V) (k : list ascii) :
  JsMap.has m k = existsb (JsString.eqb k) (JsMap.keys m).
Proof.
  apply eq_true_iff_eq. rewrite existsb_eqb_In. unfold JsMap.has.
  pose proof (get_None_keys m k) as H.
  destruct (JsMap.get m k); split; intros H'; try discriminate;
    try reflexivity.
  - destruct (in_dec (list_eq_dec ascii_dec) k (JsMap.keys m)); [assumption|].
    apply H in n. discriminate.
  - apply H in H'; [destruct H' | reflexivity].
Qed.

Lemma new_Set_snoc (xs : list (list ascii)) (x : list ascii) :
  new_Set (xs ++ [x])
  = if existsb (JsString.eqb x) (new_Set xs) then new_Set xs
    else new_Set xs ++ [x].
Proof. unfold new_Set. rewrite fold_left_app. reflexivity. Qed.

Lemma languageByState_keys (data : list LanguageRecord) :
  JsMap.keys (languageByState data) = new_Set (map stateKey data).
Proof.
  induction data as [|d data IH] using rev_ind; [reflexivity|].
  rewrite languageByState_snoc, map_app. cbn [map].
  rewrite new_Set_snoc. cbv zeta.
  rewrite <- IH, <- has_keys.
  set (m := languageByState data) in *. set (k := stateKey d).
  assert (Hk : forall m' : JsMap.t (list LanguageRecord),
             JsMap.has m' k = true ->
             JsMap.keys match JsMap.get m' k with
                        | Some arr => JsMap.set m' k (arr ++ [d])
                        | None => m'
                        end = JsMap.keys m').
  { intros m' Hhas. destruct (JsMap.get m' k) eqn:E; [|reflexivity].
    rewrite keys_set. now rewrite Hhas. }
  destruct (JsMap.has m k) eqn:Hhas.
  - now apply Hk.
  - rewrite Hk.
    + rewrite keys_set. now rewrite Hhas.
    + unfold JsMap.has. now rewrite get_set_same.
Qed.

(** X6.  [languageByState] has one entry per canonical state, in the order the
    states first occur in the data, and the entry of a state is the
    sequence of its records in input order; a state without records has no
    entry. *)
Theorem languageByState_groups :
  forall languageData : list LanguageRecord,
    JsMap.keys (languageByState languageData)
    = new_Set (map stateKey languageData)
    /\ forall k : list ascii,
         JsMap.get (languageByState languageData) k
         = match records_of k languageData with
           | [] => None
           | arr => Some arr
           end.
Proof.
  intros languageData. split; [apply languageByState_keys|].
  apply languageByState_grouped.
Qed.

Lemma stateLanguages_records (data : list LanguageRecord) (k : list ascii) :
  match JsMap.get (languageByState data) k with
  | Some a => a
  | None => []
  end = records_of k data.
Proof.
  destruct (languageByState_grouped data) as [_ Hget]. rewrite Hget.
  now destruct (records_of k data).
Qed.

(** X7.  The count stored for a state is the number of distinct languages among
    its records, it is at least one, and it is the count that
    [displayLanguages] shows for the state (0 for a state without
    records). *)
Theorem languageCountByState_distinct :
  forall (languageData : list LanguageRecord) (k : list ascii),
    JsMap.get (languageCountByState (languageByState languageData)) k
    = match records_of k languageData with
      | [] => None
      | arr => Some (length (new_Set (map Language arr)))
      end
    /\ (forall n,
          JsMap.get (languageCountByState (languageByState languageData)) k
          = Some n -> 1 <= n)
    /\ forall name : option (list ascii),
         canonicalStateName name = k ->
         table_distinct (displayLanguages name (languageByState languageData))
         = match JsMap.get
                   (languageCountByState (languageByState languageData)) k
           with
           | Some n => n
           | None => 0
           end.
Proof.
  intros data k.
  destruct (languageByState_grouped data) as [Hnd Hget].
  assert (H1 : JsMap.get (languageCountByState (languageByState data)) k
               = match records_of k data with
                 | [] => None
                 | arr => Some (length (new_Set (map Language arr)))
                 end).
  { unfold languageCountByState.
    rewrite (get_fold_set
               (fun _ arr => length (new_Set (map Language arr))) _ Hnd).
    rewrite Hget. now destruct (records_of k data). }
  split; [exact H1|]. split.
  - rewrite H1. destruct (records_of k data) as [|d arr]; [discriminate|].
    assert (Hin : In (Language d) (new_Set (map Language (d :: arr)))).
    { apply new_Set_In. now left. }
    set (langs := new_Set (map Language (d :: arr))) in *.
    intros n [= <-].
    destruct langs; [destruct Hin|]. simpl. lia.
  - intros name <-. unfold displayLanguages. cbn [table_distinct].
    rewrite stateLanguages_records, H1.
    now destruct (records_of (canonicalStateName name) data).
Qed.

Lemma languageCountByState_distinct_witness :
  table_distinct
    (displayLanguages (Some (js "az")) (languageByState sample_languages))
  = match JsMap.get
            (languageCountByState (languageByState sample_languages))
            (js "Arizona")
    with
    | Some n => n
    | None => 0
    end.
Proof.
  apply (proj2 (proj2 (languageCountByState_distinct sample_languages
                         (js "Arizona")))).
  vm_compute. reflexivity.
Defined.

Lemma speakers_or_zero_finite (d : LanguageRecord) :
  match Speakers d with Some n => finite n | None => True end ->
  finite (speakers_or_zero d).
Proof.
  unfold speakers_or_zero, or_else. destruct (Speakers d) as [n|].
  - intros H. destruct (truthy n); [assumption | now exists 0%Q].
  - intros _. now exists 0%Q.
Qed.

(** X8.  The table of [displayLanguages] holds exactly the selected state's
    records that have a speaker count, in descending order of speakers; it
    is empty (the "no data" message) exactly when none has a count. *)
Theorem displayLanguages_rows :
  forall (languageData : list LanguageRecord) (name : option (list ascii)),
    finite_speakers languageData ->
    let t := displayLanguages name (languageByState languageData) in
    let records := records_of (canonicalStateName name) languageData in
    Permutation (table_rows t) (filter counted records)
    /\ descending_speakers (table_rows t)
    /\ (table_rows t = [] <-> forall d, In d records -> Speakers d = None).
Proof.
  intros data name Hfin t records. subst t. unfold displayLanguages.
  cbn [table_rows]. rewrite stateLanguages_records. fold records.
  change (fun d : LanguageRecord =>
            match Speakers d with Some _ => true | None => false end)
    with counted.
  set (cmp := fun a b : LanguageRecord =>
                sub (speakers_or_zero b) (speakers_or_zero a)).
  assert (Hperm : Permutation (sort cmp (filter counted records))
                              (filter counted records))
    by apply sort_Permutation.
  split; [exact Hperm|]. split.
  - apply (sort_descending speakers_or_zero).
    apply Forall_forall. intros d Hd.
    apply filter_In in Hd as [Hd _]. apply filter_In in Hd as [Hd _].
    apply finite_number, speakers_or_zero_finite, Hfin, Hd.
  - split.
    + intros E d Hd. rewrite E in Hperm.
      apply Permutation_nil in Hperm.
      destruct (Speakers d) eqn:Es; [|reflexivity].
      assert (Hin : In d (filter counted records)).
      { apply filter_In. split; [assumption|]. unfold counted.
        now rewrite Es. }
      rewrite Hperm in Hin. destruct Hin.
    + intros H.
      assert (E : filter counted records = []).
      { destruct (filter counted records) as [|d l] eqn:E; [reflexivity|].
        assert (Hin : In d (filter counted records))
          by (rewrite E; now left).
        apply filter_In in Hin as [Hin Hc]. unfold counted in Hc.
        now rewrite (H d Hin) in Hc. }
      rewrite E. reflexivity.
Qed.

Lemma displayLanguages_rows_witness :
  Permutation
    (table_rows (displayLanguages (Some (js "az"))
                   (languageByState sample_languages)))
    (filter counted
       (records_of (canonicalStateName (Some (js "az"))) sample_languages)).
Proof.
  apply (displayLanguages_rows sample_languages (Some (js "az"))).
  intros d Hd. vm_compute in Hd.
  repeat (destruct Hd as [<-|Hd];
          [first [exact I | finite_literal]|]).
  destruct Hd.
Defined.

End GroupingTheorems.


(* ================================================================== *)
(** ** Totals per language *)
(* ================================================================== *)

Section TotalsFacts.

(** Adding a finite value to a number that is not NaN gives a number that
    is not NaN. *)
Lemma add_number (a b : number) :
  representable a -> isNaN a = false -> finite b ->
  representable (add a b) /\ isNaN (add a b) = false.
Proof.
  intros Ra Na (y & -> & Hy).
  destruct a as [|x|s]; [discriminate | | now split].
  cbn [add]. split; [apply fin_representable|].
  pose proof (fin_not_NaN (x + y)) as H.
  destruct (fin (x + y)); [congruence | reflexivity | reflexivity].
Qed.

Lemma sum_finite_number (vs : list number) :
  Forall finite vs ->
  representable (sum_numbers vs) /\ isNaN (sum_numbers vs) = false.
Proof.
  induction vs as [|v vs IH] using rev_ind; intros H.
  - split; reflexivity.
  - apply Forall_app in H. destruct H as [Hvs Hv].
    rewrite sum_numbers_snoc. destruct (IH Hvs) as [R N].
    apply add_number; try assumption. now inversion Hv.
Qed.

Lemma language_totals_snoc (records : list LanguageRecord)
  (d : LanguageRecord) :
  language_totals (records ++ [d]) = add_total (language_totals records) d.
Proof. unfold language_totals. now rewrite fold_left_app. Qed.

Lemma finite_speakers_app (a b : list LanguageRecord) :
  finite_speakers (a ++ b) -> finite_speakers a /\ finite_speakers b.
Proof.
  intros H. split; intros d Hd; apply H, in_app_iff; tauto.
Qed.

Lemma language_values_snoc (records : list LanguageRecord)
  (d : LanguageRecord) (l : list ascii) :
  language_values (records ++ [d]) l
  = language_values records l
    ++ (if JsString.eqb (language_or_unknown d) l
        then [speakers_or_zero d] else []).
Proof.
  unfold language_values. rewrite filter_app, map_app. cbn [filter].
  destruct (JsString.eqb (language_or_unknown d) l); reflexivity.
Qed.

Lemma language_values_finite (records : list LanguageRecord)
  (l : list ascii) :
  finite_speakers records -> Forall finite (language_values records l).
Proof.
  intros H. unfold language_values. apply Forall_map, Forall_forall.
  intros d Hd. apply filter_In in Hd as [Hd _].
  apply speakers_or_zero_finite, H, Hd.
Qed.

(** The total kept for a language is the sum of its values, added from
    left to right. *)
Lemma language_total_sum (records : list LanguageRecord) :
  finite_speakers records ->
  forall l,
    or_zero (JsMap.get (language_totals records) l)
    = sum_numbers (language_values records l).
Proof.
  induction records as [|d records IH] using rev_ind; intros Hfin l.
  - reflexivity.
  - pose proof (language_values_finite _ l Hfin) as Hvals.
    apply finite_speakers_app in Hfin as [Hr Hd].
    rewrite language_totals_snoc in *. rewrite language_values_snoc in *.
    unfold add_total.
    destruct (JsString.eqb (language_or_unknown d) l) eqn:E.
    + apply eqb_eq in E. rewrite E, get_set_same. cbn [or_zero].
      rewrite (IH Hr l), <- sum_numbers_snoc.
      destruct (sum_finite_number _ Hvals) as [R N].
      now apply or_else_zero_id.
    + apply eqb_neq in E. rewrite get_set_other by congruence.
      rewrite app_nil_r. now apply IH.
Qed.

Lemma language_totals_keys (records : list LanguageRecord) (l : list ascii) :
  JsMap.get (language_totals records) l = None
  <-> forall d, In d records -> language_or_unknown d <> l.
Proof.
  induction records as [|d records IH] using rev_ind.
  - split; [intros _ d [] | reflexivity].
  - rewrite language_totals_snoc. unfold add_total.
    destruct (JsString.eqb (language_or_unknown d) l) eqn:E.
    + apply eqb_eq in E. rewrite E, get_set_same.
      split; [discriminate|]. intros H. exfalso.
      apply (H d); [apply in_app_iff; right; now left | assumption].
    + apply eqb_neq in E. rewrite get_set_other by congruence.
      rewrite IH. split.
      * intros H x Hx. apply in_app_iff in Hx as [Hx|[<-|[]]]; auto.
      * intros H x Hx. apply H, in_app_iff. now left.
Qed.

(** What the totals keep: one entry per language, never NaN. *)
Lemma language_totals_ok (records : list LanguageRecord) :
  finite_speakers records -> totals_ok (language_totals records).
Proof.
  induction records as [|d records IH] using rev_ind; intros Hfin.
  - split; constructor.
  - apply finite_speakers_app in Hfin as [Hr Hd].
    rewrite language_totals_snoc. destruct (IH Hr) as [Hnd Hall].
    unfold add_total. split; [now apply NoDup_keys_set|].
    apply Forall_set; [assumption|]. intros k'. cbn [snd].
    rewrite (language_total_sum records Hr).
    destruct (sum_finite_number _
                (language_values_finite records (language_or_unknown d) Hr))
      as [R N].
    apply add_number; try assumption.
    apply speakers_or_zero_finite, Hd. now left.
Qed.

(** Sums of whole numbers that stay within 2^53 are exact. *)
Lemma sum_numbers_whole (vs : list number) :
  whole_counts vs ->
  (sumQ (map value vs) <= two_pow 53)%Q ->
  exists s : Z,
    sum_numbers vs = of_Z s /\ (inject_Z s == sumQ (map value vs))%Q.
Proof.
  intros Hw Hb.
  destruct (fold_add_whole vs Hw 0%Z) as (s & Hs & Hv & _); [lia| |].
  - change (inject_Z 0) with 0%Q. now rewrite Qplus_0_l.
  - exists s. split; [exact Hs|].
    change (inject_Z 0) with 0%Q in Hv. now rewrite Qplus_0_l in Hv.
Qed.

(** X9.  For every language, the total kept by the summing loop is the sum
    of the speakers ([null] as 0) of the records filed under it, added in
    input order in binary64 arithmetic (records without a language are
    filed under "Unknown"); a language has no entry exactly when no
    record is filed under it; and for whole counts with a sum of at most
    2^53 the total is the exact sum. *)
Theorem language_totals_per_language :
  forall records : list LanguageRecord,
    finite_speakers records ->
    forall l : list ascii,
      or_zero (JsMap.get (language_totals records) l)
      = sum_numbers (language_values records l)
      /\ (JsMap.get (language_totals records) l = None
          <-> forall d, In d records -> language_or_unknown d <> l)
      /\ (whole_counts (language_values records l) ->
          (language_speakers records l <= two_pow 53)%Q ->
          exists t : Z,
            or_zero (JsMap.get (language_totals records) l) = of_Z t
            /\ (inject_Z t == language_speakers records l)%Q).
Proof.
  intros records Hfin l.
  split; [now apply language_total_sum|].
  split; [apply language_totals_keys|].
  intros Hw Hb. rewrite (language_total_sum records Hfin l).
  now apply sum_numbers_whole.
Qed.

Lemma language_totals_per_language_witness :
  or_zero (JsMap.get (language_totals sample_languages) (js "Navajo"))
  = sum_numbers (language_values sample_languages (js "Navajo"))
  /\ exists t : Z,
       or_zero (JsMap.get (language_totals sample_languages) (js "Navajo"))
       = of_Z t
       /\ (inject_Z t == language_speakers sample_languages (js "Navajo"))%Q.
Proof.
  assert (Hfin : finite_speakers sample_languages).
  { intros d Hd. vm_compute in Hd.
    repeat (destruct Hd as [<-|Hd];
            [first [exact I | finite_literal]|]).
    destruct Hd. }
  destruct (language_totals_per_language sample_languages Hfin
              (js "Navajo")) as (Hsum & _ & Hexact).
  split; [exact Hsum|]. apply Hexact.
  - whole_literals.
  - vm_compute. discriminate.
Defined.

End TotalsFacts.

Section TotalsConservation.

Lemma sum_set_value (m : JsMap.t number) (k : list ascii) (v : number) :
  (sumQ (map (fun e => value (snd e)) (JsMap.set m k v))
   == sumQ (map (fun e => value (snd e)) m)
      - match JsMap.get m k with Some x => value x | None => 0 end
      + value v)%Q.
Proof.
  induction m as [|[k' v'] m IH]; cbn [JsMap.set JsMap.get map sumQ snd].
  - lra.
  - destruct (JsString.eqb k' k); cbn [map sumQ snd]; [lra|].
    rewrite IH. lra.
Qed.

Lemma whole_counts_nonneg (vs : list number) :
  whole_counts vs -> Forall (fun q => 0 <= q)%Q (map value vs).
Proof.
  intros H. apply Forall_map. eapply Forall_impl; [|exact H].
  intros v (z & Hz & ->). cbn [value of_Z].
  change 0%Q with (inject_Z 0). now rewrite <- Zle_Qle.
Qed.

End TotalsConservation.

Section KeyedTotals.

Context {A : Type}.
Variable key : A -> list ascii.
Variable amount : A -> number.
Variable keep : A -> bool.

(** A loop that adds the amount of each kept element to the total under
    its key. *)
Let keyed_totals (l : list A) : JsMap.t number :=
  fold_left
    (fun m d =>
       if keep d
       then JsMap.set m (key d)
              (add (or_zero (JsMap.get m (key d))) (amount d))
       else m)
    l JsMap.empty.

(** With whole amounts that stay within 2^53 every addition of such a loop
    is exact: the totals are whole and, when only amounts of zero are
    dropped, add up to the sum of the amounts. *)
Lemma keyed_totals_whole (l : list A) :
  whole_counts (map amount l) ->
  (forall d, In d l -> keep d = false -> (value (amount d) == 0)%Q) ->
  (sumQ (map value (map amount l)) <= two_pow 53)%Q ->
  whole_counts (map snd (keyed_totals l))
  /\ (sumQ (map value (map snd (keyed_totals l)))
      == sumQ (map value (map amount l)))%Q.
Proof.
  induction l as [|d l IH] using rev_ind; intros Hw Hdrop Hb.
  - split; [constructor | reflexivity].
  - rewrite map_app in Hw, Hb. apply Forall_app in Hw as [Hw Hd].
    inversion Hd as [|? ? (z & Hz & Ez) _]; subst.
    rewrite map_app, sumQ_app in Hb. cbn [map sumQ] in Hb.
    rewrite Ez in Hb. cbn [value of_Z] in Hb.
    assert (Iz : (0 <= inject_Z z)%Q).
    { change 0%Q with (inject_Z 0). now rewrite <- Zle_Qle. }
    destruct IH as [Hm Hs]; [exact Hw | | lra |].
    { intros x Hx. apply Hdrop, in_app_iff. now left. }
    unfold keyed_totals. rewrite fold_left_app. cbn [fold_left].
    fold (keyed_totals l). set (m := keyed_totals l) in *.
    rewrite !map_app, !sumQ_app. cbn [map sumQ]. rewrite Ez.
    cbn [value of_Z].
    destruct (keep d) eqn:Ek.
    2:{ split; [exact Hm|].
        assert (E0 : (value (amount d) == 0)%Q).
        { apply Hdrop; [apply in_app_iff; right; now left | exact Ek]. }
        rewrite Ez in E0. cbn [value of_Z] in E0. rewrite Hs, E0. ring. }
    set (k := key d).
    assert (Hcur : exists a : Z,
              (0 <= a)%Z /\ or_zero (JsMap.get m k) = of_Z a
              /\ (inject_Z a
                  == match JsMap.get m k with
                     | Some x => value x
                     | None => 0
                     end)%Q
              /\ (inject_Z a <= sumQ (map value (map snd m)))%Q).
    { destruct (JsMap.get m k) as [x|] eqn:Eg.
      - apply get_Some_In in Eg.
        assert (Hx : In x (map snd m)).
        { change x with (snd (k, x)). now apply in_map. }
        unfold whole_counts in Hm. rewrite Forall_forall in Hm.
        destruct (Hm x Hx) as (a & Ha & ->).
        exists a. split; [exact Ha|]. split; [|split].
        + cbn [or_zero]. unfold or_else, truthy, of_Z.
          destruct (is_zero (inject_Z a)) eqn:E0; [|reflexivity].
          cbn [negb]. cbv iota. unfold zero. f_equal.
          apply Qeq_bool_iff in E0.
          assert (a = 0%Z) by (apply inject_Z_injective; exact E0).
          now subst.
        + reflexivity.
        + apply sumQ_member.
          * apply whole_counts_nonneg. unfold whole_counts.
            now rewrite Forall_forall.
          * change (inject_Z a) with (value (of_Z a)). now apply in_map.
      - exists 0%Z. split; [lia|]. split; [reflexivity|].
        split; [reflexivity|].
        apply sumQ_nonneg, whole_counts_nonneg, Hm. }
    destruct Hcur as (a & Ha & Ea & Eva & Hle).
    rewrite Ea.
    assert (Hsum : (a + z <= 2 ^ 53)%Z).
    { rewrite Zle_Qle, inject_Z_plus.
      change (inject_Z (2 ^ 53)) with (two_pow 53). lra. }
    rewrite add_whole by lia. split.
    + unfold whole_counts. apply Forall_map.
      apply Forall_set.
      * unfold whole_counts in Hm. rewrite Forall_map in Hm. exact Hm.
      * intros k'. cbn [snd]. exists (a + z)%Z. split; [lia | reflexivity].
    + rewrite !map_map in *. rewrite sum_set_value.
      cbn [value of_Z]. rewrite <- Eva, Hs, inject_Z_plus. ring.
Qed.

End KeyedTotals.

Section BuildTotals.

Lemma whole_totals (records : list LanguageRecord) :
  whole_counts (map speakers_or_zero records) ->
  (sumQ (map value (map speakers_or_zero records)) <= two_pow 53)%Q ->
  whole_counts (map snd (language_totals records))
  /\ (sumQ (map value (map snd (language_totals records)))
      == sumQ (map value (map speakers_or_zero records)))%Q.
Proof.
  intros Hw Hb.
  apply (keyed_totals_whole language_or_unknown speakers_or_zero
           (fun _ => true) records Hw); [|exact Hb].
  intros d _ H. discriminate H.
Qed.

(** X10.  [buildLanguageTotals] sums over all records nationwide and, for a
    state, over exactly the records whose canonical state is that name; a
    state absent from the population table (such as an unrecognised name)
    has population [null].  The totals lose nothing: for whole counts with
    a sum of at most 2^53, where every addition is exact, the totals of
    any records add up to the sum of Speakers ([null] as 0) over those
    records. *)
Theorem buildLanguageTotals_sums :
  forall (languageData : list LanguageRecord) (population : JsMap.t number),
    bl_totals (buildLanguageTotals languageData population None)
    = language_totals languageData
    /\ (forall k : list ascii,
          k <> [] ->
          let built := buildLanguageTotals languageData population (Some k) in
          bl_totals built = language_totals (records_of k languageData)
          /\ (JsMap.get population k = None -> bl_population built = None))
    /\ (forall records : list LanguageRecord,
          whole_counts (map speakers_or_zero records) ->
          (sumQ (map value (map speakers_or_zero records)) <= two_pow 53)%Q ->
          sum_numbers (map snd (language_totals records))
          = sum_numbers (map speakers_or_zero records)).
Proof.
  intros data population. split; [reflexivity|]. split.
  - intros k Hk built. subst built.
    destruct k as [|c k]; [congruence|].
    unfold buildLanguageTotals. cbn [bl_totals bl_population].
    rewrite stateLanguages_records. split; [reflexivity|]. now intros ->.
  - intros records Hw Hb.
    destruct (whole_totals records Hw Hb) as [Hm Hs].
    destruct (sum_numbers_whole _ Hm) as (t1 & E1 & V1);
      [rewrite Hs; exact Hb|].
    destruct (sum_numbers_whole _ Hw Hb) as (t2 & E2 & V2).
    rewrite E1, E2. f_equal. apply inject_Z_injective.
    now rewrite V1, V2.
Qed.

Lemma buildLanguageTotals_sums_witness :
  bl_totals (buildLanguageTotals sample_languages sample_population
               (Some (js "Arizona")))
  = language_totals (records_of (js "Arizona") sample_languages)
  /\ sum_numbers (map snd (language_totals sample_languages))
     = sum_numbers (map speakers_or_zero sample_languages).
Proof.
  destruct (buildLanguageTotals_sums sample_languages sample_population)
    as (_ & Hstate & Hsum).
  split.
  - apply (Hstate (js "Arizona")). discriminate.
  - apply (Hsum sample_languages).
    + whole_literals.
    + vm_compute. discriminate.
Defined.

End BuildTotals.


(* ================================================================== *)
(** ** Order facts *)
(* ================================================================== *)

Section OrderFacts.

Context {A : Type}.
Variable R : A -> A -> Prop.

Lemma StronglySorted_app_inv (l1 l2 : list A) :
  StronglySorted R (l1 ++ l2) ->
  StronglySorted R l1 /\ StronglySorted R l2
  /\ forall x y, In x l1 -> In y l2 -> R x y.
Proof.
  induction l1 as [|a l1 IH]; simpl; intros H.
  - repeat split; [constructor | assumption | intros x y []].
  - inversion H as [|? ? Hs Hall]; subst.
    destruct (IH Hs) as (H1 & H2 & H3).
    rewrite Forall_app in Hall. destruct Hall as [Ha1 Ha2].
    repeat split; [now constructor | assumption |].
    intros x y [<-|Hx] Hy; [|now apply H3].
    rewrite Forall_forall in Ha2. now apply Ha2.
Qed.

Lemma StronglySorted_filter (f : A -> bool) (l : list A) :
  StronglySorted R l -> StronglySorted R (filter f l).
Proof.
  induction 1 as [|a l Hs IH Hall]; simpl; [constructor|].
  destruct (f a); [|assumption].
  constructor; [assumption|].
  rewrite Forall_forall in *. intros x Hx.
  apply filter_In in Hx as [Hx _]. now apply Hall.
Qed.

Lemma StronglySorted_nth (l : list A) :
  StronglySorted R l ->
  forall i j a b,
    i < j -> nth_error l i = Some a -> nth_error l j = Some b -> R a b.
Proof.
  induction 1 as [|x l Hs IH Hall]; intros i j a b Hij Ha Hb.
  - destruct i; discriminate.
  - destruct j as [|j]; [lia|]. simpl in Hb.
    destruct i as [|i]; simpl in Ha.
    + injection Ha as <-. rewrite Forall_forall in Hall.
      apply Hall. eapply nth_error_In. exact Hb.
    + apply (IH i j); [lia | assumption | assumption].
Qed.

End OrderFacts.


(* ================================================================== *)
(** ** The bar chart *)
(* ================================================================== *)

Section BarChartFacts.

Lemma In_firstn {A : Type} (n : nat) (l : list A) (x : A) :
  In x (firstn n l) -> In x l.
Proof.
  intros H. rewrite <- (firstn_skipn n l). apply in_app_iff. now left.
Qed.

(** X11.  The bar chart shows at most 15 languages, in descending order of total;
    each has a total above zero and is not excluded; and whenever an
    eligible language is left out, 15 languages are shown and each of them
    has a total at least as large. *)
Theorem renderBarChart_top :
  forall (languageData : list LanguageRecord)
         (excludeSet : list (list ascii)),
    finite_speakers languageData ->
    let items := renderBarChart languageData excludeSet in
    length items <= 15
    /\ descending_totals items
    /\ Forall (fun it : BarItem =>
                 JsMap.get (language_totals languageData) (fst it)
                 = Some (snd it)
                 /\ gt (snd it) zero = true
                 /\ ~ In (fst it) excludeSet) items
    /\ forall it' : BarItem,
         In it' (language_totals languageData) ->
         gt (snd it') zero = true ->
         ~ In (fst it') excludeSet ->
         In it' items
         \/ (length items = 15
             /\ Forall (fun it : BarItem => ge (snd it) (snd it') = true)
                       items).
Proof.
  intros data excl Hfin items. subst items. unfold renderBarChart.
  destruct (language_totals_ok data Hfin) as [Hnd Hall].
  set (T := language_totals data) in *.
  set (cmp := fun a b : BarItem => sub (snd b) (snd a)).
  set (R := fun a b : BarItem => ge (snd a) (snd b) = true).
  set (pos := fun d : BarItem => gt (snd d) zero).
  set (keep := fun d : BarItem =>
                 negb (existsb (JsString.eqb (fst d)) excl)).
  set (sorted := sort cmp (filter pos T)).
  assert (Hperm : Permutation sorted (filter pos T))
    by apply sort_Permutation.
  assert (Hsorted : StronglySorted R sorted).
  { apply Sorted_StronglySorted.
    - intros a b c. apply ge_trans.
    - apply (sort_descending (fun d : BarItem => snd d)).
      apply Forall_forall. intros d Hd.
      apply filter_In in Hd as [Hd _].
      rewrite Forall_forall in Hall. now apply (Hall d Hd). }
  assert (Hkept : StronglySorted R (filter keep sorted))
    by now apply StronglySorted_filter.
  set (B := filter keep sorted) in *.
  rewrite <- (firstn_skipn 15 B) in Hkept.
  apply StronglySorted_app_inv in Hkept as (Hfirst & _ & Hcross).
  assert (HinB : forall it, In it B <->
                            In it T /\ pos it = true /\ keep it = true).
  { intros it. unfold B. rewrite filter_In.
    split.
    - intros [Hs Hk]. apply (Permutation_in _ Hperm) in Hs.
      apply filter_In in Hs. tauto.
    - intros (Ht & Hp & Hk). split; [|assumption].
      apply (Permutation_in _ (Permutation_sym Hperm)).
      now apply filter_In. }
  assert (Hkeep : forall it, keep it = true <-> ~ In (fst it) excl).
  { intros it. unfold keep. rewrite negb_true_iff.
    rewrite <- existsb_eqb_In.
    destruct (existsb (JsString.eqb (fst it)) excl); split; congruence. }
  split; [apply firstn_le_length|]. split.
  { apply StronglySorted_Sorted, Hfirst. } split.
  - apply Forall_forall. intros it Hit. apply In_firstn in Hit.
    apply HinB in Hit as (Ht & Hp & Hk).
    repeat split; [|exact Hp | now apply Hkeep].
    apply In_get; [assumption | now destruct it].
  - intros it' Ht Hp Hk.
    assert (Hin : In it' B) by (apply HinB; repeat split;
                                 [assumption | exact Hp | now apply Hkeep]).
    rewrite <- (firstn_skipn 15 B) in Hin.
    apply in_app_iff in Hin as [Hin|Hin]; [now left|]. right. split.
    + apply firstn_length_le.
      destruct (Nat.le_gt_cases 15 (length B)) as [H|H]; [assumption|].
      rewrite skipn_all2 in Hin by lia. destruct Hin.
    + apply Forall_forall. intros it Hit. now apply Hcross.
Qed.

Lemma renderBarChart_top_witness :
  length (renderBarChart sample_languages [js "Hopi"]) <= 15.
Proof.
  apply (renderBarChart_top sample_languages [js "Hopi"]).
  intros d Hd. vm_compute in Hd.
  repeat (destruct Hd as [<-|Hd];
          [first [exact I | finite_literal]|]).
  destruct Hd.
Defined.

End BarChartFacts.


(* ================================================================== *)
(** ** Order of the box-plot statistics *)
(* ================================================================== *)

Section QuartileOrder.

Lemma sort_ascending_order (l : list number) :
  Forall finite l ->
  StronglySorted (fun a b => le a b = true) (sort (fun a b => sub a b) l).
Proof.
  intros Hfin. apply Sorted_StronglySorted.
  - intros a b c. apply le_trans.
  - apply (sort_ascending_keys (fun x : number => x)).
    eapply Forall_impl; [|exact Hfin]. intros a. apply finite_number.
Qed.

Lemma quarter_indices (n : nat) :
  0 < n ->
  floor_times n (25 # 100) <= floor_times n (5 # 10)
  /\ floor_times n (5 # 10) <= floor_times n (75 # 100)
  /\ floor_times n (75 # 100) <= n - 1.
Proof.
  intros Hn. destruct (floor_times_quarters n) as (-> & -> & ->).
  pose proof (Nat.div_mod_eq n 4). pose proof (Nat.div_mod_eq n 2).
  pose proof (Nat.div_mod_eq (3 * n) 4).
  pose proof (Nat.mod_upper_bound n 4). pose proof (Nat.mod_upper_bound n 2).
  pose proof (Nat.mod_upper_bound (3 * n) 4).
  lia.
Qed.

Lemma sorted_nth_le (s : list number) (i j : nat) (a b : number) :
  StronglySorted (fun a b => le a b = true) s -> Forall finite s ->
  i <= j -> nth_error s i = Some a -> nth_error s j = Some b ->
  le a b = true.
Proof.
  intros Hs Hfin Hij Ha Hb.
  destruct (Nat.eq_dec i j) as [->|Hne].
  - rewrite Ha in Hb. injection Hb as <-.
    rewrite Forall_forall in Hfin.
    destruct (Hfin a (nth_error_In _ _ Ha)) as (q & -> & _).
    apply le_fin. lra.
  - apply (StronglySorted_nth _ s Hs i j); [lia | assumption | assumption].
Qed.

(** X12.  On any non-empty array of finite numbers, in whatever order, the
    statistics are elements of the array with
    min <= q1 <= median <= q3 <= max, the minimum and the maximum bound
    every element, and the interquartile range q3 - q1 is not negative. *)
Theorem calculateQuartiles_ordered :
  forall l : list number,
    l <> [] -> Forall finite l ->
    exists vmin v1 v2 v3 vmax : number,
      calculateQuartiles l
      = {| q_min := Some vmin; q_q1 := Some v1; q_median := Some v2;
           q_q3 := Some v3; q_max := Some vmax; q_iqr := sub v3 v1 |}
      /\ In vmin l /\ In v1 l /\ In v2 l /\ In v3 l /\ In vmax l
      /\ le vmin v1 = true /\ le v1 v2 = true /\ le v2 v3 = true
      /\ le v3 vmax = true
      /\ (forall x, In x l -> le vmin x = true /\ le x vmax = true)
      /\ ge (sub v3 v1) zero = true.
Proof.
  intros l Hne Hfin. unfold calculateQuartiles.
  set (s := sort (fun a b => sub a b) l).
  assert (Hperm : Permutation s l) by apply sort_Permutation.
  assert (Hs : StronglySorted (fun a b => le a b = true) s)
    by now apply sort_ascending_order.
  assert (Hsfin : Forall finite s).
  { eapply Permutation_Forall; [symmetry; exact Hperm | exact Hfin]. }
  set (n := length s).
  assert (Hn : 0 < n).
  { unfold n. rewrite (Permutation_length Hperm).
    destruct l; [congruence | simpl; lia]. }
  assert (Hget : forall i, i < n -> exists v, nth_error s i = Some v).
  { intros i Hi. destruct (nth_error s i) eqn:E; [eauto|].
    apply nth_error_None in E. unfold n in Hi. lia. }
  destruct (quarter_indices n Hn) as (H12 & H23 & H3m).
  set (i1 := floor_times n (25 # 100)) in *.
  set (i2 := floor_times n (5 # 10)) in *.
  set (i3 := floor_times n (75 # 100)) in *.
  destruct (Hget 0 Hn) as [vmin Hmin].
  destruct (Hget i1) as [v1 H1]; [lia|].
  destruct (Hget i2) as [v2 H2]; [lia|].
  destruct (Hget i3) as [v3 H3]; [lia|].
  destruct (Hget (n - 1)) as [vmax Hmax]; [lia|].
  exists vmin, v1, v2, v3, vmax.
  rewrite Hmin, H1, H2, H3, Hmax.
  destruct (n =? 0) eqn:E; [apply Nat.eqb_eq in E; lia|].
  assert (Hin : forall i v, nth_error s i = Some v -> In v l).
  { intros i v Hv. apply (Permutation_in _ Hperm).
    eapply nth_error_In. exact Hv. }
  assert (Hl13 : le v1 v3 = true).
  { apply (sorted_nth_le s i1 i3); try assumption. lia. }
  split; [reflexivity|].
  repeat split; try (eapply Hin; eassumption).
  - apply (sorted_nth_le s 0 i1); try assumption. lia.
  - apply (sorted_nth_le s i1 i2); assumption.
  - apply (sorted_nth_le s i2 i3); assumption.
  - apply (sorted_nth_le s i3 (n - 1)); assumption.
  - apply (Permutation_in _ (Permutation_sym Hperm)) in H.
    apply In_nth_error in H as [j Hj].
    apply (sorted_nth_le s 0 j); try assumption. lia.
  - apply (Permutation_in _ (Permutation_sym Hperm)) in H.
    apply In_nth_error in H as [j Hj].
    assert (j < n) by (apply nth_error_Some; congruence).
    apply (sorted_nth_le s j (n - 1)); try assumption. lia.
  - rewrite Forall_forall in Hsfin.
    destruct (Hsfin v1 (nth_error_In _ _ H1)) as (a & Ea & _).
    destruct (Hsfin v3 (nth_error_In _ _ H3)) as (c & Ec & _).
    rewrite Ea, Ec in *. apply le_fin in Hl13.
    change (sub (Fin c) (Fin a)) with (fin (c + - a)).
    apply not_negative_ge_zero, fin_not_negative. lra.
Qed.

Lemma calculateQuartiles_ordered_witness :
  exists vmin v1 v2 v3 vmax : number,
    calculateQuartiles [Fin 7; Fin 2; Fin 9]
    = {| q_min := Some vmin; q_q1 := Some v1; q_median := Some v2;
         q_q3 := Some v3; q_max := Some vmax; q_iqr := sub v3 v1 |}
    /\ In vmin [Fin 7; Fin 2; Fin 9] /\ In v1 [Fin 7; Fin 2; Fin 9]
    /\ In v2 [Fin 7; Fin 2; Fin 9] /\ In v3 [Fin 7; Fin 2; Fin 9]
    /\ In vmax [Fin 7; Fin 2; Fin 9]
    /\ le vmin v1 = true /\ le v1 v2 = true /\ le v2 v3 = true
    /\ le v3 vmax = true
    /\ (forall x, In x [Fin 7; Fin 2; Fin 9] ->
                  le vmin x = true /\ le x vmax = true)
    /\ ge (sub v3 v1) zero = true.
Proof.
  apply (calculateQuartiles_ordered [Fin 7; Fin 2; Fin 9]).
  - discriminate.
  - repeat constructor; finite_literal.
Defined.

End QuartileOrder.


(* ================================================================== *)
(** ** The pie chart without a denominator, and with an exclusion list *)
(* ================================================================== *)

Section PieEdgeFacts.

Lemma render_exclusion (totals : JsMap.t number) (popForPct : option number)
  (excluded : list (list ascii)) :
  renderPieInto totals popForPct (Some excluded)
  = (let items :=
       filter (fun d => negb (existsb (JsString.eqb (lang d)) excluded))
              (positive_items totals) in
     let sumRem := or_else (sum_val items) one in
     let items := map (fun d => with_pct d (div (val d) sumRem)) items in
     pie_entries items (or_else (sum_val items) one)).
Proof. reflexivity. Qed.

Lemma sum_val_with_pct (f : PieItem -> number) (items : list PieItem) :
  sum_val (map (fun d => with_pct d (f d)) items) = sum_val items.
Proof.
  rewrite !sum_val_numbers, map_map. reflexivity.
Qed.

Lemma positive_items_not_excluded (excluded : list (list ascii))
  (totals : JsMap.t number) :
  filter (fun d => negb (existsb (JsString.eqb (lang d)) excluded))
         (positive_items totals)
  = positive_items (not_excluded excluded totals).
Proof.
  unfold positive_items, not_excluded.
  induction totals as [|e totals IH]; [reflexivity|].
  cbn [map filter lang val].
  destruct (truthy (snd e) && gt (snd e) zero) eqn:Ep;
    destruct (negb (existsb (JsString.eqb (fst e)) excluded)) eqn:Ex;
    cbn [map filter lang val]; rewrite ?Ep, ?Ex; rewrite IH; reflexivity.
Qed.

Lemma filter_none {A : Type} (f : A -> bool) (l : list A) :
  (forall x, In x l -> f x = false) -> filter f l = [].
Proof.
  induction l as [|x l IH]; intros H; [reflexivity|].
  simpl. rewrite (H x) by now left. apply IH. intros y Hy. apply H. now right.
Qed.

Lemma filter_all {A : Type} (f : A -> bool) (l : list A) :
  (forall x, In x l -> f x = true) -> filter f l = l.
Proof.
  induction l as [|x l IH]; intros H; [reflexivity|].
  simpl. rewrite (H x) by now left. f_equal. apply IH.
  intros y Hy. apply H. now right.
Qed.

(** X13.  Without a denominator ([null], 0 or NaN) and without an exclusion
    list, every share is 0, so all positive entries are merged: the chart
    has the single entry "Other (<1%)", whose value is the sum of the
    positive values and whose share, that sum divided by 1, is the sum
    itself. *)
Theorem renderPieInto_no_denominator :
  forall (totals : JsMap.t number) (popForPct : option number),
    (forall e, In e totals -> finite (snd e)) ->
    included totals <> [] ->
    no_denominator popForPct ->
    renderPieInto totals popForPct None
    = [{| lang := Other; val := sum_numbers (included totals);
          pct := sum_numbers (included totals) |}].
Proof.
  intros totals pop Hfin Hinc Hno.
  pose proof (denominator_above_zero totals Hfin Hinc) as Hpos.
  assert (Hq : quantity (sum_numbers (included totals))).
  { apply sum_numbers_quantity.
    eapply Forall_impl; [|apply (included_counts totals Hfin)].
    now intros v [Hv _]. }
  rewrite render_no_exclusion.
  assert (Hpct : (fun d : PieItem =>
                    with_pct d
                      match pop with
                      | Some q => if truthy q then div (val d) q else zero
                      | None => zero
                      end)
                 = (fun d => with_pct d zero)).
  { destruct pop as [q|]; [|reflexivity]. simpl in Hno. now rewrite Hno. }
  rewrite Hpct.
  assert (Hden : or_one pop = one).
  { destruct pop as [q|]; [|reflexivity]. simpl in Hno.
    unfold or_one, or_else. now rewrite Hno. }
  rewrite Hden. unfold pie_entries.
  set (items := map (fun d => with_pct d zero) (positive_items totals)).
  assert (Hz : forall d, In d items -> pct d = zero).
  { intros d Hd. unfold items in Hd.
    apply in_map_iff in Hd as (d' & <- & _). reflexivity. }
  rewrite (filter_none (fun d => ge (pct d) hundredth) items)
    by (intros d Hd; now rewrite (Hz d Hd)).
  rewrite (filter_all (fun d => lt (pct d) hundredth) items)
    by (intros d Hd; now rewrite (Hz d Hd)).
  unfold items. rewrite (sum_val_with_pct (fun _ => zero)).
  rewrite sum_val_numbers, positive_items_values.
  apply gt_zero_above in Hpos. rewrite Hpos. cbn [sort fold_right app].
  now rewrite div_one.
Qed.

Lemma renderPieInto_no_denominator_witness :
  renderPieInto sample_totals None None
  = [{| lang := Other; val := sum_numbers (included sample_totals);
        pct := sum_numbers (included sample_totals) |}].
Proof.
  apply (renderPieInto_no_denominator sample_totals None).
  - intros e He. vm_compute in He.
    repeat (destruct He as [<-|He]; [finite_literal|]). destruct He.
  - vm_compute. discriminate.
  - exact I.
Defined.

End PieEdgeFacts.


Section PieExclusionFacts.

Lemma map_eq_nil_val (items : list PieItem) :
  map val items = [] -> items = [].
Proof. now destruct items. Qed.

Lemma render_excluding_eq (totals : JsMap.t number)
  (popForPct : option number) (excluded : list (list ascii)) :
  (forall e, In e totals -> finite (snd e)) ->
  renderPieInto totals popForPct (Some excluded)
  = renderPieInto (not_excluded excluded totals)
      (Some (sum_numbers (included (not_excluded excluded totals)))) None.
Proof.
  intros Hfin. set (rest := not_excluded excluded totals).
  assert (Hrest : forall e, In e rest -> finite (snd e)).
  { intros e He. apply filter_In in He as [He _]. now apply Hfin. }
  rewrite render_exclusion, render_no_exclusion. cbv zeta.
  rewrite positive_items_not_excluded. fold rest.
  rewrite sum_val_with_pct.
  rewrite (sum_val_numbers (positive_items rest)), positive_items_values.
  destruct (included rest) as [|n0 inc0] eqn:Einc.
  - assert (E : positive_items rest = []).
    { apply map_eq_nil_val. now rewrite positive_items_values. }
    rewrite E. reflexivity.
  - rewrite <- Einc.
    assert (Ht : truthy (sum_numbers (included rest)) = true).
    { apply above_zero_truthy, denominator_above_zero; [exact Hrest|].
      rewrite Einc. discriminate. }
    unfold or_one, or_else. rewrite Ht. reflexivity.
Qed.



(** The shares of the sample without English: 0.95, 0.03 and 0.02 as
    binary64 values. *)
Lemma renderPieInto_excluding_sample :
  map (fun d => (lang d, pct d))
      (renderPieInto sample_totals (Some (Fin 1000)) (Some [js "English"]))
  = [ (js "Spanish", Fin (4278419646001971 # 4503599627370496));
      (js "Hopi", Fin (1080863910568919 # 36028797018963968));
      (js "Navajo", Fin (5764607523034235 # 288230376151711744)) ].
Proof. vm_compute. reflexivity. Qed.

End PieExclusionFacts.


(* ================================================================== *)
(** ** The histogram sums *)
(* ================================================================== *)

Section HistogramFacts.

Lemma or_zero_parse_quantity (raw : option (list ascii)) :
  quantity (or_zero (parseSpeakers raw)).
Proof.
  unfold or_zero. destruct (parseSpeakers raw) as [n|] eqn:E.
  - pose proof (parseSpeakers_result_quantity _ _ E) as Hq.
    rewrite or_else_zero_id; [exact Hq | apply Hq|].
    now apply quantity_not_NaN.
  - apply zero_quantity.
Qed.

Lemma nationwideLessVeryWell_sum (data : list LanguageRecord) :
  nationwideLessVeryWell data
  = sum_numbers
      (map (fun d => or_zero (parseSpeakers (LessThanVeryWell d))) data).
Proof.
  unfold nationwideLessVeryWell, sum_numbers. generalize zero.
  induction data as [|d data IH]; intros acc; [reflexivity|].
  simpl. apply IH.
Qed.

(** X15.  The nationwide "less than very well" figure of the histogram is
    the sum of the parsed counts ([null] as 0) added in input order, and
    it is a count: never NaN and never negative.  For whole counts with a
    sum of at most 2^53, where every addition is exact, it is the sum of
    the per-state figures: no count is lost or counted twice, whatever
    the spelling of the state names. *)
Theorem nationwideLessVeryWell_is_sum :
  forall languageData : list LanguageRecord,
    let counts :=
      map (fun d => or_zero (parseSpeakers (LessThanVeryWell d)))
          languageData in
    nationwideLessVeryWell languageData = sum_numbers counts
    /\ not_negative (nationwideLessVeryWell languageData)
    /\ (whole_counts counts ->
        (sumQ (map value counts) <= two_pow 53)%Q ->
        nationwideLessVeryWell languageData
        = sum_numbers (map snd (englishLessVeryWellByState languageData))).
Proof.
  intros data counts.
  split; [apply nationwideLessVeryWell_sum|]. split.
  - rewrite nationwideLessVeryWell_sum.
    apply sum_numbers_quantity, Forall_map, Forall_forall.
    intros d _. apply or_zero_parse_quantity.
  - intros Hw Hb. rewrite nationwideLessVeryWell_sum. fold counts.
    destruct (keyed_totals_whole stateKey
                (fun d => or_zero (parseSpeakers (LessThanVeryWell d)))
                (fun d => gt (or_zero (parseSpeakers (LessThanVeryWell d)))
                             zero)
                data Hw) as [Hm Hs].
    + intros d Hd Hgt.
      unfold whole_counts, counts in Hw.
      rewrite Forall_map, Forall_forall in Hw.
      destruct (Hw d Hd) as (z & Hz & Ez). rewrite Ez in *.
      cbn [value of_Z].
      destruct (Z.eq_dec z 0) as [->|Hne]; [reflexivity|].
      assert (G : gt (of_Z z) zero = true); [|congruence].
      apply gt_fin. change 0%Q with (inject_Z 0). rewrite <- Zlt_Qlt. lia.
    + exact Hb.
    + change (fold_left _ data JsMap.empty)
        with (englishLessVeryWellByState data) in Hm, Hs.
      destruct (sum_numbers_whole _ Hm) as (t1 & E1 & V1);
        [rewrite Hs; exact Hb|].
      destruct (sum_numbers_whole _ Hw Hb) as (t2 & E2 & V2).
      rewrite E1, E2. f_equal. apply inject_Z_injective.
      now rewrite V1, V2.
Qed.

Lemma nationwideLessVeryWell_is_sum_witness :
  nationwideLessVeryWell sample_english
  = sum_numbers (map snd (englishLessVeryWellByState sample_english)).
Proof.
  apply (proj2 (proj2 (nationwideLessVeryWell_is_sum sample_english))).
  - whole_literals.
  - vm_compute. discriminate.
Defined.

End HistogramFacts.


(* ================================================================== *)
(** ** The points of the dot chart *)
(* ================================================================== *)

Section DotChartFacts.

Lemma count_of_states (data : list LanguageRecord) (l : list ascii) :
  count_of (statesCount (languageByState data)) l = states_mentioning data l.
Proof. rewrite count_of_statesCount. apply mentioning_entries. Qed.

(** X16.  A language gets a point of the dot chart exactly when its total
    (the sum of the speakers filed under it, added in input order) is
    above zero, at least one state has a record naming it, and it is
    neither English nor Spanish; no language gets two points, and a point
    carries that total and that number of states. *)
Theorem dotChartData_points :
  forall languageData : list LanguageRecord,
    finite_speakers languageData ->
    NoDup (map dot_lang (dotChartData languageData))
    /\ (forall l : list ascii,
          In l (map dot_lang (dotChartData languageData))
          <-> gt (sum_numbers (language_values languageData l)) zero = true
              /\ 1 <= states_mentioning languageData l
              /\ ~ In l dot_exclude)
    /\ forall pt : DotPoint,
         In pt (dotChartData languageData) ->
         dot_states pt = states_mentioning languageData (dot_lang pt)
         /\ dot_total pt
            = sum_numbers (language_values languageData (dot_lang pt)).
Proof.
  intros data Hfin.
  pose proof (language_totals_ok data Hfin) as Hok.
  pose proof (language_total_sum data Hfin) as Hsum.
  unfold dotChartData.
  set (T := language_totals data) in *.
  set (C := statesCount (languageByState data)).
  set (mk := fun l => {| dot_lang := l;
                         dot_total := or_zero (JsMap.get T l);
                         dot_states := count_of C l |}).
  set (cond := fun d => gt (dot_total d) zero && (0 <? dot_states d)
                        && negb (existsb (JsString.eqb (dot_lang d))
                                         dot_exclude)).
  assert (Hmap : map dot_lang (filter cond (map mk (JsMap.keys T)))
                 = filter (fun l => cond (mk l)) (JsMap.keys T)).
  { rewrite filter_map_comm, map_map. cbn [dot_lang mk]. apply map_id. }
  assert (Hcond : forall l,
             cond (mk l) = true
             <-> gt (sum_numbers (language_values data l)) zero = true
                 /\ 1 <= states_mentioning data l
                 /\ ~ In l dot_exclude).
  { intros l. unfold cond, mk. cbn [dot_lang dot_total dot_states].
    rewrite !andb_true_iff, negb_true_iff.
    unfold C. rewrite count_of_states, Nat.ltb_lt, Hsum.
    assert (E : existsb (JsString.eqb l) dot_exclude = false
                <-> ~ In l dot_exclude).
    { rewrite <- existsb_eqb_In.
      destruct (existsb (JsString.eqb l) dot_exclude); split; congruence. }
    rewrite E. unfold lt. tauto. }
  split; [|split].
  - rewrite Hmap. apply NoDup_filter. apply Hok.
  - intros l. rewrite Hmap, filter_In, Hcond. split; [tauto|].
    intros H. split; [|exact H].
    destruct (JsMap.get T l) as [n|] eqn:E.
    + destruct (in_dec (list_eq_dec ascii_dec) l (JsMap.keys T)) as [Hi|Hn];
        [assumption|].
      apply get_None_keys in Hn. congruence.
    + exfalso. destruct H as [H _].
      rewrite <- Hsum, E in H. discriminate.
  - intros pt Hpt. apply filter_In in Hpt as [Hpt _].
    apply in_map_iff in Hpt as (l & <- & _).
    cbn [dot_lang dot_total dot_states].
    split; [apply count_of_states | apply Hsum].
Qed.

Lemma dotChartData_points_witness :
  NoDup (map dot_lang (dotChartData sample_languages)).
Proof.
  refine (proj1 (dotChartData_points sample_languages _)).
  intros d Hd. vm_compute in Hd.
  repeat (destruct Hd as [<-|Hd];
          [first [exact I | finite_literal]|]).
  destruct Hd.
Defined.

End DotChartFacts.


(* ================================================================== *)
(** ** The proportions of the box plot *)
(* ================================================================== *)

Section BoxplotFacts.

Lemma positive_counts_snoc (k : list ascii) (data : list LanguageRecord)
  (d : LanguageRecord) :
  positive_counts k (data ++ [d])
  = positive_counts k data
    ++ (if JsString.eqb (stateKey d) k
        then match parseSpeakers (LessThanVeryWell d) with
             | Some count => if gt count zero then [count] else []
             | None => []
             end
        else []).
Proof.
  unfold positive_counts. rewrite english_counts_snoc, filter_app.
  f_equal. destruct (JsString.eqb (stateKey d) k); [|reflexivity].
  destruct (parseSpeakers (LessThanVeryWell d)); reflexivity.
Qed.

Lemma positive_counts_quantity (k : list ascii) (data : list LanguageRecord) :
  Forall quantity (positive_counts k data).
Proof.
  unfold positive_counts. apply Forall_forall. intros c Hc.
  apply filter_In in Hc as [Hc _].
  pose proof (english_counts_quantity k data) as H.
  rewrite Forall_forall in H. now apply H.
Qed.

(** The counts of the box plot: per state, the sum of the counts above
    zero, added from left to right. *)
Lemma boxplot_counts (data : list LanguageRecord) :
  NoDup (JsMap.keys (englishLessThanVeryWellByStateBoxplot data))
  /\ forall k : list ascii,
       JsMap.get (englishLessThanVeryWellByStateBoxplot data) k
       = match positive_counts k data with
         | [] => None
         | cs => Some (sum_numbers cs)
         end.
Proof.
  unfold englishLessThanVeryWellByStateBoxplot.
  induction data as [|d data [Hnd Hget]] using rev_ind.
  - split; [constructor | reflexivity].
  - rewrite fold_left_app. cbn [fold_left].
    set (m := fold_left _ data JsMap.empty) in *.
    assert (Hsame : forall k,
              (if JsString.eqb (stateKey d) k
               then match parseSpeakers (LessThanVeryWell d) with
                    | Some count => if gt count zero then [count] else []
                    | None => []
                    end
               else []) = [] ->
              JsMap.get m k
              = match positive_counts k (data ++ [d]) with
                | [] => None
                | cs => Some (sum_numbers cs)
                end).
    { intros k E. rewrite positive_counts_snoc, E, app_nil_r. apply Hget. }
    destruct (parseSpeakers (LessThanVeryWell d)) as [count|] eqn:Hp.
    2:{ split; [assumption|]. intros k. apply Hsame.
        now destruct (JsString.eqb (stateKey d) k). }
    destruct (gt count zero) eqn:Hgt.
    2:{ split; [assumption|]. intros k. apply Hsame.
        now destruct (JsString.eqb (stateKey d) k). }
    split; [now apply NoDup_keys_set|].
    intros k. destruct (JsString.eqb (stateKey d) k) eqn:E.
    + apply eqb_eq in E. subst k.
      rewrite positive_counts_snoc, eqb_refl, Hp, Hgt, get_set_same, Hget.
      pose proof (positive_counts_quantity (stateKey d) data) as Hq.
      destruct (positive_counts (stateKey d) data) as [|c0 cs] eqn:Ec.
      * reflexivity.
      * cbn [or_zero]. rewrite or_else_zero_id.
        -- rewrite <- sum_numbers_snoc. reflexivity.
        -- apply sum_numbers_quantity, Hq.
        -- apply quantity_not_NaN, sum_numbers_quantity, Hq.
    + rewrite get_set_other by (apply eqb_neq in E; congruence).
      apply Hsame. now rewrite E.
Qed.

(** A proportion that passes the [isFinite] test is not negative. *)
Lemma proportion_finite (count pop : number) :
  quantity count -> gt pop zero = true ->
  isFinite (mul (div count pop) hundred) = true ->
  nonneg (mul (div count pop) hundred).
Proof.
  intros [Hc _] Hpop.
  destruct count as [|c|[]]; cbn [not_negative] in Hc;
    try contradiction; try discriminate;
    destruct pop as [|q|[]]; try discriminate.
  - apply gt_fin in Hpop. unfold div. rewrite is_zero_false by lra.
    assert (Hq : (0 <= c / q)%Q).
    { apply Qle_shift_div_l; [exact Hpop | lra]. }
    pose proof (fin_not_negative _ Hq) as Hd.
    destruct (fin (c / q)) as [|r|[]]; cbn [not_negative] in Hd;
      try contradiction; try discriminate.
    unfold mul, hundred.
    assert (Hr : (0 <= r * 100)%Q) by lra.
    pose proof (fin_not_negative _ Hr) as Hm.
    destruct (fin (r * 100)) as [|y|s]; try discriminate.
    intros _. exists y. split; [reflexivity | exact Hm].
  - intros _. exists 0%Q. split; [reflexivity | apply Qle_refl].
Qed.

(** X17.  A state enters the box plot exactly when some record of it has a
    count above zero, its population is above zero, and the proportion
    [(count / population) * 100] passes the [isFinite] test, where the
    count is the sum of the state's counts above zero, added in input
    order; the proportion is then a finite number that is not negative.
    States without a population are left out, and no state enters
    twice. *)
Theorem proportionsForBoxplot_entries :
  forall (languageData : list LanguageRecord) (population : JsMap.t number),
    let counts := englishLessThanVeryWellByStateBoxplot languageData in
    let out := proportionsForBoxplot counts population in
    NoDup (map fst out)
    /\ (forall (k : list ascii) (x : number),
          In (k, x) out
          <-> exists pop : number,
                positive_counts k languageData <> []
                /\ JsMap.get population k = Some pop
                /\ gt pop zero = true
                /\ x = mul (div (sum_numbers
                                   (positive_counts k languageData)) pop)
                           hundred
                /\ isFinite x = true)
    /\ forall (k : list ascii) (x : number),
         In (k, x) out -> nonneg x.
Proof.
  intros data population counts out. subst out.
  destruct (boxplot_counts data) as [Hnd Hget]. fold counts in Hnd, Hget.
  set (g := fun entry : list ascii * number =>
              match JsMap.get population (fst entry) with
              | Some pop =>
                  if truthy pop && gt pop zero then
                    let proportion := mul (div (snd entry) pop) hundred in
                    if negb (isNaN proportion) && isFinite proportion
                    then [(fst entry, proportion)]
                    else []
                  else []
              | None => []
              end).
  assert (Hflat : forall cs : JsMap.t number,
             proportionsForBoxplot cs population = flat_map g cs).
  { intros cs. unfold proportionsForBoxplot.
    assert (H : forall acc,
              fold_left
                (fun acc entry =>
                   match JsMap.get population (fst entry) with
                   | Some pop =>
                       if truthy pop && gt pop zero then
                         let proportion :=
                           mul (div (snd entry) pop) hundred in
                         if negb (isNaN proportion) && isFinite proportion
                         then acc ++ [(fst entry, proportion)]
                         else acc
                       else acc
                   | None => acc
                   end) cs acc
              = acc ++ flat_map g cs).
    { induction cs as [|e cs IH]; intros acc; cbn [fold_left flat_map].
      - now rewrite app_nil_r.
      - rewrite IH, app_assoc. f_equal. unfold g.
        destruct (JsMap.get population (fst e)) as [pop|];
          [|now rewrite app_nil_r].
        destruct (truthy pop && gt pop zero); [|now rewrite app_nil_r].
        cbv zeta.
        destruct (negb (isNaN _) && isFinite _);
          [reflexivity | now rewrite app_nil_r]. }
    apply (H []). }
  rewrite (Hflat counts).
  assert (Hg : forall k v x,
             In (k, x) (g (k, v))
             <-> exists pop : number,
                   JsMap.get population k = Some pop
                   /\ gt pop zero = true
                   /\ x = mul (div v pop) hundred
                   /\ isFinite x = true).
  { intros k v x. unfold g. cbn [fst snd].
    destruct (JsMap.get population k) as [pop|].
    2:{ split; [intros [] | intros (pop & H & _); discriminate]. }
    assert (Hpos : truthy pop && gt pop zero = gt pop zero).
    { destruct (gt pop zero) eqn:G; [|apply andb_false_r].
      rewrite andb_true_r. apply above_zero_truthy.
      now apply gt_zero_above. }
    rewrite Hpos. cbv zeta.
    assert (Hfinite : forall y, negb (isNaN y) && isFinite y = isFinite y).
    { now intros [|y|s]. }
    rewrite Hfinite.
    destruct (gt pop zero) eqn:G.
    - destruct (isFinite (mul (div v pop) hundred)) eqn:F.
      + split.
        * intros [[= <-]|[]]. exists pop. now repeat split.
        * intros (pop' & [= <-] & _ & -> & _). now left.
      + split; [intros []|].
        intros (pop' & [= <-] & _ & -> & F'). congruence.
    - split; [intros []|]. intros (pop' & [= <-] & G' & _). congruence. }
  assert (Hin : forall k x,
             In (k, x) (flat_map g counts)
             <-> exists pop : number,
                   positive_counts k data <> []
                   /\ JsMap.get population k = Some pop
                   /\ gt pop zero = true
                   /\ x = mul (div (sum_numbers (positive_counts k data))
                                   pop) hundred
                   /\ isFinite x = true).
  { intros k x. rewrite in_flat_map. split.
    - intros ([k' v] & He & Hx).
      assert (k' = k).
      { unfold g in Hx. cbn [fst snd] in Hx.
        destruct (JsMap.get population k'); [|destruct Hx].
        destruct (truthy n && gt n zero); [|destruct Hx].
        cbv zeta in Hx.
        destruct (negb (isNaN _) && isFinite _); [|destruct Hx].
        destruct Hx as [[= -> _]|[]]. reflexivity. }
      subst k'. apply Hg in Hx as (pop & Hp & Hgt & -> & F).
      pose proof (In_get counts k v Hnd He) as Ev. rewrite Hget in Ev.
      destruct (positive_counts k data) as [|c0 cs] eqn:Ec;
        [discriminate|].
      injection Ev as <-. exists pop. repeat split; try assumption.
      discriminate.
    - intros (pop & Hne & Hp & Hgt & -> & F).
      exists (k, sum_numbers (positive_counts k data)). split.
      + apply get_Some_In. rewrite Hget.
        destruct (positive_counts k data); [congruence | reflexivity].
      + apply Hg. exists pop. now repeat split. }
  split; [|split].
  - clear Hin Hflat Hget Hg.
    induction counts as [|[k v] cs IH]; [constructor|].
    cbn [flat_map]. inversion Hnd as [|? ? Hnotin Hnd']; subst.
    rewrite map_app.
    assert (Hrest : forall k', In k' (map fst (flat_map g cs)) ->
                               In k' (JsMap.keys cs)).
    { intros k' Hk'. apply in_map_iff in Hk' as ([k2 x2] & <- & H2).
      apply in_flat_map in H2 as ([k3 v3] & H3 & Hg3). unfold g in Hg3.
      cbn [fst snd] in Hg3.
      destruct (JsMap.get population k3); [|destruct Hg3].
      destruct (truthy n && gt n zero); [|destruct Hg3].
      cbv zeta in Hg3.
      destruct (negb (isNaN _) && isFinite _); [|destruct Hg3].
      destruct Hg3 as [[= <- <-]|[]]. cbn [fst].
      change k3 with (fst (k3, v3)). now apply in_map. }
    unfold g at 1. cbn [fst snd].
    destruct (JsMap.get population k) as [pop|]; [|now apply IH].
    destruct (truthy pop && gt pop zero); [|now apply IH].
    cbv zeta.
    destruct (negb (isNaN _) && isFinite _); [|now apply IH].
    cbn [map app fst]. constructor; [|now apply IH].
    intros Hk. apply Hnotin. now apply Hrest.
  - exact Hin.
  - intros k x Hx. apply Hin in Hx as (pop & _ & _ & Hgt & -> & F).
    apply proportion_finite; try assumption.
    apply sum_numbers_quantity, positive_counts_quantity.
Qed.

Lemma proportionsForBoxplot_sample :
  proportionsForBoxplot (englishLessThanVeryWellByStateBoxplot sample_english)
                        sample_population
  = [ (js "Texas", Fin 20) ].
Proof. vm_compute. reflexivity. Qed.

End BoxplotFacts.

